(** * DiffAnnotator: the hunk-labelling core of [src/App.tsx]

    A shallow embedding of the state kept by the [App] component (the
    parsed diff, the label map, the hunk map and the label filter), of the
    handlers that update it ([addLabel], [changeLabel], [removeLabel],
    [onHunkLabelChange], [addToFilter], [removeFromFilter]), of the
    [useMemo] callback that loads a file, of the [HunkView] effect that
    drops associations to deleted labels, and of [exportAsJSON]. *)

From Stdlib Require Import ZArith NArith Ascii String.
From stdpp Require Import gmap strings list.

Local Open Scope string_scope.
Local Open Scope list_scope.

(** ** JavaScript [Map]: a finite map that remembers insertion order

    [useMap] of usehooks-ts keeps a [Map] in React state; [set] copies the
    map and calls [Map.prototype.set], [remove] copies it and calls
    [Map.prototype.delete], [reset] installs an empty map.  A [Map] lists
    its entries in insertion order, and [set] on a key that is present
    keeps the key's position. *)
Module JSMap.

Abbreviation t K V := (list (K * V)).

Section ops.
Context {K V : Type} `{EqDecision K}.

Fixpoint get (k : K) (m : t K V) : option V :=
    match m with
    | [] => None
    | (k', v) :: m' => if decide (k = k') then Some v else get k m'
    end.

Definition has (k : K) (m : t K V) : bool :=
    match get k m with Some _ => true | None => false end.

Fixpoint set (k : K) (v : V) (m : t K V) : t K V :=
    match m with
    | [] => [(k, v)]
    | (k', v') :: m' =>
        if decide (k = k') then (k, v) :: m' else (k', v') :: set k v m'
    end.

Fixpoint remove (k : K) (m : t K V) : t K V :=
    match m with
    | [] => []
    | (k', v') :: m' =>
        if decide (k = k') then remove k m' else (k', v') :: remove k m'
    end.

Definition size (m : t K V) : nat := length m.
Definition keys (m : t K V) : list K := m.*1.
Definition values (m : t K V) : list V := m.*2.
Definition entries (m : t K V) : list (K * V) := m.
End ops.

End JSMap.

(** ** Strings of the JSON layer *)

(** The double quote character. *)
Definition dquote : ascii := "034"%char.

Definition hex_digit (n : N) : ascii :=
  match n with
  | 0 => "0" | 1 => "1" | 2 => "2" | 3 => "3" | 4 => "4" | 5 => "5"
  | 6 => "6" | 7 => "7" | 8 => "8" | 9 => "9" | 10 => "a" | 11 => "b"
  | 12 => "c" | 13 => "d" | 14 => "e" | _ => "f"
  end%N%char.

(** One code unit of [QuoteJSONString]: the two-character escapes, a
    [\u00xx] escape for the other control characters, the unit itself
    otherwise. *)
Definition QuoteJSONString_unit (c : ascii) : string :=
  match N_of_ascii c with
  | 8 => "\b"
  | 9 => "\t"
  | 10 => "\n"
  | 12 => "\f"
  | 13 => "\r"
  | 34 => String "\" (String dquote "")
  | 92 => "\\"
  | n =>
      if (n <? 32)%N
      then "\u00" +:+ String (hex_digit (n / 16)) (String (hex_digit (n mod 16)) "")
      else String c ""
  end%N.

Fixpoint QuoteJSONString_body (s : string) : string :=
  match s with
  | "" => ""
  | String c s' => QuoteJSONString_unit c +:+ QuoteJSONString_body s'
  end.

Definition QuoteJSONString (s : string) : string :=
  String dquote (QuoteJSONString_body s +:+ String dquote "").

(** [JSON.stringify([oldFileName, newFileName])], the key of the inner
    map of [exportAsJSON]. *)
Definition JSON_stringify_names (oldFileName newFileName : string) : string :=
  "[" +:+ QuoteJSONString oldFileName +:+ "," +:+ QuoteJSONString newFileName +:+ "]".

(** Left inverse of [QuoteJSONString_unit] on the head of a string; used
    only to show that the key above separates file-name pairs. *)
Definition unhex_digit (c : ascii) : option N :=
  let n := N_of_ascii c in
  if (48 <=? n)%N && (n <=? 57)%N then Some (n - 48)%N
  else if (97 <=? n)%N && (n <=? 102)%N then Some (n - 87)%N
  else None.

Definition unquote_unit (s : string) : option (ascii * string) :=
  match s with
  | String "\" (String "b" r) => Some (ascii_of_N 8, r)
  | String "\" (String "t" r) => Some (ascii_of_N 9, r)
  | String "\" (String "n" r) => Some (ascii_of_N 10, r)
  | String "\" (String "f" r) => Some (ascii_of_N 12, r)
  | String "\" (String "r" r) => Some (ascii_of_N 13, r)
  | String "\" (String "\" r) => Some (ascii_of_N 92, r)
  | String "\" (String "u" (String "0" (String "0" (String h1 (String h2 r))))) =>
      match unhex_digit h1, unhex_digit h2 with
      | Some a, Some b => Some (ascii_of_N (16 * a + b), r)
      | _, _ => None
      end
  | String "\" (String c r) =>
      if Ascii.eqb c dquote then Some (dquote, r) else None
  | String c r => if Ascii.eqb c dquote then None else Some (c, r)
  | "" => None
  end.

(** ** Plain objects used as dictionaries

    [exportAsJSON] collects the document in a plain object.  An ordinary
    object lists its own string keys with the array indices first, in
    ascending numeric order, and the other keys after them in creation
    order; assigning to a present key keeps its place; assigning to
    [__proto__] runs the accessor of [Object.prototype] and creates no
    own property. *)

Definition digit_val (c : ascii) : option N :=
  let n := N_of_ascii c in
  if (48 <=? n)%N && (n <=? 57)%N then Some (n - 48)%N else None.

Fixpoint parse_digits (acc : N) (s : string) : option N :=
  match s with
  | "" => Some acc
  | String c s' =>
      match digit_val c with
      | Some d => parse_digits (acc * 10 + d) s'
      | None => None
      end
  end.

(** [array_index s = Some n] when [s] is the canonical decimal spelling
    of an integer [n] below [2^32 - 1]. *)
Definition array_index (s : string) : option N :=
  match s with
  | "" => None
  | String c s' =>
      match digit_val c with
      | None => None
      | Some 0%N => match s' with "" => Some 0%N | _ => None end
      | Some d =>
          match parse_digits d s' with
          | Some n => if (n <? 4294967295)%N then Some n else None
          | None => None
          end
      end
  end.

Module JSObject.

Abbreviation t V := (list (string * V)).

Section ops.
Context {V : Type}.

Definition get (k : string) (o : t V) : option V := JSMap.get k o.

(** Where a new own property [k] goes among the properties of [o]. *)
Fixpoint define_new (k : string) (v : V) (o : t V) : t V :=
    match o with
    | [] => [(k, v)]
    | (k', v') :: o' =>
        match array_index k, array_index k' with
        | Some n, Some n' =>
            if (n <? n')%N then (k, v) :: o else (k', v') :: define_new k v o'
        | Some _, None => (k, v) :: o
        | None, _ => (k', v') :: define_new k v o'
        end
    end.

(** [o[k] = v] for an array [v]. *)
Definition assign (k : string) (v : V) (o : t V) : t V :=
    if decide (k = "__proto__") then o
    else if JSMap.has k o then JSMap.set k v o
    else define_new k v o.

(** [Object.entries(o)]. *)
Definition entries (o : t V) : list (string * V) := o.
End ops.

End JSObject.

(** ** Data model *)

(** A [UUID] is a branded string; only equality of ids is ever used, so
    ids are numbered.  [NIL], the all-zero id, is number 0, and
    [generateUUID] (a version-4 id, never [NIL], never one it gave
    before) hands out the numbers from [next_uuid] on.  Every id is a
    non-empty string, hence truthy. *)
Abbreviation UUID := N.
Definition NULL_UUID : UUID := 0%N.

(** The address of an object: a [Map] keyed by objects compares keys by
    identity. *)
Abbreviation loc := nat.

(** Modelled from the spec: the fields of a [Hunk] of the [diff] package
    (section 3, Hunk), as they are written to and read from JSON. *)
Record HunkFields := mkHunkFields {
  oldStart : Z;
  oldLines : Z;
  newStart : Z;
  newLines : Z;
  lines : list string
}.

(** A [Hunk] object in memory: its address and its fields, which the
    program never writes. *)
Record Hunk := mkHunk {
  hunk_loc : loc;
  hunk_fields : HunkFields
}.

(** Modelled from the spec: the fields of a [ParsedDiff] of the [diff]
    package (section 3, FileDiff), over the representation [H] of its
    hunks: [Hunk] objects in memory, [HunkFields] in JSON text. *)
Record ParsedDiffOf (H : Type) := mkParsedDiff {
  oldFileName : string;
  newFileName : string;
  hunks : list H
}.
Arguments mkParsedDiff {H} _ _ _.
Arguments oldFileName {H} _.
Arguments newFileName {H} _.
Arguments hunks {H} _.

Abbreviation ParsedDiff := (ParsedDiffOf Hunk).
Abbreviation ParsedDiffJSON := (ParsedDiffOf HunkFields).

(** The content of an exported document: the own properties of the
    top-level object, label text to file diffs, in the order
    [Object.entries] lists them. *)
Abbreviation Document := (JSObject.t (list ParsedDiffJSON)).

Record RawData := mkRawData {
  isJSON : bool;
  text : string
}.

(** The state of [App] that the core reads and writes. *)
Record State := mkState {
  diff : list ParsedDiff;
  newLabel : string;
  labelMap : JSMap.t UUID string;
  hunkMap : gmap loc UUID;
  labelFilter : gset UUID;
  next_uuid : N;
  next_loc : loc
}.

Definition initial : State :=
  mkState [] "" [] ∅ ∅ 1%N 0.

Definition with_diff (d : list ParsedDiff) (st : State) : State :=
  mkState d (newLabel st) (labelMap st) (hunkMap st) (labelFilter st)
          (next_uuid st) (next_loc st).
Definition with_newLabel (s : string) (st : State) : State :=
  mkState (diff st) s (labelMap st) (hunkMap st) (labelFilter st)
          (next_uuid st) (next_loc st).
Definition with_labelMap (m : JSMap.t UUID string) (st : State) : State :=
  mkState (diff st) (newLabel st) m (hunkMap st) (labelFilter st)
          (next_uuid st) (next_loc st).
Definition with_hunkMap (m : gmap loc UUID) (st : State) : State :=
  mkState (diff st) (newLabel st) (labelMap st) m (labelFilter st)
          (next_uuid st) (next_loc st).
Definition with_labelFilter (f : gset UUID) (st : State) : State :=
  mkState (diff st) (newLabel st) (labelMap st) (hunkMap st) f
          (next_uuid st) (next_loc st).
Definition with_next_uuid (n : N) (st : State) : State :=
  mkState (diff st) (newLabel st) (labelMap st) (hunkMap st) (labelFilter st)
          n (next_loc st).
Definition with_next_loc (n : loc) (st : State) : State :=
  mkState (diff st) (newLabel st) (labelMap st) (hunkMap st) (labelFilter st)
          (next_uuid st) n.

(** ** Statements: state passing with exceptions

    A statement runs on the stores and either completes with a value or
    throws.  The actions of [useMap] are updates requested of React,
    which applies them in the order they were requested.  The state a
    statement that throws is paired with holds the updates requested
    before the throw; what becomes of them depends on where the statement
    ran (see [in_render]). *)
Inductive Completion (A : Type) :=
| Normal (a : A)
| Throw.
Arguments Normal {A} a.
Arguments Throw {A}.

Definition Stmt (A : Type) : Type := State → Completion A * State.

Definition ret {A} (a : A) : Stmt A := λ st, (Normal a, st).
Definition throw {A} : Stmt A := λ st, (Throw, st).
Definition bind {A B} (c : Stmt A) (k : A → Stmt B) : Stmt B :=
  λ st, match c st with
        | (Normal a, st') => k a st'
        | (Throw, st') => (Throw, st')
        end.

Notation "x <- c ;; k" := (bind c (λ x, k))
  (at level 100, c at next level, right associativity).
Notation "c ;;; k" := (bind c (λ _, k))
  (at level 100, right associativity).

Fixpoint forEach {A} (f : A → Stmt unit) (l : list A) : Stmt unit :=
  match l with
  | [] => ret tt
  | x :: l' => f x ;;; forEach f l'
  end.

(** The state a statement leaves, and whether it threw. *)
Definition exec {A} (c : Stmt A) (st : State) : State := (c st).2.
Definition throws {A} (c : Stmt A) (st : State) : bool :=
  match (c st).1 with Throw => true | Normal _ => false end.

(** A statement that runs in a render of [App].  React applies the
    updates of a render that completes.  When the render throws, React
    discards the updates requested in it and, since [App] stands under no
    error boundary, unmounts the page: there are no stores afterwards. *)
Definition in_render {A} (c : Stmt A) (st : State) : option (A * State) :=
  match c st with
  | (Normal a, st') => Some (a, st')
  | (Throw, _) => None
  end.

(** ** The store actions of [useMap] *)

Definition labelMapActions_set (id : UUID) (label : string) : Stmt unit :=
  λ st, (Normal tt, with_labelMap (JSMap.set id label (labelMap st)) st).
Definition labelMapActions_remove (id : UUID) : Stmt unit :=
  λ st, (Normal tt, with_labelMap (JSMap.remove id (labelMap st)) st).
Definition labelMapActions_reset : Stmt unit :=
  λ st, (Normal tt, with_labelMap [] st).

Definition hunkMapActions_set (hunk : Hunk) (id : UUID) : Stmt unit :=
  λ st, (Normal tt, with_hunkMap (<[hunk_loc hunk := id]> (hunkMap st)) st).
Definition hunkMapActions_remove (hunk : Hunk) : Stmt unit :=
  λ st, (Normal tt, with_hunkMap (delete (hunk_loc hunk) (hunkMap st)) st).
Definition hunkMapActions_reset : Stmt unit :=
  λ st, (Normal tt, with_hunkMap ∅ st).

Definition labelFilterActions_set (id : UUID) : Stmt unit :=
  λ st, (Normal tt, with_labelFilter ({[id]} ∪ labelFilter st) st).
Definition labelFilterActions_remove (id : UUID) : Stmt unit :=
  λ st, (Normal tt, with_labelFilter (labelFilter st ∖ {[id]}) st).

Definition generateUUID : Stmt UUID :=
  λ st, (Normal (next_uuid st), with_next_uuid (N.succ (next_uuid st)) st).

(** ** Handlers of [App] *)

Definition importLabel (label : string) : Stmt UUID :=
  id <- generateUUID ;;
  labelMapActions_set id label ;;;
  ret id.

Definition addLabel : Stmt unit :=
  λ st,
    if (String.length (newLabel st) =? 0)%nat then ret tt st
    else (id <- generateUUID ;;
          labelMapActions_set id (newLabel st) ;;;
          (λ st', (Normal tt, with_newLabel "" st'))) st.

Definition changeLabel (id : UUID) (newLabel : string) : Stmt unit :=
  labelMapActions_set id newLabel.

Definition removeLabel (id : UUID) : Stmt unit :=
  labelMapActions_remove id.

Definition onHunkLabelChange (hunk : Hunk) (newLabelId : option UUID) : Stmt unit :=
  match newLabelId with
  | None => hunkMapActions_remove hunk
  | Some id => hunkMapActions_set hunk id
  end.

Definition addToFilter (id : UUID) : Stmt unit := labelFilterActions_set id.
Definition removeFromFilter (id : UUID) : Stmt unit := labelFilterActions_remove id.

(** The effect of a [LabelView]: it runs when the view mounts, with
    [inFilter] false, and when the filter button flips [inFilter].  It
    returns no cleanup, so nothing runs when the view unmounts, as it
    does when its label is deleted. *)
Definition LabelView_effect (labelId : UUID) (inFilter : bool) : Stmt unit :=
  if inFilter then addToFilter labelId else removeFromFilter labelId.

(** ** What is on screen *)

(** The predicate of the [filter] call in the render of [App]:
    [labelFilter.size === 0 || !hunkMap.has(hunk) ||
     labelFilter.has(hunkMap.get(hunk))]. *)
Definition visible (st : State) (hunk : Hunk) : bool :=
  bool_decide (size (labelFilter st) = 0)
  || negb (bool_decide (is_Some (hunkMap st !! hunk_loc hunk)))
  || match hunkMap st !! hunk_loc hunk with
     | Some id => bool_decide (id ∈ labelFilter st)
     | None => false
     end.

(** The hunks a render shows, each with its file diff: one [HunkView]
    per element (the render asserts that the keys of the views of a file
    diff are distinct). *)
Definition rendered (st : State) : list (ParsedDiff * Hunk) :=
  flat_map (λ fileDiff, map (pair fileDiff) (List.filter (visible st) (hunks fileDiff)))
           (diff st).

(** The two counts of the navbar: [changesCount] and
    [changesCount - hunkMap.size]. *)
Definition changesCount (st : State) : Z :=
  fold_left (λ acc x, acc + x)%Z
            (map (λ fileDiff, Z.of_nat (length (hunks fileDiff))) (diff st)) 0%Z.

Definition uncategorizedCount (st : State) : Z :=
  (changesCount st - Z.of_nat (size (hunkMap st)))%Z.

(** Every hunk of the diff, in the order of the nested [forEach]. *)
Definition traversal (d : list ParsedDiff) : list (ParsedDiff * Hunk) :=
  flat_map (λ fileDiff, map (pair fileDiff) (hunks fileDiff)) d.

(** The effect of one [HunkView], with the props of the render it
    belongs to. *)
Definition HunkView_effect (labelMap : JSMap.t UUID string)
    (hunk : Hunk) (selectedLabelId : option UUID) : Stmt unit :=
  match selectedLabelId with
  | Some id =>
      if negb (JSMap.has id labelMap) then onHunkLabelChange hunk None
      else ret tt
  | None => ret tt
  end.

(** After a render in which [labelMap] is a new map, the effect of every
    mounted [HunkView] runs, with the props of that render. *)
Definition HunkView_effects : Stmt unit :=
  λ st,
    forEach (λ '(_, hunk),
               HunkView_effect (labelMap st) hunk (hunkMap st !! hunk_loc hunk))
            (rendered st) st.

(** The Label Store operations as the user triggers them: the handler,
    then the render it causes and that render's effects. *)
Definition rename (id : UUID) (newText : string) : Stmt unit :=
  changeLabel id newText ;;; HunkView_effects.

Definition delete_label (id : UUID) : Stmt unit :=
  removeLabel id ;;; HunkView_effects.

(** ** Loading a file: the [useMemo] callback *)

Fixpoint mapM {A B} (f : A → Stmt B) (l : list A) : Stmt (list B) :=
  match l with
  | [] => ret []
  | x :: l' => y <- f x ;; ys <- mapM f l' ;; ret (y :: ys)
  end.

Fixpoint foldM {A B} (f : B → A → Stmt B) (acc : B) (l : list A) : Stmt B :=
  match l with
  | [] => ret acc
  | x :: l' => acc' <- f acc x ;; foldM f acc' l'
  end.

(** The parsers build new objects: every hunk gets an address nothing
    held before. *)
Definition new_Hunk (f : HunkFields) : Stmt Hunk :=
  λ st, (Normal (mkHunk (next_loc st) f), with_next_loc (S (next_loc st)) st).

Definition new_ParsedDiff (d : ParsedDiffJSON) : Stmt ParsedDiff :=
  hs <- mapM new_Hunk (hunks d) ;;
  ret (mkParsedDiff (oldFileName d) (newFileName d) hs).

Definition new_entry (e : string * list ParsedDiffJSON)
  : Stmt (string * list ParsedDiff) :=
  ds <- mapM new_ParsedDiff e.2 ;; ret (e.1, ds).

(** The callback of [Object.entries(data).forEach]; [result] is the
    array it pushes to. *)
Definition import_entry (result : list ParsedDiff)
    (entry : string * list ParsedDiff) : Stmt (list ParsedDiff) :=
  let '(label, parsedDiffs) := entry in
  id <- importLabel label ;;
  forEach (λ parsedDiff,
             forEach (λ hunk, hunkMapActions_set hunk id) (hunks parsedDiff))
          parsedDiffs ;;;
  ret (result ++ parsedDiffs).

(** The body of the JSON branch once [JSON.parse] has returned [data]. *)
Definition import_data (data : JSObject.t (list ParsedDiff)) : Stmt (list ParsedDiff) :=
  labelMapActions_reset ;;;
  foldM import_entry [] (JSObject.entries data).

Definition set_diff (d : list ParsedDiff) : Stmt unit :=
  λ st, (Normal tt, with_diff d st).

(** Loading a document whose content is [doc]: what the JSON branch does
    when [JSON.parse] returns an object with that content. *)
Definition importDocument (doc : Document) : Stmt unit :=
  hunkMapActions_reset ;;;
  data <- mapM new_entry doc ;;
  d <- import_data data ;;
  set_diff d.

Section Load.

(** The two parsers the callback calls, by what they return for a text:
    [None] when the parser throws, the content of the value otherwise
    ([JSON.parse] at the type the source declares for [data]: a text that
    parses to a value of another shape is not described). *)
Variable parsePatch : string → option (list ParsedDiffJSON).
Variable JSON_parse : string → option Document.

(** The callback of [useMemo], in program order. *)
Definition diff_callback (rawData : RawData) : Stmt (list ParsedDiff) :=
  hunkMapActions_reset ;;;
  if isJSON rawData then
    match JSON_parse (text rawData) with
    | None => throw
    | Some doc =>
        data <- mapM new_entry doc ;;
        import_data data
    end
  else
    match parsePatch (text rawData) with
    | None => throw
    | Some ds => mapM new_ParsedDiff ds
    end.

(** The [useMemo] hook in the render of [App] that follows
    [setRawData]: the diff and the stores with the updates the callback
    requested, or [None] when the callback throws. *)
Definition diff_memo (rawData : RawData) (st : State)
  : option (list ParsedDiff * State) :=
  in_render (diff_callback rawData) st.

(** [setRawData] and the render it causes, with the effects of its
    [HunkView]s: the stores afterwards, or [None] when the callback
    throws, which leaves no page. *)
Definition load (rawData : RawData) (st : State) : option State :=
  snd <$> in_render (d <- diff_callback rawData ;;
                     set_diff d ;;;
                     HunkView_effects) st.

End Load.

(** ** [exportAsJSON] *)

Abbreviation ExportMap := (JSMap.t UUID (JSMap.t string ParsedDiff)).

(** The id a hunk is grouped under: [hunkMap.get(hunk) || NULL_UUID]. *)
Definition group_id (st : State) (hunk : Hunk) : UUID :=
  default NULL_UUID (hunkMap st !! hunk_loc hunk).

Definition names_key (fileDiff : ParsedDiff) : string :=
  JSON_stringify_names (oldFileName fileDiff) (newFileName fileDiff).

Definition push (hunk : Hunk) (d : ParsedDiff) : ParsedDiff :=
  mkParsedDiff (oldFileName d) (newFileName d) (hunks d ++ [hunk]).

(** The body of the inner [forEach].  The inner map and the synthetic
    diff are objects held by [map]: what [set] and [push] do to them is
    written back where they are held. *)
Definition exportAsJSON_hunk (st : State) (fileDiff : ParsedDiff)
    (map : ExportMap) (hunk : Hunk) : ExportMap :=
  let uuid := group_id st hunk in
  let map := if JSMap.has uuid map then map else JSMap.set uuid [] map in
  let innerMap := default [] (JSMap.get uuid map) in
  let key := names_key fileDiff in
  let innerMap :=
    if JSMap.has key innerMap then innerMap
    else JSMap.set key
           (mkParsedDiff (oldFileName fileDiff) (newFileName fileDiff) [])
           innerMap in
  let syntheticDiff :=
    default (mkParsedDiff (oldFileName fileDiff) (newFileName fileDiff) [])
            (JSMap.get key innerMap) in
  JSMap.set uuid (JSMap.set key (push hunk syntheticDiff) innerMap) map.

Definition exportAsJSON_map (st : State) : ExportMap :=
  fold_left (λ map fileDiff,
               fold_left (exportAsJSON_hunk st fileDiff) (hunks fileDiff) map)
            (diff st) [].

(** [labelMap.get(id) || "undefined"]: the empty string is falsy. *)
Definition label_key (st : State) (id : UUID) : string :=
  match JSMap.get id (labelMap st) with
  | Some label => if decide (label = "") then "undefined" else label
  | None => "undefined"
  end.

Definition exportAsJSON_object (st : State) : JSObject.t (list ParsedDiff) :=
  fold_left (λ object '(id, innerMap),
               JSObject.assign (label_key st id) (JSMap.values innerMap) object)
            (exportAsJSON_map st) [].

(** What [JSON.stringify] writes of a value: its fields, not its
    address. *)
Definition JSON_of_diff (d : ParsedDiff) : ParsedDiffJSON :=
  mkParsedDiff (oldFileName d) (newFileName d) (map hunk_fields (hunks d)).

Definition JSON_of_object (o : JSObject.t (list ParsedDiff)) : Document :=
  map (λ '(k, ds), (k, map JSON_of_diff ds)) o.

(** The document [exportAsJSON] saves. *)
Definition exportAsJSON (st : State) : Document :=
  JSON_of_object (exportAsJSON_object st).

(** ** Notions used to state the properties *)

(** An association is stale when it names an id the label map lacks. *)
Definition stale (labelMap : JSMap.t UUID string) (hm : gmap loc UUID) (x : loc) : bool :=
  match hm !! x with
  | Some id => negb (JSMap.has id labelMap)
  | None => false
  end.


(** The objects the parsers build from a content, when the next free
    address is [base]: addresses are handed out in reading order. *)
Fixpoint alloc_hunks (base : loc) (fs : list HunkFields) : list Hunk :=
  match fs with
  | [] => []
  | f :: fs' => mkHunk base f :: alloc_hunks (S base) fs'
  end.

Fixpoint count_hunks {H} (ds : list (ParsedDiffOf H)) : nat :=
  match ds with
  | [] => 0
  | d :: ds' => length (hunks d) + count_hunks ds'
  end.

Fixpoint alloc_diffs (base : loc) (ds : list ParsedDiffJSON) : list ParsedDiff :=
  match ds with
  | [] => []
  | d :: ds' =>
      mkParsedDiff (oldFileName d) (newFileName d) (alloc_hunks base (hunks d))
      :: alloc_diffs (base + length (hunks d)) ds'
  end.

Fixpoint count_entries {H} (doc : JSObject.t (list (ParsedDiffOf H))) : nat :=
  match doc with
  | [] => 0
  | (_, ds) :: doc' => count_hunks ds + count_entries doc'
  end.

Fixpoint alloc_entries (base : loc) (doc : Document) : JSObject.t (list ParsedDiff) :=
  match doc with
  | [] => []
  | (k, ds) :: doc' =>
      (k, alloc_diffs base ds) :: alloc_entries (base + count_hunks ds) doc'
  end.

(** The addresses of the hunks of a list of file diffs, in order. *)
Definition hunk_locs (ds : list ParsedDiff) : list loc :=
  map (λ '(_, hunk), hunk_loc hunk) (traversal ds).

(** The text of the label a hunk is associated with, if any. *)
Definition label_text (st : State) (hunk : Hunk) : option string :=
  match hunkMap st !! hunk_loc hunk with
  | Some id => JSMap.get id (labelMap st)
  | None => None
  end.

(** The labels an import creates for the keys of [data], the first with
    id [base]. *)
Fixpoint import_labels (base : UUID) (data : JSObject.t (list ParsedDiff))
  : JSMap.t UUID string :=
  match data with
  | [] => []
  | (label, _) :: data' => (base, label) :: import_labels (N.succ base) data'
  end.

(** [hunkMapActions.set(hunk, id)] for every address of [locs]. *)
Definition assoc_all (id : UUID) (locs : list loc) (hm : gmap loc UUID) : gmap loc UUID :=
  fold_left (λ hm x, <[x := id]> hm) locs hm.

(** [exportAsJSON]'s nested loops as one pass over the traversal. *)
Definition export_fold (st : State) (occ : list (ParsedDiff * Hunk))
    (m : ExportMap) : ExportMap :=
  fold_left (λ map '(fileDiff, hunk), exportAsJSON_hunk st fileDiff map hunk) occ m.

(** Whether an element of the traversal belongs to the group of id [u]
    and file-name key [k]. *)
Definition in_group (st : State) (u : UUID) (k : string)
    (x : ParsedDiff * Hunk) : bool :=
  bool_decide (group_id st x.2 = u) && bool_decide (names_key x.1 = k).

(** The hunks the export map holds for id [u] and key [k]. *)
Definition group_hunks (m : ExportMap) (u : UUID) (k : string) : list Hunk :=
  match JSMap.get u m with
  | Some innerMap =>
      match JSMap.get k innerMap with
      | Some syntheticDiff => hunks syntheticDiff
      | None => []
      end
  | None => []
  end.

(** Every hunk an export map holds, with the id of its group and the
    file names of its synthetic diff. *)
Definition flatten (m : ExportMap) : list (UUID * string * string * Hunk) :=
  flat_map (λ '(u, innerMap),
              flat_map (λ '(_, d),
                          map (λ hunk, (u, oldFileName d, newFileName d, hunk))
                              (hunks d))
                       innerMap)
           m.

(** An export map as the loops build it: one entry per id, one
    synthetic diff per key, each filed under the key of its own names and
    holding at least one hunk. *)
Definition inner_wf (innerMap : JSMap.t string ParsedDiff) : Prop :=
  NoDup (JSMap.keys innerMap)
  ∧ innerMap ≠ []
  ∧ Forall (λ '(k, d), names_key d = k ∧ hunks d ≠ []) innerMap.

Definition export_wf (m : ExportMap) : Prop :=
  NoDup (JSMap.keys m) ∧ Forall (λ '(_, innerMap), inner_wf innerMap) m.

(** The assignments [exportAsJSON] makes to [object], in order, and
    their outcome. *)
Definition assignments (st : State) (m : ExportMap) : list (string * list ParsedDiff) :=
  map (λ '(id, innerMap), (label_key st id, JSMap.values innerMap)) m.

Definition assign_all {V} (kvs : list (string * V)) (o : JSObject.t V) : JSObject.t V :=
  fold_left (λ object '(k, v), JSObject.assign k v object) kvs o.

(** What a round trip has to keep of the hunks of a state: for each
    hunk of the traversal, the file names of its diff, its fields, and
    the label text [text_of] gives it. *)
Definition snapshot (st : State) (text_of : Hunk → option string)
  : list (string * string * HunkFields * option string) :=
  map (λ '(fd, h), (oldFileName fd, newFileName fd, hunk_fields h, text_of h))
      (traversal (diff st)).

(** The key a hunk is exported under. *)
Definition export_key (st : State) (hunk : Hunk) : string :=
  label_key st (group_id st hunk).

(** The same view of the hunks under one key of an object or of a
    document. *)
Definition entry_view (e : string * list ParsedDiff)
  : list (string * string * HunkFields * option string) :=
  map (λ '(fd, h), (oldFileName fd, newFileName fd, hunk_fields h, Some e.1))
      (traversal e.2).

Definition json_entry_view (e : string * list ParsedDiffJSON)
  : list (string * string * HunkFields * option string) :=
  flat_map (λ d, map (λ f, (oldFileName d, newFileName d, f, Some e.1)) (hunks d))
           e.2.

(** The distinct elements of a list, each at the place of its first
    occurrence: the order in which a [Map] lists keys that were set in
    the order of the list. *)
Definition first_seen {A} `{EqDecision A} (l : list A) : list A :=
  fold_left (λ seen x, if bool_decide (x ∈ seen) then seen else seen ++ [x]) l [].

(** The keys of the inner map the export map holds for id [u]. *)
Definition inner_keys (m : ExportMap) (u : UUID) : list string :=
  match JSMap.get u m with
  | Some innerMap => JSMap.keys innerMap
  | None => []
  end.
(** ** The interface around the stores

    The rest of [App]: the state of each [LabelView], the error modal,
    the file input, the keys of the [HunkView]s, and the events of the
    page with what the handlers wired to them do. *)

From Stdlib Require DecimalString DecimalZ DecimalPos.

(** [String.prototype.endsWith], with no end position. *)
Definition endsWith (s searchString : string) : bool :=
  let len := String.length s in
  let searchLength := String.length searchString in
  (searchLength <=? len)%nat
  && String.eqb (substring (len - searchLength) searchLength s) searchString.

(** [String.prototype.split] with a separator of one character. *)
Fixpoint split (separator : ascii) (s : string) : list string :=
  match s with
  | "" => [""]
  | String c s' =>
      if Ascii.eqb c separator then "" :: split separator s'
      else match split separator s' with
           | piece :: pieces => String c piece :: pieces
           | [] => [String c ""]
           end
  end.

Definition newline : ascii := "010"%char.

(** An [Error] object, by the three properties [showError] reads;
    [stack] is optional. *)
Record Error := mkError {
  name : string;
  message : string;
  stack : option string
}.

(** What [+] makes of an operand that may be [undefined]. *)
Definition string_of_optional (s : option string) : string :=
  default "undefined" s.

(** The class of the header of a [HunkView]:
    [[selectedLabelId ? "bg-success" : "bg-danger", "text-light"]
     .filter(c => c).join(" ")].  An id is a non-empty string. *)
Definition HunkView_header_className (selectedLabelId : option UUID) : string :=
  String.concat " "
    (List.filter (λ c, negb (String.eqb c ""))
       [match selectedLabelId with
        | Some _ => "bg-success"
        | None => "bg-danger"
        end; "text-light"]).

(** [Number.isSafeInteger], on an integer. *)
Definition safe_integer (z : Z) : bool := (Z.abs z <? 2 ^ 53)%Z.

(** [`${x}`] for a number [x] that is a safe integer, as the line
    numbers of a diff are: its decimal digits, after a minus sign when it
    is negative.  (A number beyond that is spelled by the shortest digits
    that read back as the same number, in exponent form from [10^21] on:
    other characters than here, though still pairwise different strings
    with no underscore.) *)
Definition Number_toString (z : Z) : string :=
  DecimalString.NilZero.string_of_int (Z.to_int z).

Section Keys.

(** The string an id is. *)
Variable UUID_text : UUID → string.

(** The [key] of the [HunkView] of a hunk:
    [`${fileDiff.oldFileName}_${fileDiff.newFileName}_${hunk.oldStart}_${hunkMap.get(hunk)}`]. *)
Definition HunkView_key (st : State) (fileDiff : ParsedDiff) (hunk : Hunk) : string :=
  oldFileName fileDiff +:+ "_" +:+ newFileName fileDiff +:+ "_"
  +:+ Number_toString (oldStart (hunk_fields hunk)) +:+ "_"
  +:+ string_of_optional (UUID_text <$> hunkMap st !! hunk_loc hunk).

(** The [reduce] over the views of a file diff, by whether every
    [console.assert] in it holds; [keys] is [acc.keys], and [views] holds
    the keys of the views still to come. *)
Fixpoint keys_asserted (keys views : list string) : bool :=
  match views with
  | [] => true
  | key :: views' =>
      negb (bool_decide (key ∈ keys)) && keys_asserted (keys ++ [key]) views'
  end.

(** Whether every assertion of a render holds. *)
Definition render_asserted (st : State) : bool :=
  forallb (λ fileDiff,
             keys_asserted []
               (map (HunkView_key st fileDiff)
                    (List.filter (visible st) (hunks fileDiff))))
          (diff st).

End Keys.

(** The part of the key of a [HunkView] before its last underscore: the
    hunk keeps it whatever its association is. *)
Definition HunkView_key_head (fileDiff : ParsedDiff) (hunk : Hunk) : string :=
  oldFileName fileDiff +:+ "_" +:+ newFileName fileDiff +:+ "_"
  +:+ Number_toString (oldStart (hunk_fields hunk)).

(** Whether a diff is keyed: its line numbers are safe integers and its
    hunks differ pairwise in the head of their keys.  Then the
    [HunkView]s of a render have pairwise different keys, whatever the
    associations and the filter are.  React relies on that for siblings:
    with two equal keys it can keep the card of a hunk that no render
    shows any more, and the select of such a card still calls
    [onLabelChange]. *)
Definition keyed (d : list ParsedDiff) : bool :=
  forallb (λ '(_, hunk), safe_integer (oldStart (hunk_fields hunk))) (traversal d)
  && bool_decide (NoDup (map (λ '(fileDiff, hunk), HunkView_key_head fileDiff hunk)
                             (traversal d))).

(** The state of one [LabelView] and its handlers. *)
Module LabelView.

Record t := mk {
  editMode : bool;
  newLabel : string;
  inFilter : bool
}.

(** The three [useState] calls of a view that mounts. *)
Definition mount : t := mk false "" false.

Definition setNewLabel (value : string) (v : t) : t :=
  mk (editMode v) value (inFilter v).

Definition startEdit (label : string) (v : t) : t :=
  mk true label (inFilter v).

Definition abortEdit (v : t) : t :=
  mk false (newLabel v) (inFilter v).

Definition commitEdit (labelId : UUID) (v : t) : Stmt t :=
  changeLabel labelId (newLabel v) ;;;
  ret (mk false (newLabel v) (inFilter v)).

(** The filter button: [setInFilter(flag => !flag)]. *)
Definition toggleFilter (v : t) : t :=
  mk (editMode v) (newLabel v) (negb (inFilter v)).

End LabelView.

(** The page: the stores of [App], the mounted [LabelView]s by their
    key, which is the label id, and the state of the modal. *)
Record UI := mkUI {
  stores : State;
  labelViews : gmap UUID LabelView.t;
  showModal : bool;
  errorHead : string;
  errorBody : string
}.

Definition blank : UI := mkUI initial ∅ false "" "".

Definition showError (e : Error) (ui : UI) : UI :=
  mkUI (stores ui) (labelViews ui) true (name e)
       (message e +:+ String newline (string_of_optional (stack e))).

(** The lines of [Modal.Body]. *)
Definition Modal_body (ui : UI) : list string :=
  split newline (errorBody ui).

(** The [LabelView]s of a render: one per entry of [labelMap].  A view
    whose key was there keeps its state, another one mounts. *)
Definition reconcile (views : gmap UUID LabelView.t)
    (labelMap : JSMap.t UUID string) : gmap UUID LabelView.t :=
  list_to_map (map (λ id, (id, default LabelView.mount (views !! id)))
                   (JSMap.keys labelMap)).

(** Whether the effect of the [LabelView] of [labelId] runs after a
    render, and with which [inFilter]: it runs when the view has mounted
    and when its [inFilter] is not the one of the render before.  [old]
    holds the views of the render before, [new] those of this one. *)
Definition filter_effect (old new : gmap UUID LabelView.t) (labelId : UUID)
  : option bool :=
  match new !! labelId with
  | Some v =>
      if decide (LabelView.inFilter <$> old !! labelId
                 = Some (LabelView.inFilter v))
      then None
      else Some (LabelView.inFilter v)
  | None => None
  end.

(** The effects of the [LabelView]s after a render. *)
Definition LabelView_effects (old new : gmap UUID LabelView.t) : Stmt unit :=
  λ st,
    forEach (λ labelId,
               match filter_effect old new labelId with
               | Some inFilter => LabelView_effect labelId inFilter
               | None => ret tt
               end)
            (JSMap.keys (labelMap st)) st.

(** What follows a handler: the render with the new state and its
    effects, those of the [HunkView]s before those of the [LabelView]s,
    then the render the effects cause, in which the [HunkView]s of the
    hunks the filter now shows mount and run their effect.  [pending]
    holds the views with the state the handler gave them.  (An effect
    that runs again for a [HunkView] that stays mounted finds nothing to
    do, so every [HunkView] on screen runs it here.)

    The [HunkView]s that run their effect are those of the hunks the
    render shows.  While the diff is [keyed] these are all the cards of
    the page.  The assertion of the render compares the keys within one
    file diff only and stops nothing; after a render with two equal keys
    the page can hold, besides them, the card of a hunk that no render
    shows any more.  What is said of the cards of the page, and of what
    their selects can write, is said of sessions with keyed diffs
    ([session_keyed]). *)
Definition render (old pending : gmap UUID LabelView.t)
  : Stmt (gmap UUID LabelView.t) :=
  λ st,
    let new := reconcile pending (labelMap st) in
    (HunkView_effects ;;;
     LabelView_effects old new ;;;
     HunkView_effects ;;;
     ret new) st.

(** The events of the page. *)
Inductive Event :=
| FileRead (fileName result : string)
| FileReadError (error : option Error) (newErrorStack : option string)
| ModalHide
| NewLabelChange (value : string)
| AddClick
| SelectChange (i : nat) (value : UUID)
| FilterClick (labelId : UUID)
| EditClick (labelId : UUID)
| EditChange (labelId : UUID) (value : string)
| AbortClick (labelId : UUID)
| SaveClick (labelId : UUID)
| TrashClick (labelId : UUID).

Section Page.

Variable parsePatch : string → option (list ParsedDiffJSON).
Variable JSON_parse : string → option Document.

(** A handler, which returns the [LabelView]s as it leaves them, and the
    renders after it.  An exception in a render is caught by nothing:
    the page is gone. *)
Definition after (ui : UI) (handler : Stmt (gmap UUID LabelView.t)) : option UI :=
  match (pending <- handler ;; render (labelViews ui) pending) (stores ui) with
  | (Normal views, st) => Some (mkUI st views (showModal ui) (errorHead ui) (errorBody ui))
  | (Throw, _) => None
  end.

(** The handler of a [LabelView] button or input; the view is there when
    its key is. *)
Definition on_LabelView (ui : UI) (labelId : UUID) (editMode : bool)
    (handler : LabelView.t → Stmt LabelView.t) : option UI :=
  match labelViews ui !! labelId with
  | Some v =>
      if bool_decide (LabelView.editMode v = editMode)
      then after ui (v' <- handler v ;; ret (<[labelId := v']> (labelViews ui)))
      else None
  | None => None
  end.

(** What an event does to the page: [None] when the page does not offer
    the event (no such view, or a button the view does not show in its
    mode), and when a render throws.

    - [FileRead]: the [onload] of the reader of the file input, with the
      name of the file and the text read, then the [useMemo] callback.
    - [FileReadError]: its [onerror], with [target.error] and the stack
      a [new Error] gets.
    - [SelectChange i value]: the select of the [i]-th [HunkView] on
      screen; the value of an option is a label id, that of the first
      option its text, which is the id of no label.  The selects are
      those of the hunks of [rendered]: all the selects of the page while
      the diff is [keyed] (see [render]). *)
Definition handle (ev : Event) (ui : UI) : option UI :=
  match ev with
  | FileRead fileName result =>
      after ui
        (d <- diff_callback parsePatch JSON_parse
                (mkRawData (endsWith fileName "json") result) ;;
         set_diff d ;;;
         ret (labelViews ui))
  | FileReadError error newErrorStack =>
      Some (showError (default (mkError "Error" "Unknown error" newErrorStack) error) ui)
  | ModalHide =>
      Some (mkUI (stores ui) (labelViews ui) false (errorHead ui) (errorBody ui))
  | NewLabelChange value =>
      after ui ((λ st, (Normal tt, with_newLabel value st)) ;;; ret (labelViews ui))
  | AddClick =>
      after ui (addLabel ;;; ret (labelViews ui))
  | SelectChange i value =>
      match rendered (stores ui) !! i with
      | Some (_, hunk) =>
          after ui (onHunkLabelChange hunk (Some value) ;;; ret (labelViews ui))
      | None => None
      end
  | FilterClick labelId =>
      on_LabelView ui labelId false (λ v, ret (LabelView.toggleFilter v))
  | EditClick labelId =>
      match JSMap.get labelId (labelMap (stores ui)) with
      | Some label =>
          on_LabelView ui labelId false (λ v, ret (LabelView.startEdit label v))
      | None => None
      end
  | EditChange labelId value =>
      on_LabelView ui labelId true (λ v, ret (LabelView.setNewLabel value v))
  | AbortClick labelId =>
      on_LabelView ui labelId true (λ v, ret (LabelView.abortEdit v))
  | SaveClick labelId =>
      on_LabelView ui labelId true (LabelView.commitEdit labelId)
  | TrashClick labelId =>
      match labelViews ui !! labelId with
      | Some _ => after ui (removeLabel labelId ;;; ret (labelViews ui))
      | None => None
      end
  end.

(** The page after its first render, in which [useMemo] runs the
    callback on the initial [rawData]. *)
Definition start : option UI :=
  after blank
    (d <- diff_callback parsePatch JSON_parse (mkRawData false "") ;;
     set_diff d ;;;
     ret ∅).

Fixpoint run (evs : list Event) (ui : UI) : option UI :=
  match evs with
  | [] => Some ui
  | ev :: evs' =>
      match handle ev ui with
      | Some ui' => run evs' ui'
      | None => None
      end
  end.

(** The page after a session: the first render, then the events. *)
Definition session (evs : list Event) : option UI :=
  match start with
  | Some ui => run evs ui
  | None => None
  end.

(** Whether the diff was keyed all along a run: on the page it starts
    from and after each event. *)
Fixpoint run_keyed (evs : list Event) (ui : UI) : bool :=
  keyed (diff (stores ui))
  && match evs with
     | [] => true
     | ev :: evs' =>
         match handle ev ui with
         | Some ui' => run_keyed evs' ui'
         | None => true
         end
     end.

(** Whether every diff of a session was keyed: the sessions in which the
    cards on the page are those of the last render. *)
Definition session_keyed (evs : list Event) : bool :=
  match start with
  | Some ui => run_keyed evs ui
  | None => true
  end.

End Page.

(** ** Notions used to state the properties of the page *)

(** The hunks of the diff that have no association. *)
Definition uncategorized (st : State) : list (ParsedDiff * Hunk) :=
  List.filter (λ '(_, hunk), bool_decide (hunkMap st !! hunk_loc hunk = None))
              (traversal (diff st)).

(** Whether the object at [x] is a hunk with a [HunkView] on screen. *)
Definition on_screen (st : State) (x : loc) : bool :=
  bool_decide (x ∈ (hunk_loc ∘ snd) <$> rendered st).

(** What the handlers keep of the stores: labels have pairwise different
    ids, none of them [NIL], all of them handed out by [generateUUID];
    the hunks of the diff are pairwise different objects, allocated by a
    parser; only hunks of the diff have an association; the filter holds
    ids that were handed out. *)
Record Store_inv (st : State) : Prop := mkStore_inv {
  next_uuid_pos : (0 < next_uuid st)%N;
  label_ids_NoDup : NoDup (JSMap.keys (labelMap st));
  label_ids_bound : ∀ id, id ∈ JSMap.keys (labelMap st) → (0 < id < next_uuid st)%N;
  hunks_NoDup : NoDup (hunk_locs (diff st));
  hunks_bound : ∀ x, x ∈ hunk_locs (diff st) → x < next_loc st;
  associations_in_diff : ∀ x, is_Some (hunkMap st !! x) → x ∈ hunk_locs (diff st);
  filter_bound : ∀ id, id ∈ labelFilter st → (id < next_uuid st)%N
}.

(** What the renders establish: there is a [LabelView] for each label
    and no other; the filter button of a view is on exactly when its
    label is in the filter; the association of a hunk on screen is to a
    label of the label map. *)
Record View_inv (ui : UI) : Prop := mkView_inv {
  views_of_labels :
    ∀ id, is_Some (labelViews ui !! id) ↔ id ∈ JSMap.keys (labelMap (stores ui));
  inFilter_in_filter :
    ∀ id v, labelViews ui !! id = Some v →
            (LabelView.inFilter v = true ↔ id ∈ labelFilter (stores ui));
  on_screen_live :
    ∀ fd h id, In (fd, h) (rendered (stores ui)) →
               hunkMap (stores ui) !! hunk_loc h = Some id →
               JSMap.has id (labelMap (stores ui)) = true
}.
(** ** The shape of a document *)

(** The key of the inner map of [exportAsJSON], for a file diff in
    memory or in a document. *)
Definition names_key_of {H} (d : ParsedDiffOf H) : string :=
  JSON_stringify_names (oldFileName d) (newFileName d).

(** An own property [k] of an ordinary object may stand before an own
    property [k']: array indices stand first, in ascending order. *)
Definition key_before (k k' : string) : Prop :=
  match array_index k, array_index k' with
  | Some n, Some n' => (n ≤ n')%N
  | Some _, None => True
  | None, Some _ => False
  | None, None => True
  end.

Fixpoint own_property_order (ks : list string) : Prop :=
  match ks with
  | [] => True
  | k :: ks' => Forall (key_before k) ks' ∧ own_property_order ks'
  end.

(** The file diffs under one key of an exported document: at least one,
    with pairwise different file names, each with at least one hunk. *)
Definition entry_normal {H} (ds : list (ParsedDiffOf H)) : Prop :=
  ds ≠ []
  ∧ NoDup (map names_key_of ds)
  ∧ Forall (λ d, hunks d ≠ []) ds.

(** A document as [exportAsJSON] writes them: the entries of an object,
    in the order of its own properties, no key empty or [__proto__]. *)
Record normal_document {H} (doc : JSObject.t (list (ParsedDiffOf H))) : Prop :=
  mk_normal_document {
    normal_keys : NoDup (JSMap.keys doc);
    normal_order : own_property_order (JSMap.keys doc);
    normal_no_proto : "__proto__" ∉ JSMap.keys doc;
    normal_no_empty : "" ∉ JSMap.keys doc;
    normal_entries : Forall (λ e, entry_normal e.2) doc
  }.

(** The entries of [data] with the ids an import gives their labels,
    the first one [base]. *)
Fixpoint imported (base : UUID) (data : JSObject.t (list ParsedDiff))
  : list (UUID * string * list ParsedDiff) :=
  match data with
  | [] => []
  | (label, parsedDiffs) :: data' =>
      (base, label, parsedDiffs) :: imported (N.succ base) data'
  end.

(** The export map of a state in which the hunks of each entry form the
    group of the id of the entry. *)
Definition export_of_imported (ts : list (UUID * string * list ParsedDiff))
  : ExportMap :=
  map (λ '(id, _, parsedDiffs),
         (id, map (λ d, (names_key d, d)) parsedDiffs))
      ts.
(** * Properties *)

(** ** Ordered maps *)

Section JSMap_facts.
Context {K V : Type} `{EqDecision K}.
Implicit Types (k : K) (v : V) (m : JSMap.t K V).

Lemma JSMap_get_set k k' v m :
  JSMap.get k' (JSMap.set k v m) = if decide (k = k') then Some v else JSMap.get k' m.
Proof.
  induction m as [|[k0 v0] m IH]; simpl.
  - repeat case_decide; congruence.
  - destruct (decide (k = k0)) as [->|Hne]; simpl; repeat case_decide; congruence.
Qed.

Lemma JSMap_get_set_eq k v m : JSMap.get k (JSMap.set k v m) = Some v.
Proof. rewrite JSMap_get_set. by rewrite decide_True. Qed.

Lemma JSMap_get_set_ne k k' v m :
  k ≠ k' → JSMap.get k' (JSMap.set k v m) = JSMap.get k' m.
Proof. intros. rewrite JSMap_get_set. by rewrite decide_False. Qed.

Lemma JSMap_get_remove k k' m :
  JSMap.get k' (JSMap.remove k m) = if decide (k = k') then None else JSMap.get k' m.
Proof.
  induction m as [|[k0 v0] m IH]; simpl.
  - by case_decide.
  - destruct (decide (k = k0)) as [->|Hne]; simpl; repeat case_decide; congruence.
Qed.

Lemma JSMap_has_get k m : JSMap.has k m = bool_decide (is_Some (JSMap.get k m)).
Proof.
  unfold JSMap.has. destruct (JSMap.get k m) eqn:E.
  - symmetry. apply bool_decide_eq_true. eauto.
  - symmetry. apply bool_decide_eq_false. by intros [? ?].
Qed.

Lemma JSMap_has_true k m : JSMap.has k m = true ↔ is_Some (JSMap.get k m).
Proof. rewrite JSMap_has_get. apply bool_decide_eq_true. Qed.

Lemma JSMap_has_false k m : JSMap.has k m = false ↔ JSMap.get k m = None.
Proof.
  unfold JSMap.has. destruct (JSMap.get k m); split; congruence.
Qed.

Lemma JSMap_get_None k m : JSMap.get k m = None ↔ k ∉ JSMap.keys m.
Proof.
  unfold JSMap.keys. induction m as [|[k0 v0] m IH]; simpl.
  - split; [intros _; apply not_elem_of_nil | done].
  - rewrite not_elem_of_cons. case_decide; split; try done.
    + intros [? _]; done.
    + intros ?; split; [done | by apply IH].
    + intros [_ ?]; by apply IH.
Qed.

Lemma JSMap_get_Some_elem k v m : JSMap.get k m = Some v → (k, v) ∈ m.
Proof.
  induction m as [|[k0 v0] m IH]; simpl; [done|].
  case_decide; intros ?; simplify_eq; [left | right; auto].
Qed.

Lemma JSMap_elem_get k v m :
  NoDup (JSMap.keys m) → (k, v) ∈ m → JSMap.get k m = Some v.
Proof.
  unfold JSMap.keys. induction m as [|[k0 v0] m IH]; simpl.
  - intros _ ?%elem_of_nil; done.
  - intros [Hk0 Hnd]%NoDup_cons [Heq | Hin]%elem_of_cons.
    + simplify_eq. by rewrite decide_True.
    + rewrite decide_False; [by apply IH|].
      intros ->. apply Hk0. apply list_elem_of_fmap. by exists (k0, v).
Qed.

Lemma JSMap_set_absent k v m :
  JSMap.get k m = None → JSMap.set k v m = m ++ [(k, v)].
Proof.
  induction m as [|[k0 v0] m IH]; simpl; [done|].
  case_decide; [done|]. intros ?. by rewrite IH.
Qed.

Lemma JSMap_get_split k v0 m :
  JSMap.get k m = Some v0 →
  ∃ l1 l2, m = l1 ++ (k, v0) :: l2 ∧ JSMap.get k l1 = None
           ∧ ∀ v, JSMap.set k v m = l1 ++ (k, v) :: l2.
Proof.
  induction m as [|[k1 v1] m IH]; simpl; [done|].
  case_decide as Hk.
  - intros ?; simplify_eq. exists [], m. split_and!; [done..|].
    done.
  - intros (l1 & l2 & -> & Hl1 & Hset)%IH.
    exists ((k1, v1) :: l1), l2. split_and!; [done| |].
    + simpl. by rewrite decide_False.
    + intros v. simpl. rewrite ?decide_False by done. by rewrite Hset.
Qed.

Lemma JSMap_keys_set k v m :
  JSMap.keys (JSMap.set k v m)
  = if JSMap.has k m then JSMap.keys m else JSMap.keys m ++ [k].
Proof.
  unfold JSMap.keys. destruct (JSMap.has k m) eqn:E.
  - apply JSMap_has_true in E as [v0 (l1 & l2 & -> & _ & Hset)%JSMap_get_split].
    rewrite Hset. by rewrite !fmap_app.
  - apply JSMap_has_false in E. rewrite JSMap_set_absent by done.
    by rewrite fmap_app.
Qed.

Lemma JSMap_NoDup_set k v m :
  NoDup (JSMap.keys m) → NoDup (JSMap.keys (JSMap.set k v m)).
Proof.
  intros Hnd. rewrite JSMap_keys_set. destruct (JSMap.has k m) eqn:E; [done|].
  apply JSMap_has_false, JSMap_get_None in E.
  apply NoDup_app. split_and!; [done| |apply NoDup_singleton].
  intros x Hx ->%list_elem_of_singleton. done.
Qed.

Lemma JSMap_get_app k (l1 l2 : JSMap.t K V) :
  JSMap.get k (l1 ++ l2)
  = match JSMap.get k l1 with Some v => Some v | None => JSMap.get k l2 end.
Proof.
  induction l1 as [|[k0 v0] l1 IH]; simpl; [done|]. by case_decide.
Qed.

Lemma JSMap_get_middle k v (l1 l2 : JSMap.t K V) :
  JSMap.get k l1 = None → JSMap.get k (l1 ++ (k, v) :: l2) = Some v.
Proof.
  intros Hl1. rewrite JSMap_get_app, Hl1. simpl. by rewrite decide_True.
Qed.

Lemma JSMap_set_middle k v v0 (l1 l2 : JSMap.t K V) :
  JSMap.get k l1 = None →
  JSMap.set k v (l1 ++ (k, v0) :: l2) = l1 ++ (k, v) :: l2.
Proof.
  intros Hl1.
  destruct (JSMap_get_split k v0 (l1 ++ (k, v0) :: l2)) as (a & b & Heq & Ha & Hset).
  { by apply JSMap_get_middle. }
  rewrite Hset. clear Hset. revert a Heq Ha.
  induction l1 as [|[k1 v1] l1 IH]; intros [|[k2 v2] a] Heq Ha; simpl in *.
  - by simplify_eq.
  - simplify_eq. by rewrite decide_True in Ha.
  - simplify_eq. by rewrite decide_True in Hl1.
  - injection Heq as -> -> Heq. case_decide; [done|].
    f_equal. by apply IH.
Qed.

Lemma JSMap_get_middle_ne k k' v (l1 l2 : JSMap.t K V) :
  k' ≠ k → JSMap.get k' (l1 ++ (k, v) :: l2) = JSMap.get k' (l1 ++ l2).
Proof.
  intros Hne. rewrite !JSMap_get_app. simpl. by rewrite decide_False.
Qed.

Lemma JSMap_keys_app (l1 l2 : JSMap.t K V) :
  JSMap.keys (l1 ++ l2) = JSMap.keys l1 ++ JSMap.keys l2.
Proof. unfold JSMap.keys. by rewrite fmap_app. Qed.

End JSMap_facts.

(** ** Statements and the [HunkView] effects *)

Lemma exec_bind {A B} (c : Stmt A) (k : A → Stmt B) st :
  exec (bind c k) st
  = match c st with
    | (Normal a, st') => exec (k a) st'
    | (Throw, st') => st'
    end.
Proof. unfold exec, bind. by destruct (c st) as [[a|] st']. Qed.

Lemma throws_bind {A B} (c : Stmt A) (k : A → Stmt B) st :
  throws (bind c k) st
  = match c st with
    | (Normal a, st') => throws (k a) st'
    | (Throw, _) => true
    end.
Proof. unfold throws, bind. by destruct (c st) as [[a|] st']. Qed.

Lemma HunkView_effects_run lm (snapshot : gmap loc UUID) (l : list (ParsedDiff * Hunk)) st :
  ∃ hm,
    forEach (λ '(_, hunk), HunkView_effect lm hunk (snapshot !! hunk_loc hunk)) l st
    = (Normal tt, with_hunkMap hm st)
    ∧ ∀ x, hm !! x
           = if bool_decide (x ∈ (hunk_loc ∘ snd) <$> l) && stale lm snapshot x
             then None else hunkMap st !! x.
Proof.
  revert st. induction l as [|[fd h] l IH]; intros st; cbn [forEach].
  - exists (hunkMap st). split; [by destruct st|]. intros x.
    rewrite bool_decide_eq_false_2; [done | apply not_elem_of_nil].
  - unfold bind at 1.
    assert (∃ st1, HunkView_effect lm h (snapshot !! hunk_loc h) st = (Normal tt, st1)
                   ∧ st1 = with_hunkMap (hunkMap st1) st
                   ∧ ∀ x, hunkMap st1 !! x
                          = if bool_decide (x = hunk_loc h) && stale lm snapshot x
                            then None else hunkMap st !! x) as (st1 & -> & Hst1 & Hhm).
    { unfold HunkView_effect, stale.
      destruct (snapshot !! hunk_loc h) as [id|] eqn:Hsnap.
      - destruct (JSMap.has id lm) eqn:Hhas; simpl.
        + exists st. split_and!; [done | by destruct st |]. intros x.
          case_bool_decide; simplify_eq; [|done]. by rewrite Hsnap, Hhas.
        + eexists. split_and!; [done..|]. intros x. simpl.
          case_bool_decide; simplify_eq; simpl.
          * by rewrite Hsnap, Hhas, lookup_delete_eq.
          * by rewrite lookup_delete_ne.
      - exists st. split_and!; [done | by destruct st |]. intros x.
        case_bool_decide; simplify_eq; [|done]. by rewrite Hsnap. }
    destruct (IH st1) as (hm & -> & Hhm'). exists hm. split.
    { by rewrite Hst1. }
    intros x. rewrite Hhm', Hhm. rewrite fmap_cons. cbn [compose snd].
    destruct (stale lm snapshot x); rewrite ?andb_true_r, ?andb_false_r; [|done].
    rewrite (bool_decide_ext _ _ (elem_of_cons _ x (hunk_loc h))).
    rewrite bool_decide_or.
    by destruct (bool_decide (x = hunk_loc h)), (bool_decide (x ∈ _)).
Qed.

Lemma HunkView_effects_spec st :
  ∃ hm,
    HunkView_effects st = (Normal tt, with_hunkMap hm st)
    ∧ ∀ x, hm !! x
           = if bool_decide (x ∈ (hunk_loc ∘ snd) <$> rendered st)
                && stale (labelMap st) (hunkMap st) x
             then None else hunkMap st !! x.
Proof. apply HunkView_effects_run. Qed.

Lemma rendered_spec st fd h :
  In (fd, h) (rendered st) ↔ In fd (diff st) ∧ In h (hunks fd) ∧ visible st h = true.
Proof.
  unfold rendered. rewrite in_flat_map. split.
  - intros (fd' & Hfd & Hin). apply in_map_iff in Hin as (h' & Heq & Hh).
    simplify_eq. by apply filter_In in Hh as [? ?].
  - intros (Hfd & Hh & Hv). exists fd. split; [done|].
    by apply in_map, filter_In.
Qed.

Lemma traversal_spec d fd h :
  In (fd, h) (traversal d) ↔ In fd d ∧ In h (hunks fd).
Proof.
  unfold traversal. rewrite in_flat_map. split.
  - intros (fd' & Hfd & Hin). apply in_map_iff in Hin as (h' & Heq & Hh).
    by simplify_eq.
  - intros (Hfd & Hh). exists fd. split; [done|]. by apply in_map.
Qed.

(** ** The filter *)

Lemma visible_true_iff (st : State) (hunk : Hunk) :
  visible st hunk = true
  ↔ labelFilter st = ∅
    ∨ hunkMap st !! hunk_loc hunk = None
    ∨ ∃ id, hunkMap st !! hunk_loc hunk = Some id ∧ id ∈ labelFilter st.
Proof.
  unfold visible. rewrite !orb_true_iff, negb_true_iff.
  rewrite bool_decide_eq_true, bool_decide_eq_false, size_empty_iff.
  rewrite <- eq_None_not_Some. unfold_leibniz.
  destruct (hunkMap st !! hunk_loc hunk) as [id|] eqn:E.
  - rewrite bool_decide_eq_true. split.
    + intros [[?|?]|?]; [by left|done|]. right; right. eauto.
    + intros [?|[?|(id' & ? & ?)]]; [by left; left|done|]. right. by simplify_eq.
  - split; [|by left; right]. intros _. by right; left.
Qed.

(** C6. A hunk is visible exactly when the filter is empty, or the hunk
    has no association, or the filter contains the id the hunk is
    associated with.  In particular a hunk with no association is visible
    under every filter, an empty filter shows every hunk, and the render
    shows the hunks of the diff that are visible, no others. *)
Theorem visible_iff (st : State) (hunk : Hunk) :
  (visible st hunk = true
   ↔ labelFilter st = ∅
     ∨ hunkMap st !! hunk_loc hunk = None
     ∨ ∃ id, hunkMap st !! hunk_loc hunk = Some id ∧ id ∈ labelFilter st)
  ∧ (hunkMap st !! hunk_loc hunk = None → visible st hunk = true)
  ∧ (labelFilter st = ∅ → rendered st = traversal (diff st))
  ∧ (∀ fileDiff,
       In (fileDiff, hunk) (rendered st)
       ↔ In (fileDiff, hunk) (traversal (diff st)) ∧ visible st hunk = true).
Proof.
  pose proof (visible_true_iff st hunk) as Hiff.
  split_and!; [done| | |].
  - intros Hnone. apply Hiff. by right; left.
  - intros Hempty. unfold rendered, traversal.
    apply flat_map_ext. intros fd. f_equal.
    apply forallb_filter_id, forallb_forall.
    intros h _. unfold visible. rewrite Hempty.
    by rewrite size_empty.
  - intros fd. rewrite rendered_spec, traversal_spec. tauto.
Qed.

(** ** The Label Store *)

Lemma rename_run (id : UUID) (newText : string) (st : State) :
  ∃ hm,
    rename id newText st
    = (Normal tt,
       with_hunkMap hm (with_labelMap (JSMap.set id newText (labelMap st)) st))
    ∧ ∀ x, hm !! x
           = if bool_decide (x ∈ (hunk_loc ∘ snd) <$> rendered st)
                && stale (JSMap.set id newText (labelMap st)) (hunkMap st) x
             then None else hunkMap st !! x.
Proof.
  unfold rename, changeLabel, labelMapActions_set, bind.
  destruct (HunkView_effects_spec
              (with_labelMap (JSMap.set id newText (labelMap st)) st))
    as (hm & -> & Hhm).
  exists hm. split; [done|]. intros x. by rewrite Hhm.
Qed.

Lemma delete_label_run (id : UUID) (st : State) :
  ∃ hm,
    delete_label id st
    = (Normal tt,
       with_hunkMap hm (with_labelMap (JSMap.remove id (labelMap st)) st))
    ∧ ∀ x, hm !! x
           = if bool_decide (x ∈ (hunk_loc ∘ snd) <$> rendered st)
                && stale (JSMap.remove id (labelMap st)) (hunkMap st) x
             then None else hunkMap st !! x.
Proof.
  unfold delete_label, removeLabel, labelMapActions_remove, bind.
  destruct (HunkView_effects_spec
              (with_labelMap (JSMap.remove id (labelMap st)) st))
    as (hm & -> & Hhm).
  exists hm. split; [done|]. intros x. by rewrite Hhm.
Qed.

(** C7, as the code has it.  [changeLabel] is [labelMapActions.set]: on
    an id the Label Store lacks it raises no error and adds the label
    at the end of the store. *)
Theorem rename_absent_appends (st : State) (id : UUID) (newText : string) :
  JSMap.get id (labelMap st) = None →
  throws (rename id newText) st = false
  ∧ labelMap (exec (rename id newText) st) = labelMap st ++ [(id, newText)]
  ∧ labelMap (exec (changeLabel id newText) st) = labelMap st ++ [(id, newText)].
Proof.
  intros Habsent. unfold throws, exec.
  destruct (rename_run id newText st) as (hm & -> & _). simpl.
  by rewrite JSMap_set_absent.
Qed.

Lemma rename_absent_appends_witness :
  throws (rename 7%N "todo") initial = false
  ∧ labelMap (exec (rename 7%N "todo") initial) = labelMap initial ++ [(7%N, "todo")]
  ∧ labelMap (exec (changeLabel 7%N "todo") initial) = labelMap initial ++ [(7%N, "todo")].
Proof. apply (rename_absent_appends initial 7%N "todo"). reflexivity. Defined.

(** C7 as stated fails: id 7 is absent from the empty Label Store, and
    renaming it leaves a store that is not the one before. *)
Lemma rename_absent_not_noop :
  JSMap.get 7%N (labelMap initial) = None
  ∧ labelMap (exec (rename 7%N "todo") initial) ≠ labelMap initial.
Proof. split; [reflexivity|]. vm_compute. discriminate. Qed.

(** C8. Renaming a label that is present keeps its id and its place in
    the store and changes its text only: [changeLabel] writes nothing but
    the label map, where the label keeps its position and the other
    labels their text.  After the render that follows, every hunk
    associated to the label, and every hunk associated to any label of
    the store, is associated as before, and the diff and the filter are
    the same; when every association names a label of the store, that
    render changes nothing at all. *)
Theorem rename_preserves_identity (st : State) (L : UUID) (oldText newText : string) :
  JSMap.get L (labelMap st) = Some oldText →
  let st' := exec (rename L newText) st in
  throws (rename L newText) st = false
  ∧ exec (changeLabel L newText) st
    = with_labelMap (JSMap.set L newText (labelMap st)) st
  ∧ (∃ before after,
       labelMap st = before ++ (L, oldText) :: after
       ∧ JSMap.get L before = None
       ∧ labelMap st' = before ++ (L, newText) :: after)
  ∧ JSMap.keys (labelMap st') = JSMap.keys (labelMap st)
  ∧ JSMap.get L (labelMap st') = Some newText
  ∧ (∀ id, id ≠ L → JSMap.get id (labelMap st') = JSMap.get id (labelMap st))
  ∧ (∀ hunk, hunkMap st !! hunk_loc hunk = Some L →
             hunkMap st' !! hunk_loc hunk = Some L)
  ∧ (∀ hunk id, hunkMap st !! hunk_loc hunk = Some id →
                JSMap.has id (labelMap st) = true →
                hunkMap st' !! hunk_loc hunk = Some id)
  ∧ (∀ hunk, hunkMap st !! hunk_loc hunk = None →
             hunkMap st' !! hunk_loc hunk = None)
  ∧ diff st' = diff st
  ∧ labelFilter st' = labelFilter st
  ∧ ((∀ x id, hunkMap st !! x = Some id → JSMap.has id (labelMap st) = true) →
     st' = exec (changeLabel L newText) st).
Proof.
  intros HL st'. subst st'. unfold throws, exec.
  destruct (rename_run L newText st) as (hm & -> & Hhm). simpl.
  destruct (JSMap_get_split _ _ _ HL) as (before & after & Hm & Hbefore & Hset).
  assert (Hlive : ∀ x id, hunkMap st !! x = Some id →
                          JSMap.has id (labelMap st) = true → hm !! x = Some id).
  { intros x id Hx Hid. rewrite Hhm. unfold stale. rewrite Hx.
    assert (JSMap.has id (JSMap.set L newText (labelMap st)) = true) as ->.
    { apply JSMap_has_true. rewrite JSMap_get_set. case_decide; [eauto|].
      by apply JSMap_has_true. }
    by rewrite andb_false_r. }
  split_and!; try done.
  - exists before, after. by rewrite Hset.
  - rewrite JSMap_keys_set.
    assert (JSMap.has L (labelMap st) = true) as ->; [|done].
    apply JSMap_has_true. eauto.
  - apply JSMap_get_set_eq.
  - intros id Hne. by apply JSMap_get_set_ne.
  - intros hunk Hh. apply Hlive; [done|]. apply JSMap_has_true. eauto.
  - intros hunk id. apply Hlive.
  - intros hunk Hh. rewrite Hhm, Hh. by destruct (_ && _).
  - intros Hall. assert (hm = hunkMap st) as ->; [|by destruct st].
    apply map_eq. intros x. destruct (hunkMap st !! x) as [id|] eqn:Hx.
    + apply Hlive; [done|]. by apply (Hall x).
    + rewrite Hhm, Hx. by destruct (_ && _).
Qed.

Lemma rename_preserves_identity_witness :
  let st := mkState [] "" [(1%N, "a"); (2%N, "b"); (3%N, "c")]
                    {[0 := 2%N]} ∅ 4%N 1 in
  labelMap (exec (rename 2%N "new") st) = [(1%N, "a"); (2%N, "new"); (3%N, "c")]
  ∧ hunkMap (exec (rename 2%N "new") st) !! 0 = Some 2%N.
Proof.
  intros st.
  pose proof (rename_preserves_identity st 2%N "b" "new" eq_refl) as H.
  cbv zeta in H.
  destruct H as (_ & _ & _ & _ & _ & _ & Hkeep & _).
  split; [reflexivity|].
  apply (Hkeep (mkHunk 0 (mkHunkFields 0 0 0 0 []))). reflexivity.
Defined.

(** C2, as the code has it.  Deleting a label removes it from the Label
    Store; the effect of each [HunkView] on screen then drops the
    association of its hunk when it names the deleted label.  So for a
    hunk of the diff that is on screen when [L] is deleted (the filter is
    empty or contains [L]), [set(h, L)] then [delete(L)] leaves [h] with
    no association.  Nothing in the deletion writes the filter: it is the
    same before and after, and [L] stays in it if it was there. *)
Theorem delete_cascades_on_screen
    (st : State) (fileDiff : ParsedDiff) (hunk : Hunk) (L : UUID) :
  In fileDiff (diff st) →
  In hunk (hunks fileDiff) →
  labelFilter st = ∅ ∨ L ∈ labelFilter st →
  let st' := exec (onHunkLabelChange hunk (Some L) ;;; delete_label L) st in
  throws (onHunkLabelChange hunk (Some L) ;;; delete_label L) st = false
  ∧ hunkMap st' !! hunk_loc hunk = None
  ∧ JSMap.get L (labelMap st') = None
  ∧ (∀ id, id ≠ L → JSMap.get id (labelMap st') = JSMap.get id (labelMap st))
  ∧ labelFilter st' = labelFilter st.
Proof.
  intros Hfd Hh Hfilter st'. subst st'. unfold throws, exec, bind.
  cbn [onHunkLabelChange hunkMapActions_set].
  set (st1 := with_hunkMap (<[hunk_loc hunk:=L]> (hunkMap st)) st).
  destruct (delete_label_run L st1) as (hm & -> & Hhm). simpl.
  split_and!; try done.
  - rewrite Hhm. unfold stale. simpl. rewrite lookup_insert_eq.
    assert (JSMap.has L (JSMap.remove L (labelMap st)) = false) as ->.
    { apply JSMap_has_false. rewrite JSMap_get_remove. by rewrite decide_True. }
    rewrite bool_decide_eq_true_2; [done|].
    apply list_elem_of_fmap. exists (fileDiff, hunk). split; [done|].
    apply list_elem_of_In, rendered_spec. split_and!; [done..|].
    apply visible_true_iff. destruct Hfilter as [Hempty|HL]; [by left|].
    right; right. exists L. simpl. by rewrite lookup_insert_eq.
  - rewrite JSMap_get_remove. by rewrite decide_True.
  - intros id Hne. rewrite JSMap_get_remove. by rewrite decide_False.
Qed.

Lemma delete_cascades_on_screen_witness :
  let hunk := mkHunk 0 (mkHunkFields 1 1 1 1 ["+x"]) in
  let st := mkState [mkParsedDiff "a" "b" [hunk]] "" [(1%N, "L")] ∅ {[1%N]} 2%N 1 in
  hunkMap (exec (onHunkLabelChange hunk (Some 1%N) ;;; delete_label 1%N) st)
    !! hunk_loc hunk = None
  ∧ labelFilter (exec (onHunkLabelChange hunk (Some 1%N) ;;; delete_label 1%N) st)
    = labelFilter st.
Proof.
  intros hunk st.
  assert (Hfilter : labelFilter st = ∅ ∨ 1%N ∈ labelFilter st).
  { right. eapply bool_decide_unpack. vm_compute. exact I. }
  pose proof (delete_cascades_on_screen st (mkParsedDiff "a" "b" [hunk]) hunk 1%N
                (or_introl eq_refl) (or_introl eq_refl) Hfilter) as H.
  cbv zeta in H. destruct H as (_ & Hgone & _ & _ & Hsame). by split.
Defined.

(** C2 as stated fails: label 1 is in the filter, the hunk is set to it
    and the label is deleted; the filter still holds 1. *)
Lemma delete_leaves_filter :
  let hunk := mkHunk 0 (mkHunkFields 1 1 1 1 ["+x"]) in
  let st := mkState [mkParsedDiff "a" "b" [hunk]] "" [(1%N, "L")] ∅ {[1%N]} 2%N 1 in
  let st' := exec (onHunkLabelChange hunk (Some 1%N) ;;; delete_label 1%N) st in
  ¬ (hunkMap st' !! hunk_loc hunk = None ∧ 1%N ∉ labelFilter st').
Proof.
  intros hunk st st' [_ Hnot]. apply Hnot.
  eapply bool_decide_unpack. vm_compute. exact I.
Qed.

(** A hunk that the filter hides has no [HunkView], so no effect runs for
    it: with labels 1 and 2 and the filter on 2, a hunk set to 1 keeps
    that association when 1 is deleted. *)
Example delete_skips_hidden_hunk :
  let hunk := mkHunk 0 (mkHunkFields 1 1 1 1 ["+x"]) in
  let st := mkState [mkParsedDiff "a" "b" [hunk]] ""
                    [(1%N, "L1"); (2%N, "L2")] ∅ {[2%N]} 3%N 1 in
  let st' := exec (onHunkLabelChange hunk (Some 1%N) ;;; delete_label 1%N) st in
  hunkMap st' !! hunk_loc hunk = Some 1%N ∧ JSMap.get 1%N (labelMap st') = None.
Proof. split; vm_compute; reflexivity. Qed.

(** ** Loading *)

Lemma with_next_loc_same st n : n = next_loc st → with_next_loc n st = st.
Proof. intros ->. by destruct st. Qed.

Lemma mapM_new_Hunk fs st :
  mapM new_Hunk fs st
  = (Normal (alloc_hunks (next_loc st) fs),
     with_next_loc (next_loc st + length fs) st).
Proof.
  revert st. induction fs as [|f fs IH]; intros st; simpl.
  - unfold ret. f_equal. symmetry. apply with_next_loc_same. lia.
  - unfold bind, new_Hunk at 1. rewrite IH. simpl. unfold ret.
    f_equal. unfold with_next_loc; simpl. f_equal. lia.
Qed.

Lemma new_ParsedDiff_run d st :
  new_ParsedDiff d st
  = (Normal (mkParsedDiff (oldFileName d) (newFileName d)
                          (alloc_hunks (next_loc st) (hunks d))),
     with_next_loc (next_loc st + length (hunks d)) st).
Proof. unfold new_ParsedDiff, bind. by rewrite mapM_new_Hunk. Qed.

Lemma mapM_new_ParsedDiff ds st :
  mapM new_ParsedDiff ds st
  = (Normal (alloc_diffs (next_loc st) ds),
     with_next_loc (next_loc st + count_hunks ds) st).
Proof.
  revert st. induction ds as [|d ds IH]; intros st; simpl.
  - unfold ret. f_equal. symmetry. apply with_next_loc_same. lia.
  - unfold bind. rewrite new_ParsedDiff_run, IH. simpl. unfold ret.
    f_equal. unfold with_next_loc; simpl. f_equal. lia.
Qed.

Lemma mapM_new_entry doc st :
  mapM new_entry doc st
  = (Normal (alloc_entries (next_loc st) doc),
     with_next_loc (next_loc st + count_entries doc) st).
Proof.
  revert st. induction doc as [|[k ds] doc IH]; intros st; simpl.
  - unfold ret. f_equal. symmetry. apply with_next_loc_same. lia.
  - unfold bind, new_entry at 1. simpl. unfold bind.
    rewrite mapM_new_ParsedDiff. unfold ret at 1. rewrite IH. simpl. unfold ret.
    f_equal. unfold with_next_loc; simpl. f_equal. lia.
Qed.

Lemma assoc_all_lookup id locs hm x :
  assoc_all id locs hm !! x = if bool_decide (x ∈ locs) then Some id else hm !! x.
Proof.
  unfold assoc_all. revert hm. induction locs as [|y locs IH]; intros hm; cbn [fold_left].
  - rewrite bool_decide_eq_false_2; [done | apply not_elem_of_nil].
  - rewrite IH. rewrite (bool_decide_ext _ _ (elem_of_cons locs x y)).
    rewrite bool_decide_or.
    destruct (bool_decide (x ∈ locs)); [by rewrite orb_true_r|].
    rewrite orb_false_r. case_bool_decide as Hy.
    + subst. apply lookup_insert_eq.
    + by apply lookup_insert_ne.
Qed.

Lemma hunk_locs_cons d ds :
  hunk_locs (d :: ds) = map hunk_loc (hunks d) ++ hunk_locs ds.
Proof.
  unfold hunk_locs, traversal. simpl. rewrite map_app, map_map. done.
Qed.

Lemma hunk_locs_app ds1 ds2 :
  hunk_locs (ds1 ++ ds2) = hunk_locs ds1 ++ hunk_locs ds2.
Proof.
  unfold hunk_locs, traversal. by rewrite flat_map_app, map_app.
Qed.

Lemma import_hunks_run id pds st :
  forEach (λ parsedDiff,
             forEach (λ hunk, hunkMapActions_set hunk id) (hunks parsedDiff))
          pds st
  = (Normal tt, with_hunkMap (assoc_all id (hunk_locs pds) (hunkMap st)) st).
Proof.
  revert st. induction pds as [|pd pds IH]; intros st.
  - simpl. unfold ret. by destruct st.
  - cbn [forEach]. unfold bind at 1.
    assert (∀ hs st0,
              forEach (λ hunk, hunkMapActions_set hunk id) hs st0
              = (Normal tt,
                 with_hunkMap (assoc_all id (map hunk_loc hs) (hunkMap st0)) st0))
      as Hinner.
    { clear. induction hs as [|h hs IHh]; intros st0.
      - simpl. unfold ret. by destruct st0.
      - cbn [forEach]. unfold bind, hunkMapActions_set at 1. by rewrite IHh. }
    rewrite Hinner, IH. rewrite hunk_locs_cons. unfold assoc_all.
    by rewrite fold_left_app.
Qed.

Lemma import_entry_run result label pds st :
  import_entry result (label, pds) st
  = (Normal (result ++ pds),
     mkState (diff st) (newLabel st)
             (JSMap.set (next_uuid st) label (labelMap st))
             (assoc_all (next_uuid st) (hunk_locs pds) (hunkMap st))
             (labelFilter st) (N.succ (next_uuid st)) (next_loc st)).
Proof.
  unfold import_entry, importLabel, bind, generateUUID, labelMapActions_set, ret.
  by rewrite import_hunks_run.
Qed.

Lemma in_traversal_hunk_locs ds fd h :
  In (fd, h) (traversal ds) → hunk_loc h ∈ hunk_locs ds.
Proof.
  intros Hin. apply list_elem_of_In. unfold hunk_locs.
  apply in_map_iff. by exists (fd, h).
Qed.

Lemma import_fold data : ∀ result st,
  (∀ id, id ∈ JSMap.keys (labelMap st) → (id < next_uuid st)%N) →
  ∃ hm,
    foldM import_entry result data st
    = (Normal (result ++ flat_map snd data),
       mkState (diff st) (newLabel st)
               (labelMap st ++ import_labels (next_uuid st) data) hm
               (labelFilter st) (next_uuid st + N.of_nat (length data))
               (next_loc st))
    ∧ (∀ x, x ∉ hunk_locs (flat_map snd data) → hm !! x = hunkMap st !! x)
    ∧ (NoDup (hunk_locs (flat_map snd data)) →
       ∀ label pds fd h,
         In (label, pds) data → In (fd, h) (traversal pds) →
         ∃ id, hm !! hunk_loc h = Some id
               ∧ JSMap.get id (labelMap st ++ import_labels (next_uuid st) data)
                 = Some label)
    ∧ (∀ x id, hm !! x = Some id →
               hunkMap st !! x = Some id
               ∨ is_Some (JSMap.get id (import_labels (next_uuid st) data))).
Proof.
  induction data as [|[label pds] data IH]; intros result st Hkeys.
  - exists (hunkMap st). split_and!.
    + simpl. unfold ret. rewrite !app_nil_r, N.add_0_r. by destruct st.
    + done.
    + intros _ ? ? ? ? [].
    + intros x id Hx. by left.
  - cbn [foldM]. unfold bind. rewrite import_entry_run.
    remember (next_uuid st) as base eqn:Hbase.
    assert (Habsent : JSMap.get base (labelMap st) = None).
    { apply JSMap_get_None. intros Hin%Hkeys. lia. }
    rewrite JSMap_set_absent by done.
    match goal with |- context [foldM _ _ _ ?s] => set (st1 := s) end.
    destruct (IH (result ++ pds) st1) as (hm & Hrun & Hframe & Htext & Hids).
    { subst st1. simpl. unfold JSMap.keys. rewrite fmap_app.
      intros id [Hin | ->%list_elem_of_singleton]%elem_of_app; [|simpl; lia].
      apply Hkeys in Hin. lia. }
    exists hm. subst st1. simpl in Hrun, Hframe, Htext, Hids.
    cbn [flat_map snd import_labels length].
    rewrite hunk_locs_app.
    split_and!.
    + rewrite Hrun. rewrite <- !app_assoc. cbn [app].
      do 2 f_equal. lia.
    + intros x Hx. apply not_elem_of_app in Hx as [Hx1 Hx2].
      rewrite Hframe by done. rewrite assoc_all_lookup.
      by rewrite bool_decide_eq_false_2.
    + intros Hnd label' pds' fd h Hentry Hh.
      apply NoDup_app in Hnd as (Hnd1 & Hdisj & Hnd2).
      destruct Hentry as [Heq | Hentry].
      * simplify_eq. exists (next_uuid st). split.
        -- rewrite Hframe.
           ++ rewrite assoc_all_lookup. rewrite bool_decide_eq_true_2; [done|].
              by eapply in_traversal_hunk_locs.
           ++ apply Hdisj. by eapply in_traversal_hunk_locs.
        -- rewrite JSMap_get_app, Habsent. simpl. by rewrite decide_True.
      * destruct (Htext Hnd2 label' pds' fd h Hentry Hh) as (id & Hid & Hget).
        exists id. split; [done|]. by rewrite <- app_assoc in Hget.
    + intros x id Hx. apply Hids in Hx as [Hx | Hx].
      * rewrite assoc_all_lookup in Hx. case_bool_decide; [|by left].
        simplify_eq. right. simpl. rewrite decide_True by done. eauto.
      * right. simpl. case_decide; eauto.
Qed.

Lemma alloc_hunks_locs base fs :
  map hunk_loc (alloc_hunks base fs) = seq base (length fs).
Proof.
  revert base. induction fs as [|f fs IH]; intros base; simpl; [done|].
  by rewrite IH.
Qed.

Lemma alloc_diffs_locs base ds :
  hunk_locs (alloc_diffs base ds) = seq base (count_hunks ds).
Proof.
  revert base. induction ds as [|d ds IH]; intros base; [done|].
  cbn [alloc_diffs count_hunks]. rewrite hunk_locs_cons. cbn [hunks].
  by rewrite alloc_hunks_locs, IH, seq_app.
Qed.

Lemma alloc_entries_locs base doc :
  hunk_locs (flat_map snd (alloc_entries base doc)) = seq base (count_entries doc).
Proof.
  revert base. induction doc as [|[k ds] doc IH]; intros base; [done|].
  cbn [alloc_entries count_entries flat_map snd]. rewrite hunk_locs_app.
  by rewrite alloc_diffs_locs, IH, seq_app.
Qed.

Lemma alloc_entries_length base doc :
  length (alloc_entries base doc) = length doc.
Proof.
  revert base. induction doc as [|[k ds] doc IH]; intros base; simpl; [done|].
  by rewrite IH.
Qed.

(** What [importDocument] leaves: the file diffs of the document as new
    objects, one new label per key, every hunk associated to the label
    of the key it stands under. *)
Lemma importDocument_run doc st :
  let data := alloc_entries (next_loc st) doc in
  ∃ hm,
    importDocument doc st
    = (Normal tt,
       mkState (flat_map snd data) (newLabel st)
               (import_labels (next_uuid st) data) hm (labelFilter st)
               (next_uuid st + N.of_nat (length doc))
               (next_loc st + count_entries doc))
    ∧ (∀ x, x ∉ hunk_locs (flat_map snd data) → hm !! x = None)
    ∧ (∀ label pds fd h,
         In (label, pds) data → In (fd, h) (traversal pds) →
         ∃ id, hm !! hunk_loc h = Some id
               ∧ JSMap.get id (import_labels (next_uuid st) data) = Some label)
    ∧ (∀ x id, hm !! x = Some id →
               is_Some (JSMap.get id (import_labels (next_uuid st) data))).
Proof.
  intros data. unfold importDocument, bind, hunkMapActions_reset.
  rewrite mapM_new_entry. fold data. cbn [next_loc with_hunkMap].
  unfold import_data, bind, labelMapActions_reset, JSObject.entries.
  match goal with |- context [foldM _ _ _ ?s] => set (st1 := s) end.
  destruct (import_fold data [] st1) as (hm & Hrun & Hframe & Htext & Hids).
  { subst st1. simpl. intros id Hin. by apply elem_of_nil in Hin. }
  exists hm. subst data. rewrite Hrun. subst st1. simpl in Hframe, Htext, Hids.
  split_and!.
  - unfold set_diff, with_diff. simpl.
    by rewrite alloc_entries_length.
  - intros x Hx. by rewrite Hframe.
  - apply Htext. rewrite alloc_entries_locs. apply NoDup_ListNoDup, seq_NoDup.
  - intros x id Hx. by apply Hids in Hx as [Hx | Hx].
Qed.

Section Load_facts.
Variable parsePatch : string → option (list ParsedDiffJSON).
Variable JSON_parse : string → option Document.

Lemma effects_on_live_associations st :
  (∀ x id, hunkMap st !! x = Some id → JSMap.has id (labelMap st) = true) →
  HunkView_effects st = (Normal tt, st).
Proof.
  intros Hlive. destruct (HunkView_effects_spec st) as (hm & -> & Hhm).
  f_equal. assert (hm = hunkMap st) as ->; [|by destruct st].
  apply map_eq. intros x. rewrite Hhm. unfold stale.
  destruct (hunkMap st !! x) as [id|] eqn:Hx; [|by destruct (bool_decide _)].
  rewrite (Hlive x id Hx). simpl. by rewrite andb_false_r.
Qed.

Lemma load_patch (st : State) (txt : string) :
  load parsePatch JSON_parse (mkRawData false txt) st
  = match parsePatch txt with
    | Some ds =>
        Some (mkState (alloc_diffs (next_loc st) ds) (newLabel st) (labelMap st) ∅
                      (labelFilter st) (next_uuid st) (next_loc st + count_hunks ds))
    | None => None
    end.
Proof.
  unfold load, in_render, diff_callback, bind, hunkMapActions_reset. cbn [isJSON text].
  destruct (parsePatch txt) as [ds|]; [|done].
  rewrite mapM_new_ParsedDiff. unfold set_diff. cbn [next_loc with_hunkMap].
  rewrite effects_on_live_associations; [done|].
  intros x id. simpl. by rewrite lookup_empty.
Qed.

Lemma load_json (st : State) (txt : string) :
  load parsePatch JSON_parse (mkRawData true txt) st
  = match JSON_parse txt with
    | Some doc => Some (exec (importDocument doc) st)
    | None => None
    end.
Proof.
  destruct (JSON_parse txt) as [doc|] eqn:Hparse.
  - destruct (importDocument_run doc st) as (hm & Hrun & _ & _ & Hids).
    unfold exec. rewrite Hrun. revert Hrun.
    unfold load, in_render, importDocument, diff_callback, bind, hunkMapActions_reset.
    cbn [isJSON text]. rewrite Hparse.
    destruct (mapM new_entry doc _) as [[data|] st1]; [|done].
    destruct (import_data data st1) as [[d|] st2]; [|done].
    unfold set_diff. intros Heq. apply (f_equal snd) in Heq. cbn [snd] in Heq.
    rewrite Heq. rewrite effects_on_live_associations; [done|]. simpl.
    intros x id Hx. apply JSMap_has_true. by eapply Hids.
  - unfold load, in_render, diff_callback, bind, hunkMapActions_reset.
    cbn [isJSON text]. by rewrite Hparse.
Qed.

End Load_facts.

Lemma JSON_of_alloc_hunks base fs :
  map hunk_fields (alloc_hunks base fs) = fs.
Proof.
  revert base. induction fs as [|f fs IH]; intros base; simpl; [done|].
  by rewrite IH.
Qed.

Lemma JSON_of_alloc_diffs base ds :
  map JSON_of_diff (alloc_diffs base ds) = ds.
Proof.
  revert base. induction ds as [|d ds IH]; intros base; simpl; [done|].
  rewrite IH. unfold JSON_of_diff. simpl. rewrite JSON_of_alloc_hunks.
  by destruct d.
Qed.

Section Load_claims.
Variable parsePatch : string → option (list ParsedDiffJSON).
Variable JSON_parse : string → option Document.

(** C4, as the code has it.  Loading unified-diff text that [parsePatch]
    accepts empties the Association Store, whatever it held;
    [labelMapActions.reset] stands in the JSON branch only, so the Label
    Store, like the filter, is what it was.  The diff is the parsed
    content as new objects. *)
Theorem load_patch_resets_associations
    (st : State) (txt : string) (ds : list ParsedDiffJSON) :
  parsePatch txt = Some ds →
  ∃ st',
    load parsePatch JSON_parse (mkRawData false txt) st = Some st'
    ∧ hunkMap st' = ∅
    ∧ labelMap st' = labelMap st
    ∧ labelFilter st' = labelFilter st
    ∧ diff st' = alloc_diffs (next_loc st) ds
    ∧ map JSON_of_diff (diff st') = ds.
Proof.
  intros Hparse. rewrite load_patch, Hparse. eexists. split; [done|].
  cbn [hunkMap labelMap labelFilter diff]. split_and!; try done.
  apply JSON_of_alloc_diffs.
Qed.

End Load_claims.

Lemma load_patch_resets_associations_witness :
  let patch :=
    "--- a" +:+ String newline "+++ b" +:+ String newline "@@ -1,1 +1,1 @@"
    +:+ String newline "-x" +:+ String newline "+y" in
  let ds := [mkParsedDiff "a" "b" [mkHunkFields 1 1 1 1 ["-x"; "+y"]]] in
  let parsePatch := λ s : string, if String.eqb s patch then Some ds else Some [] in
  let JSON_parse := λ _ : string, @None Document in
  let hunk := mkHunk 0 (mkHunkFields 7 1 7 1 ["+z"]) in
  let st := mkState [mkParsedDiff "c" "d" [hunk]] "" [(1%N, "bugfix")]
                    {[0 := 1%N]} {[1%N]} 2%N 1 in
  ∃ st',
    load parsePatch JSON_parse (mkRawData false patch) st = Some st'
    ∧ hunkMap st' = ∅
    ∧ labelMap st' = [(1%N, "bugfix")]
    ∧ labelFilter st' = {[1%N]}
    ∧ diff st' = [mkParsedDiff "a" "b" [mkHunk 1 (mkHunkFields 1 1 1 1 ["-x"; "+y"])]]
    ∧ map JSON_of_diff (diff st') = ds.
Proof.
  intros patch ds parsePatch JSON_parse hunk st.
  apply (load_patch_resets_associations parsePatch JSON_parse st patch ds).
  reflexivity.
Defined.

(** C4 as stated fails: the store holds a label, the text parses, and
    the label is still there after the load. *)
Lemma load_patch_keeps_labels :
  let st := mkState [] "" [(1%N, "bugfix")] ∅ ∅ 2%N 0 in
  ∃ st',
    load (λ _, Some []) (λ _, None) (mkRawData false "") st = Some st'
    ∧ ¬ (labelMap st' = [] ∧ hunkMap st' = ∅).
Proof.
  intros st. eexists. split; [reflexivity|]. intros [Hl _].
  vm_compute in Hl. discriminate.
Qed.

(** ** The key of the inner map separates file-name pairs *)

Lemma unquote_unit_quote (c : ascii) (r : string) :
  unquote_unit (QuoteJSONString_unit c +:+ r) = Some (c, r).
Proof.
  destruct c as [[] [] [] [] [] [] [] []]; reflexivity.
Qed.

Lemma unquote_unit_dquote (r : string) : unquote_unit (String dquote r) = None.
Proof. reflexivity. Qed.

Lemma string_app_nil (s : string) : "" +:+ s = s.
Proof. reflexivity. Qed.

Lemma string_app_cons (c : ascii) (a b : string) :
  String c a +:+ b = String c (a +:+ b).
Proof. reflexivity. Qed.

Lemma string_app_assoc (a b c : string) : (a +:+ b) +:+ c = a +:+ (b +:+ c).
Proof.
  induction a as [|x a IH]; [done|]. rewrite !string_app_cons. by f_equal.
Qed.

Lemma QuoteJSONString_body_inj (s s' r r' : string) :
  QuoteJSONString_body s +:+ String dquote r
  = QuoteJSONString_body s' +:+ String dquote r' →
  s = s' ∧ r = r'.
Proof.
  revert s'. induction s as [|c s IH]; intros [|c' s']; cbn [QuoteJSONString_body].
  - rewrite !string_app_nil. by intros [= ->].
  - rewrite string_app_nil, string_app_assoc. intros Heq.
    apply (f_equal unquote_unit) in Heq.
    by rewrite unquote_unit_quote in Heq.
  - rewrite string_app_nil, string_app_assoc. intros Heq.
    apply (f_equal unquote_unit) in Heq.
    by rewrite unquote_unit_quote in Heq.
  - rewrite !string_app_assoc. intros Heq.
    apply (f_equal unquote_unit) in Heq.
    rewrite !unquote_unit_quote in Heq. injection Heq as -> Heq.
    apply IH in Heq as [-> ->]. done.
Qed.

Lemma JSON_stringify_names_inj (a b a' b' : string) :
  JSON_stringify_names a b = JSON_stringify_names a' b' → a = a' ∧ b = b'.
Proof.
  unfold JSON_stringify_names, QuoteJSONString.
  rewrite !string_app_cons, !string_app_nil, !string_app_assoc.
  rewrite !string_app_cons, !string_app_nil.
  intros [= Heq].
  apply QuoteJSONString_body_inj in Heq as [-> Heq].
  injection Heq as Heq. rewrite ?string_app_assoc, ?string_app_cons in Heq.
  apply QuoteJSONString_body_inj in Heq as [-> _]. done.
Qed.

Lemma names_key_inj (d d' : ParsedDiff) :
  names_key d = names_key d' →
  oldFileName d = oldFileName d' ∧ newFileName d = newFileName d'.
Proof. apply JSON_stringify_names_inj. Qed.

(** ** The export map *)

Lemma exportAsJSON_map_fold (st : State) :
  exportAsJSON_map st = export_fold st (traversal (diff st)) [].
Proof.
  unfold exportAsJSON_map, export_fold, traversal.
  generalize (@nil (UUID * JSMap.t string ParsedDiff)).
  induction (diff st) as [|fd d IH]; intros m; simpl; [done|].
  rewrite fold_left_app, <- IH. f_equal.
  generalize m. induction (hunks fd) as [|h hs IHh]; intros m'; simpl; [done|].
  by rewrite IHh.
Qed.

Lemma export_fold_snoc st occ x m :
  export_fold st (occ ++ [x]) m
  = exportAsJSON_hunk st x.1 (export_fold st occ m) x.2.
Proof.
  unfold export_fold. rewrite fold_left_app. simpl. by destruct x.
Qed.

(** The three ways one hunk changes the export map: a new id at the
    end, a new key at the end of the id's inner map, or one more hunk at
    the end of the synthetic diff that is there. *)
Lemma exportAsJSON_hunk_shape st fd m h :
  let u := group_id st h in
  let k := names_key fd in
  let fresh := mkParsedDiff (oldFileName fd) (newFileName fd) [h] in
  (JSMap.get u m = None
   ∧ exportAsJSON_hunk st fd m h = m ++ [(u, [(k, fresh)])])
  ∨ (∃ l1 inner l2,
       m = l1 ++ (u, inner) :: l2
       ∧ JSMap.get u l1 = None ∧ JSMap.get k inner = None
       ∧ exportAsJSON_hunk st fd m h = l1 ++ (u, inner ++ [(k, fresh)]) :: l2)
  ∨ (∃ l1 i1 d i2 l2,
       m = l1 ++ (u, i1 ++ (k, d) :: i2) :: l2
       ∧ JSMap.get u l1 = None ∧ JSMap.get k i1 = None
       ∧ exportAsJSON_hunk st fd m h
         = l1 ++ (u, i1 ++ (k, push h d) :: i2) :: l2).
Proof.
  intros u k fresh. unfold exportAsJSON_hunk. cbv zeta. fold u k.
  destruct (JSMap.get u m) as [inner|] eqn:Hu.
  - assert (JSMap.has u m = true) as -> by (apply JSMap_has_true; eauto).
    rewrite Hu. cbn [from_option id].
    destruct (JSMap_get_split u inner m Hu) as (l1 & l2 & -> & Hl1 & Hset).
    destruct (JSMap.get k inner) as [d|] eqn:Hk.
    + right; right.
      assert (JSMap.has k inner = true) as -> by (apply JSMap_has_true; eauto).
      rewrite Hk. cbn [from_option id].
      destruct (JSMap_get_split k d inner Hk) as (i1 & i2 & -> & Hi1 & Hseti).
      exists l1, i1, d, i2, l2. split_and!; [done..|].
      by rewrite Hset, Hseti.
    + right; left.
      assert (JSMap.has k inner = false) as -> by (by apply JSMap_has_false).
      rewrite JSMap_get_set_eq. cbn [from_option id].
      exists l1, inner, l2. split_and!; [done..|].
      rewrite Hset. do 3 f_equal.
      rewrite (JSMap_set_absent k _ inner Hk).
      by rewrite (JSMap_set_middle k _ _ inner []) by done.
  - left. split; [done|].
    assert (JSMap.has u m = false) as -> by (by apply JSMap_has_false).
    rewrite JSMap_get_set_eq. cbn [from_option id].
    cbn [JSMap.has JSMap.get JSMap.set]. rewrite decide_True by done.
    cbn [from_option id]. rewrite decide_True by done.
    rewrite (JSMap_set_absent u _ m Hu).
    by rewrite (JSMap_set_middle u _ _ m []) by done.
Qed.

(** Case analysis on what one hunk does to the export map. *)
Ltac export_hunk_cases st fd m h :=
  destruct (exportAsJSON_hunk_shape st fd m h)
    as [(Hu & ->) | [(l1 & inner & l2 & -> & Hl1 & Hk & ->)
                    | (l1 & i1 & d & i2 & l2 & -> & Hl1 & Hi1 & ->)]].

Lemma group_hunks_step st fd m h u' k' :
  group_hunks (exportAsJSON_hunk st fd m h) u' k'
  = group_hunks m u' k'
    ++ (if bool_decide (group_id st h = u') && bool_decide (names_key fd = k')
        then [h] else []).
Proof.
  unfold group_hunks.
  export_hunk_cases st fd m h.
  - rewrite JSMap_get_app. destruct (decide (group_id st h = u')) as [<-|Hne].
    + rewrite Hu. simpl. rewrite decide_True by done.
      rewrite bool_decide_eq_true_2 by done. simpl.
      case_decide; case_bool_decide; simplify_eq; done.
    + rewrite bool_decide_eq_false_2 by done. simpl. rewrite decide_False by done.
      rewrite app_nil_r. by destruct (JSMap.get u' m).
  - destruct (decide (group_id st h = u')) as [<-|Hne].
    + rewrite !JSMap_get_middle by done. rewrite bool_decide_eq_true_2 by done.
      rewrite JSMap_get_app. simpl.
      destruct (decide (names_key fd = k')) as [<-|Hnk].
      * rewrite Hk, decide_True by done. by rewrite bool_decide_eq_true_2.
      * rewrite decide_False by done. rewrite bool_decide_eq_false_2 by done.
        rewrite app_nil_r. by destruct (JSMap.get k' inner).
    + rewrite !(JSMap_get_middle_ne (group_id st h) u') by done.
      rewrite bool_decide_eq_false_2 by done. simpl. by rewrite app_nil_r.
  - destruct (decide (group_id st h = u')) as [<-|Hne].
    + rewrite !JSMap_get_middle by done. rewrite bool_decide_eq_true_2 by done.
      simpl. destruct (decide (names_key fd = k')) as [<-|Hnk].
      * rewrite !JSMap_get_middle by done. by rewrite bool_decide_eq_true_2.
      * rewrite !(JSMap_get_middle_ne (names_key fd) k') by done.
        rewrite bool_decide_eq_false_2 by done. by rewrite app_nil_r.
    + rewrite !(JSMap_get_middle_ne (group_id st h) u') by done.
      rewrite bool_decide_eq_false_2 by done. simpl. by rewrite app_nil_r.
Qed.

Lemma export_wf_step st fd m h :
  export_wf m → export_wf (exportAsJSON_hunk st fd m h).
Proof.
  intros [Hnd Hall].
  export_hunk_cases st fd m h.
  - split.
    + rewrite JSMap_keys_app. apply NoDup_app. split_and!; [done| |apply NoDup_singleton].
      intros x Hx ->%list_elem_of_singleton. by apply JSMap_get_None in Hu.
    + apply Forall_app. split; [done|]. apply Forall_singleton.
      split_and!; [apply NoDup_singleton|done|]. by apply Forall_singleton.
  - split.
    + by rewrite JSMap_keys_app in *.
    + apply Forall_app in Hall as [H1 [(Hi & Hne & Hfa) H2]%Forall_cons].
      apply Forall_app. split; [done|]. apply Forall_cons. split; [|done].
      split_and!.
      * rewrite JSMap_keys_app. apply NoDup_app. split_and!; [done| |apply NoDup_singleton].
        intros x Hx ->%list_elem_of_singleton. by apply JSMap_get_None in Hk.
      * by destruct inner.
      * apply Forall_app. split; [done|]. by apply Forall_singleton.
  - split.
    + by rewrite JSMap_keys_app in *.
    + apply Forall_app in Hall as [H1 [(Hi & Hne & Hfa) H2]%Forall_cons].
      apply Forall_app. split; [done|]. apply Forall_cons. split; [|done].
      split_and!.
      * by rewrite JSMap_keys_app in *.
      * by destruct i1.
      * apply Forall_app in Hfa as [F1 [[Hd Hh] F2]%Forall_cons].
        apply Forall_app. split; [done|]. apply Forall_cons. split; [|done].
        split; [done|]. unfold push. simpl. by destruct (hunks d).
Qed.

Lemma flatten_app m1 m2 : flatten (m1 ++ m2) = flatten m1 ++ flatten m2.
Proof. unfold flatten. by rewrite flat_map_app. Qed.

Lemma flatten_cons u inner m :
  flatten ((u, inner) :: m) = flatten [(u, inner)] ++ flatten m.
Proof. unfold flatten. simpl. by rewrite app_nil_r. Qed.

Lemma flatten_inner_app u i1 i2 :
  flatten [(u, i1 ++ i2)] = flatten [(u, i1)] ++ flatten [(u, i2)].
Proof. unfold flatten. simpl. by rewrite !app_nil_r, flat_map_app. Qed.

Lemma flatten_inner_cons u k d i :
  flatten [(u, (k, d) :: i)]
  = map (λ hunk, (u, oldFileName d, newFileName d, hunk)) (hunks d)
    ++ flatten [(u, i)].
Proof. unfold flatten. simpl. by rewrite !app_nil_r. Qed.

Lemma flatten_step st fd m h :
  export_wf m →
  flatten (exportAsJSON_hunk st fd m h)
  ≡ₚ flatten m ++ [(group_id st h, oldFileName fd, newFileName fd, h)].
Proof.
  intros [Hnd Hall].
  export_hunk_cases st fd m h.
  - rewrite flatten_app. done.
  - rewrite !flatten_app, !(flatten_cons _ _ l2), flatten_inner_app.
    rewrite flatten_inner_cons. simpl.
    rewrite <- !app_assoc. apply Permutation_app_head, Permutation_app_head.
    unfold flatten at 1. simpl. apply Permutation_cons_append.
  - apply Forall_app in Hall as [_ [(_ & _ & Hfa) _]%Forall_cons].
    apply Forall_app in Hfa as [_ [[Hd _] _]%Forall_cons].
    apply names_key_inj in Hd as [Hold Hnew].
    rewrite !flatten_app, !(flatten_cons _ _ l2), !flatten_inner_app.
    rewrite !flatten_inner_cons. unfold push. cbn [oldFileName newFileName hunks].
    rewrite map_app. cbn [map]. rewrite Hold, Hnew.
    rewrite <- !app_assoc. do 3 apply Permutation_app_head.
    cbn [app]. rewrite app_assoc. apply Permutation_cons_append.
Qed.

(** What the export map holds after the loops have run over [occ]. *)
Lemma export_fold_spec st occ :
  let m := export_fold st occ [] in
  export_wf m
  ∧ (∀ u k, group_hunks m u k = map snd (List.filter (in_group st u k) occ))
  ∧ flatten m
    ≡ₚ map (λ '(fd, h), (group_id st h, oldFileName fd, newFileName fd, h)) occ.
Proof.
  induction occ as [|[fd h] occ IH] using rev_ind.
  - split_and!; [|done..]. split; [apply NoDup_nil; done | by apply Forall_nil].
  - destruct IH as (Hwf & Hgroups & Hflat). cbv zeta.
    rewrite export_fold_snoc. cbn [fst snd]. split_and!.
    + by apply export_wf_step.
    + intros u k. rewrite group_hunks_step, Hgroups.
      rewrite List.filter_app, map_app. f_equal. simpl. unfold in_group. simpl.
      by destruct (_ && _).
    + rewrite flatten_step by done. rewrite map_app. simpl.
      by apply Permutation_app_tail.
Qed.

Lemma first_seen_snoc {A} `{EqDecision A} (l : list A) (x : A) :
  first_seen (l ++ [x])
  = if bool_decide (x ∈ first_seen l) then first_seen l else first_seen l ++ [x].
Proof. unfold first_seen. by rewrite fold_left_app. Qed.

Lemma export_keys_step st fd m h :
  JSMap.keys (exportAsJSON_hunk st fd m h)
  = if bool_decide (group_id st h ∈ JSMap.keys m) then JSMap.keys m
    else JSMap.keys m ++ [group_id st h].
Proof.
  export_hunk_cases st fd m h.
  - rewrite bool_decide_eq_false_2 by (by apply JSMap_get_None).
    by rewrite JSMap_keys_app.
  - rewrite bool_decide_eq_true_2; [by rewrite !JSMap_keys_app|].
    rewrite JSMap_keys_app. apply elem_of_app. right. apply list_elem_of_here.
  - rewrite bool_decide_eq_true_2; [by rewrite !JSMap_keys_app|].
    rewrite JSMap_keys_app. apply elem_of_app. right. apply list_elem_of_here.
Qed.

Lemma inner_keys_step st fd m h u' :
  inner_keys (exportAsJSON_hunk st fd m h) u'
  = if bool_decide (group_id st h = u')
    then (if bool_decide (names_key fd ∈ inner_keys m u') then inner_keys m u'
          else inner_keys m u' ++ [names_key fd])
    else inner_keys m u'.
Proof.
  unfold inner_keys.
  export_hunk_cases st fd m h.
  - rewrite JSMap_get_app. case_bool_decide as Hg.
    + subst u'. rewrite Hu. cbn [JSMap.get]. rewrite decide_True by done.
      rewrite bool_decide_eq_false_2; [done | apply not_elem_of_nil].
    + cbn [JSMap.get]. rewrite decide_False by done. by destruct (JSMap.get u' m).
  - case_bool_decide as Hg.
    + subst u'. rewrite !JSMap_get_middle by done.
      rewrite bool_decide_eq_false_2 by (by apply JSMap_get_None).
      by rewrite JSMap_keys_app.
    + by rewrite !(JSMap_get_middle_ne (group_id st h) u') by done.
  - case_bool_decide as Hg.
    + subst u'. rewrite !JSMap_get_middle by done.
      rewrite bool_decide_eq_true_2; [by rewrite !JSMap_keys_app|].
      rewrite JSMap_keys_app. apply elem_of_app. right. apply list_elem_of_here.
    + by rewrite !(JSMap_get_middle_ne (group_id st h) u') by done.
Qed.

(** The export map lists the ids in the order their first hunks come in
    the traversal, and each id's synthetic diffs in the order their
    first hunks come. *)
Lemma export_fold_order st occ :
  let m := export_fold st occ [] in
  JSMap.keys m = first_seen (map (λ x, group_id st x.2) occ)
  ∧ ∀ u, inner_keys m u
         = first_seen
             (map (λ x, names_key x.1)
                  (List.filter (λ x, bool_decide (group_id st x.2 = u)) occ)).
Proof.
  induction occ as [|[fd h] occ IH] using rev_ind; [done|].
  destruct IH as [Hkeys Hinner]. cbv zeta.
  rewrite export_fold_snoc. cbn [fst snd]. split.
  - rewrite export_keys_step, map_app. cbn [map snd].
    by rewrite first_seen_snoc, Hkeys.
  - intros u. rewrite inner_keys_step, List.filter_app, map_app, Hinner.
    cbn [List.filter snd]. case_bool_decide.
    + cbn [map fst]. by rewrite first_seen_snoc.
    + by rewrite app_nil_r.
Qed.

(** ** Plain objects *)

Section JSObject_facts.
Context {V : Type}.
Implicit Types (k : string) (v : V) (o : JSObject.t V).

Lemma define_new_get_ne k k' v o :
  k ≠ k' → JSMap.get k' (JSObject.define_new k v o) = JSMap.get k' o.
Proof.
  intros Hne. induction o as [|[k0 v0] o IH]; simpl.
  - by rewrite decide_False by done.
  - destruct (array_index k), (array_index k0); simpl;
      try case_match; simpl; rewrite ?IH; rewrite ?(decide_False (P := k' = k)) by done;
      done.
Qed.

Lemma define_new_get_eq k v o :
  JSMap.get k o = None → JSMap.get k (JSObject.define_new k v o) = Some v.
Proof.
  induction o as [|[k0 v0] o IH]; simpl.
  - by rewrite decide_True.
  - destruct (decide (k = k0)) as [|Hk]; [done|]. intros Ho.
    assert (JSMap.get k ((k, v) :: (k0, v0) :: o) = Some v) as Hhead.
    { simpl. by rewrite decide_True. }
    assert (JSMap.get k ((k0, v0) :: JSObject.define_new k v o) = Some v) as Htail.
    { simpl. rewrite decide_False by done. by apply IH. }
    destruct (array_index k), (array_index k0); try case_match; done.
Qed.

Lemma define_new_perm k v o : JSObject.define_new k v o ≡ₚ (k, v) :: o.
Proof.
  induction o as [|[k0 v0] o IH]; simpl; [done|].
  destruct (array_index k), (array_index k0); try case_match; try done;
    rewrite IH; apply Permutation_swap.
Qed.

Lemma assign_get k k' v o :
  JSObject.get k' (JSObject.assign k v o)
  = if decide (k = "__proto__") then JSObject.get k' o
    else if decide (k = k') then Some v else JSObject.get k' o.
Proof.
  unfold JSObject.assign, JSObject.get. case_decide as Hp; [done|].
  destruct (JSMap.has k o) eqn:Hhas.
  - apply JSMap_get_set.
  - apply JSMap_has_false in Hhas. case_decide as Hk.
    + subst. by apply define_new_get_eq.
    + by apply define_new_get_ne.
Qed.

Lemma assign_keys_NoDup k v o :
  NoDup (JSMap.keys o) → NoDup (JSMap.keys (JSObject.assign k v o)).
Proof.
  intros Hnd. unfold JSObject.assign. case_decide; [done|].
  destruct (JSMap.has k o) eqn:Hhas.
  - by apply JSMap_NoDup_set.
  - apply JSMap_has_false, JSMap_get_None in Hhas.
    unfold JSMap.keys in *. rewrite define_new_perm. simpl.
    by apply NoDup_cons.
Qed.

Lemma assign_all_snoc (kvs : list (string * V)) k v o :
  assign_all (kvs ++ [(k, v)]) o = JSObject.assign k v (assign_all kvs o).
Proof. unfold assign_all. by rewrite fold_left_app. Qed.

Lemma assign_all_keys_NoDup (kvs : list (string * V)) o :
  NoDup (JSMap.keys o) → NoDup (JSMap.keys (assign_all kvs o)).
Proof.
  induction kvs as [|[k v] kvs IH] using rev_ind; [done|].
  intros Hnd. rewrite assign_all_snoc. by apply assign_keys_NoDup, IH.
Qed.

(** The value an object holds for a key after a run of assignments is
    the one assigned last; [__proto__] is never one of its keys. *)
Lemma assign_all_get (kvs : list (string * V)) o k :
  JSObject.get k (assign_all kvs o)
  = if decide (k = "__proto__") then JSObject.get k o
    else match JSMap.get k (rev kvs) with
         | Some v => Some v
         | None => JSObject.get k o
         end.
Proof.
  induction kvs as [|[k0 v0] kvs IH] using rev_ind.
  - simpl. by case_decide.
  - rewrite assign_all_snoc, assign_get, rev_app_distr. simpl.
    rewrite IH. repeat case_decide; simplify_eq; done.
Qed.

Lemma assign_all_perm (kvs : list (string * V)) :
  NoDup (JSMap.keys kvs) → "__proto__" ∉ JSMap.keys kvs →
  assign_all kvs [] ≡ₚ kvs.
Proof.
  induction kvs as [|[k v] kvs IH] using rev_ind; [done|].
  rewrite JSMap_keys_app. intros (Hnd & Hdisj & _)%NoDup_app Hproto.
  apply not_elem_of_app in Hproto as [Hp1 Hp2].
  rewrite assign_all_snoc. unfold JSObject.assign.
  rewrite decide_False.
  2:{ intros ->. apply Hp2. apply list_elem_of_here. }
  assert (JSMap.has k (assign_all kvs []) = false) as ->.
  { apply JSMap_has_false.
    pose proof (assign_all_get kvs [] k) as Hget. unfold JSObject.get in Hget.
    rewrite Hget. case_decide; [done|].
    destruct (JSMap.get k (rev kvs)) as [v'|] eqn:Hk; [|done].
    apply JSMap_get_Some_elem, list_elem_of_In in Hk.
    apply (proj2 (in_rev _ _)), list_elem_of_In in Hk.
    exfalso. apply (Hdisj k); [|apply list_elem_of_here].
    apply list_elem_of_fmap. exists (k, v'). split; [done | exact Hk]. }
  rewrite define_new_perm, IH by done.
  apply Permutation_cons_append.
Qed.

End JSObject_facts.

Lemma exportAsJSON_object_assign_all (st : State) :
  exportAsJSON_object st = assign_all (assignments st (exportAsJSON_map st)) [].
Proof.
  unfold exportAsJSON_object, assign_all, assignments.
  generalize (@nil (string * list ParsedDiff)).
  induction (exportAsJSON_map st) as [|[u inner] m IH]; intros o; simpl; [done|].
  by rewrite IH.
Qed.

(** ** The exported object *)

Lemma JSMap_get_rev_last {K V} `{EqDecision K} (k : K) (v : V) (l : JSMap.t K V) :
  JSMap.get k (rev l) = Some v →
  ∃ a b, l = a ++ (k, v) :: b ∧ JSMap.get k (rev b) = None.
Proof.
  intros (l1 & l2 & Hrev & Hl1 & _)%JSMap_get_split.
  exists (rev l2), (rev l1). split.
  - rewrite <- (rev_involutive l), Hrev, rev_app_distr. simpl.
    by rewrite <- app_assoc.
  - by rewrite rev_involutive.
Qed.

Lemma JSMap_get_rev_None {K V} `{EqDecision K} (k : K) (l : JSMap.t K V) :
  JSMap.get k (rev l) = None ↔ ∀ v, ¬ In (k, v) l.
Proof.
  rewrite JSMap_get_None. unfold JSMap.keys. split.
  - intros Hnot v Hin. apply Hnot. apply list_elem_of_fmap. exists (k, v).
    split; [done|]. by apply list_elem_of_In, (proj1 (in_rev _ _)), Hin.
  - intros Hnot [[k' v] [-> Hin]]%list_elem_of_fmap.
    apply list_elem_of_In, (proj2 (in_rev _ _)) in Hin. by apply (Hnot v).
Qed.

Lemma exportAsJSON_map_spec (st : State) :
  let m := exportAsJSON_map st in
  let occ := traversal (diff st) in
  export_wf m
  ∧ (∀ u k, group_hunks m u k = map snd (List.filter (in_group st u k) occ))
  ∧ flatten m
    ≡ₚ map (λ '(fd, h), (group_id st h, oldFileName fd, newFileName fd, h)) occ.
Proof. cbv zeta. rewrite exportAsJSON_map_fold. apply export_fold_spec. Qed.

Lemma export_wf_entry m u inner :
  export_wf m → In (u, inner) m → JSMap.get u m = Some inner ∧ inner_wf inner.
Proof.
  intros [Hnd Hall] Hin. split.
  - by apply JSMap_elem_get, list_elem_of_In.
  - rewrite Forall_forall in Hall. by apply (Hall (u, inner)), list_elem_of_In.
Qed.

Lemma inner_wf_entry inner k d :
  inner_wf inner → In (k, d) inner →
  JSMap.get k inner = Some d ∧ names_key d = k ∧ hunks d ≠ [].
Proof.
  intros (Hnd & _ & Hall) Hin. split.
  - by apply JSMap_elem_get, list_elem_of_In.
  - rewrite Forall_forall in Hall. by apply (Hall (k, d)), list_elem_of_In.
Qed.

(** A hunk of a synthetic diff of the export map is a hunk of the
    traversal whose group is the entry it stands in. *)
Lemma export_map_hunk st u inner d h :
  In (u, inner) (exportAsJSON_map st) → In d (JSMap.values inner) →
  In h (hunks d) →
  group_id st h = u
  ∧ ∃ fd, In (fd, h) (traversal (diff st))
          ∧ oldFileName fd = oldFileName d ∧ newFileName fd = newFileName d.
Proof.
  intros Hentry Hd Hh.
  destruct (exportAsJSON_map_spec st) as (Hwf & Hgroups & _).
  destruct (export_wf_entry _ _ _ Hwf Hentry) as [Hu Hinner].
  unfold JSMap.values in Hd. apply list_elem_of_In, list_elem_of_fmap in Hd as ([k d'] & -> & Hd).
  apply list_elem_of_In in Hd.
  destruct (inner_wf_entry _ _ _ Hinner Hd) as (Hk & Hkey & _). simpl in *.
  specialize (Hgroups u k). unfold group_hunks in Hgroups.
  rewrite Hu, Hk in Hgroups. rewrite Hgroups in Hh.
  apply in_map_iff in Hh as ([fd h'] & Heq & Hin). simpl in Heq. subst h'.
  apply filter_In in Hin as [Hin Hgroup]. unfold in_group in Hgroup. simpl in Hgroup.
  apply andb_true_iff in Hgroup as [Hg Hn].
  apply bool_decide_eq_true in Hg, Hn. split; [done|].
  exists fd. split; [done|]. rewrite <- Hkey in Hn. by apply names_key_inj in Hn.
Qed.

(** Every hunk of the traversal stands in the export map, in the
    synthetic diff of its id and file names. *)
Lemma export_map_covers st fd h :
  In (fd, h) (traversal (diff st)) →
  ∃ inner d,
    JSMap.get (group_id st h) (exportAsJSON_map st) = Some inner
    ∧ JSMap.get (names_key fd) inner = Some d
    ∧ In h (hunks d).
Proof.
  intros Hin. destruct (exportAsJSON_map_spec st) as (_ & Hgroups & _).
  specialize (Hgroups (group_id st h) (names_key fd)).
  assert (In h (group_hunks (exportAsJSON_map st) (group_id st h) (names_key fd))) as Hh.
  { rewrite Hgroups. apply in_map_iff. exists (fd, h). split; [done|].
    apply filter_In. split; [done|]. unfold in_group. simpl.
    by rewrite !bool_decide_eq_true_2. }
  unfold group_hunks in Hh.
  destruct (JSMap.get (group_id st h) (exportAsJSON_map st)) as [inner|]; [|done].
  destruct (JSMap.get (names_key fd) inner) as [d|] eqn:Hd; [|done].
  by exists inner, d.
Qed.

(** An entry of the exported object is the assignment made last under
    its key. *)
Lemma export_object_entry st key ds :
  In (key, ds) (exportAsJSON_object st) →
  key ≠ "__proto__"
  ∧ ∃ a u inner b,
      exportAsJSON_map st = a ++ (u, inner) :: b
      ∧ label_key st u = key ∧ ds = JSMap.values inner
      ∧ ∀ u' inner', In (u', inner') b → label_key st u' ≠ key.
Proof.
  intros Hin. rewrite exportAsJSON_object_assign_all in Hin.
  assert (JSObject.get key (assign_all (assignments st (exportAsJSON_map st)) [])
          = Some ds) as Hget.
  { apply JSMap_elem_get; [|by apply list_elem_of_In].
    apply assign_all_keys_NoDup, NoDup_nil. done. }
  rewrite assign_all_get in Hget. case_decide as Hproto; [done|].
  split; [done|].
  destruct (JSMap.get key (rev _)) as [v|] eqn:Hlast; [|done]. simplify_eq.
  apply JSMap_get_rev_last in Hlast as (a & b & Heq & Hb).
  unfold assignments in Heq.
  apply map_eq_app in Heq as (a' & rest & Hm & Ha & Hrest).
  apply map_eq_cons in Hrest as ([u inner] & b' & -> & Hx & Hb').
  injection Hx as Hkey Hval.
  exists a', u, inner, b'. split_and!; [done..|].
  intros u' inner' Hin' Hkey'.
  rewrite JSMap_get_rev_None in Hb. apply (Hb (JSMap.values inner')).
  rewrite <- Hb'. apply in_map_iff. exists (u', inner'). split; [|done].
  by rewrite Hkey'.
Qed.

Lemma export_object_get_last st a u inner b :
  exportAsJSON_map st = a ++ (u, inner) :: b →
  label_key st u ≠ "__proto__" →
  (∀ u' inner', In (u', inner') b → label_key st u' ≠ label_key st u) →
  JSObject.get (label_key st u) (exportAsJSON_object st) = Some (JSMap.values inner).
Proof.
  intros Hm Hproto Hlast. rewrite exportAsJSON_object_assign_all, assign_all_get.
  rewrite decide_False by done. rewrite Hm. unfold assignments.
  rewrite map_app, rev_app_distr. cbn [map rev]. rewrite <- app_assoc. cbn [app].
  rewrite JSMap_get_middle; [done|].
  apply JSMap_get_rev_None. intros v ([u' inner'] & Heq & Hin)%in_map_iff.
  injection Heq as Hkey _. by apply (Hlast u' inner').
Qed.

(** ** What [exportAsJSON] writes *)

Lemma in_group_names st u d x :
  in_group st u (names_key d) x
  = bool_decide (group_id st x.2 = u)
    && bool_decide (oldFileName x.1 = oldFileName d)
    && bool_decide (newFileName x.1 = newFileName d).
Proof.
  unfold in_group. rewrite <- andb_assoc. f_equal.
  rewrite <- bool_decide_and. apply bool_decide_ext. split.
  - apply names_key_inj.
  - intros [Ho Hn]. unfold names_key. by rewrite Ho, Hn.
Qed.

Lemma JSON_of_object_get (o : JSObject.t (list ParsedDiff)) (key : string) :
  JSObject.get key (JSON_of_object o) = map JSON_of_diff <$> JSObject.get key o.
Proof.
  unfold JSObject.get, JSON_of_object.
  induction o as [|[k ds] o IH]; [done|]. cbn [map JSMap.get].
  by case_decide.
Qed.

Lemma JSON_of_object_keys (o : JSObject.t (list ParsedDiff)) :
  JSMap.keys (JSON_of_object o) = JSMap.keys o.
Proof.
  unfold JSMap.keys, JSON_of_object.
  induction o as [|[k ds] o IH]; [done|]. cbn [map]. rewrite !fmap_cons.
  by f_equal.
Qed.

Lemma exportAsJSON_map_order (st : State) :
  let m := exportAsJSON_map st in
  let occ := traversal (diff st) in
  JSMap.keys m = first_seen (map (λ x, group_id st x.2) occ)
  ∧ ∀ u, inner_keys m u
         = first_seen
             (map (λ x, names_key x.1)
                  (List.filter (λ x, bool_decide (group_id st x.2 = u)) occ)).
Proof. cbv zeta. rewrite exportAsJSON_map_fold. apply export_fold_order. Qed.

Lemma label_key_cases st u :
  (∀ label, JSMap.get u (labelMap st) = Some label → label ≠ "" →
            label_key st u = label)
  ∧ (JSMap.get u (labelMap st) = None → label_key st u = "undefined")
  ∧ (JSMap.get u (labelMap st) = Some "" → label_key st u = "undefined").
Proof.
  unfold label_key. split_and!.
  - intros label -> Hne. by rewrite decide_False.
  - by intros ->.
  - by intros ->.
Qed.

Lemma export_object_get_unique st u inner :
  In (u, inner) (exportAsJSON_map st) →
  label_key st u ≠ "__proto__" →
  (∀ u', u' ∈ JSMap.keys (exportAsJSON_map st) →
         label_key st u' = label_key st u → u' = u) →
  JSObject.get (label_key st u) (exportAsJSON_object st) = Some (JSMap.values inner).
Proof.
  intros Hin Hproto Huniq.
  destruct (exportAsJSON_map_spec st) as ([Hnd _] & _ & _).
  apply in_split in Hin as (a & b & Hm).
  apply (export_object_get_last st a u inner b Hm Hproto).
  intros u' inner' Hin' Hkey.
  assert (u' = u) as ->.
  { apply Huniq; [|done]. rewrite Hm, JSMap_keys_app.
    apply elem_of_app. right. apply list_elem_of_further.
    apply list_elem_of_fmap. exists (u', inner'). split; [done|].
    by apply list_elem_of_In. }
  rewrite Hm, JSMap_keys_app in Hnd. apply NoDup_app in Hnd as (_ & _ & Hnd).
  unfold JSMap.keys in Hnd. simpl in Hnd. apply NoDup_cons in Hnd as [Hnot _].
  apply Hnot. apply list_elem_of_fmap. exists (u, inner'). split; [done|].
  by apply list_elem_of_In.
Qed.

(** C5, as the code has it.  The loops of [exportAsJSON] file every hunk
    of the diff under the id it is associated with ([NIL] when it has
    none) and under the pair of file names of its file diff: the export
    map has one entry per id and, in it, one synthetic diff per pair of
    names, which carries those names and the hunks of that id and pair in
    traversal order, at least one.  The object then gets, for each id in
    turn, the synthetic diffs of the id under the key [label_key]: the
    label's text when the id has a label with a text that is not empty,
    ["undefined"] when it has no label or a label whose text is empty.
    An assignment to the key [__proto__] stores nothing, and of several
    ids with one key the last one's diffs stay: every entry of the object
    holds the diffs of the last id written under its key, and the last id
    written under a key that is not [__proto__] has exactly its diffs
    under that key; so has an id whose key is its own.  Ids and, for each
    id, pairs of names stand in the order their first hunks come in the
    traversal; the document is the object without the addresses. *)
Theorem exportAsJSON_groups (st : State) :
  let m := exportAsJSON_map st in
  let object := exportAsJSON_object st in
  let occ := traversal (diff st) in
  NoDup (JSMap.keys m)
  ∧ (∀ u inner, In (u, inner) m → NoDup (JSMap.keys inner) ∧ inner ≠ [])
  ∧ (∀ u inner k d,
       In (u, inner) m → In (k, d) inner →
       k = JSON_stringify_names (oldFileName d) (newFileName d)
       ∧ hunks d ≠ []
       ∧ hunks d
         = map snd
             (List.filter
                (λ x, bool_decide (group_id st x.2 = u)
                      && bool_decide (oldFileName x.1 = oldFileName d)
                      && bool_decide (newFileName x.1 = newFileName d))
                occ))
  ∧ (∀ fd h,
       In (fd, h) occ →
       ∃ inner d,
         JSMap.get (group_id st h) m = Some inner
         ∧ JSMap.get (JSON_stringify_names (oldFileName fd) (newFileName fd)) inner
           = Some d
         ∧ oldFileName d = oldFileName fd ∧ newFileName d = newFileName fd
         ∧ In h (hunks d))
  ∧ (∀ h id, hunkMap st !! hunk_loc h = Some id → group_id st h = id)
  ∧ (∀ h, hunkMap st !! hunk_loc h = None → group_id st h = NULL_UUID)
  ∧ NoDup (JSMap.keys object)
  ∧ JSObject.get "__proto__" object = None
  ∧ (∀ key ds,
       In (key, ds) object →
       key ≠ "__proto__"
       ∧ ∃ a u inner b,
           m = a ++ (u, inner) :: b
           ∧ key = label_key st u
           ∧ ds = JSMap.values inner
           ∧ ∀ u' inner', In (u', inner') b → label_key st u' ≠ key)
  ∧ (∀ a u inner b,
       m = a ++ (u, inner) :: b →
       label_key st u ≠ "__proto__" →
       (∀ u' inner', In (u', inner') b → label_key st u' ≠ label_key st u) →
       JSObject.get (label_key st u) object = Some (JSMap.values inner))
  ∧ (∀ u inner,
       In (u, inner) m →
       label_key st u ≠ "__proto__" →
       (∀ u', u' ∈ JSMap.keys m → label_key st u' = label_key st u → u' = u) →
       JSObject.get (label_key st u) object = Some (JSMap.values inner))
  ∧ (∀ u label, JSMap.get u (labelMap st) = Some label → label ≠ "" →
                label_key st u = label)
  ∧ (∀ u, JSMap.get u (labelMap st) = None → label_key st u = "undefined")
  ∧ (∀ u, JSMap.get u (labelMap st) = Some "" → label_key st u = "undefined")
  ∧ JSMap.keys m = first_seen (map (λ x, group_id st x.2) occ)
  ∧ (∀ u inner,
       In (u, inner) m →
       JSMap.keys inner
       = first_seen
           (map (λ x, JSON_stringify_names (oldFileName x.1) (newFileName x.1))
                (List.filter (λ x, bool_decide (group_id st x.2 = u)) occ)))
  ∧ JSMap.keys (exportAsJSON st) = JSMap.keys object
  ∧ (∀ key, JSObject.get key (exportAsJSON st)
            = map JSON_of_diff <$> JSObject.get key object).
Proof.
  intros m object occ.
  destruct (exportAsJSON_map_spec st) as (Hwf & Hgroups & _). fold m occ in Hwf, Hgroups.
  split_and!.
  - apply Hwf.
  - intros u inner Hin.
    destruct (export_wf_entry _ _ _ Hwf Hin) as [_ (Hnd & Hne & _)]. done.
  - intros u inner k d Hin Hd.
    destruct (export_wf_entry _ _ _ Hwf Hin) as [Hu Hinner].
    destruct (inner_wf_entry _ _ _ Hinner Hd) as (Hk & Hkey & Hne).
    split_and!; [done..|].
    specialize (Hgroups u k). unfold group_hunks in Hgroups.
    rewrite Hu, Hk in Hgroups. rewrite Hgroups. f_equal.
    apply filter_ext. intros x. rewrite <- Hkey. apply in_group_names.
  - intros fd h Hin.
    destruct (export_map_covers st fd h Hin) as (inner & d & Hu & Hd & Hh).
    exists inner, d. split_and!; try done.
    + destruct (export_wf_entry m (group_id st h) inner Hwf) as [_ Hinner].
      { apply list_elem_of_In. by apply JSMap_get_Some_elem. }
      destruct (inner_wf_entry inner (names_key fd) d Hinner) as (_ & Hkey & _).
      { apply list_elem_of_In. by apply JSMap_get_Some_elem. }
      by apply names_key_inj in Hkey as [? ?].
    + destruct (export_wf_entry m (group_id st h) inner Hwf) as [_ Hinner].
      { apply list_elem_of_In. by apply JSMap_get_Some_elem. }
      destruct (inner_wf_entry inner (names_key fd) d Hinner) as (_ & Hkey & _).
      { apply list_elem_of_In. by apply JSMap_get_Some_elem. }
      by apply names_key_inj in Hkey as [? ?].
  - intros h id Hh. unfold group_id. by rewrite Hh.
  - intros h Hh. unfold group_id. by rewrite Hh.
  - subst object. rewrite exportAsJSON_object_assign_all.
    apply assign_all_keys_NoDup, NoDup_nil. done.
  - subst object. rewrite exportAsJSON_object_assign_all, assign_all_get.
    by rewrite decide_True.
  - intros key ds Hin.
    destruct (export_object_entry st key ds Hin)
      as (Hproto & a & u & inner & b & Hm & Hkey & Hds & Hlast).
    split; [done|]. by exists a, u, inner, b.
  - intros a u inner b Hm. by apply (export_object_get_last st a u inner b).
  - apply export_object_get_unique.
  - intros u. apply label_key_cases.
  - intros u. apply label_key_cases.
  - intros u. apply label_key_cases.
  - apply exportAsJSON_map_order.
  - intros u inner Hin.
    destruct (export_wf_entry _ _ _ Hwf Hin) as [Hu _].
    destruct (exportAsJSON_map_order st) as [_ Hinner]. specialize (Hinner u).
    unfold inner_keys in Hinner. fold m in Hinner. by rewrite Hu in Hinner.
  - apply JSON_of_object_keys.
  - intros key. apply JSON_of_object_get.
Qed.

(** C5 as stated fails: label 1 has the empty text (after
    [changeLabel 1 ""]) and a hunk; the document has no key [""], the
    label's current text, and files the hunk under ["undefined"]. *)
Lemma export_key_of_empty_label :
  let hunk := mkHunk 0 (mkHunkFields 1 1 1 1 ["+x"]) in
  let st0 := mkState [mkParsedDiff "a" "b" [hunk]] "" [(1%N, "bugfix")]
                     {[0 := 1%N]} ∅ 2%N 1 in
  let st := exec (changeLabel 1%N "") st0 in
  JSMap.get 1%N (labelMap st) = Some ""
  ∧ hunkMap st !! hunk_loc hunk = Some 1%N
  ∧ JSObject.get "" (exportAsJSON st) = None
  ∧ JSObject.get "undefined" (exportAsJSON st)
    = Some [mkParsedDiff "a" "b" [hunk_fields hunk]].
Proof. split_and!; vm_compute; reflexivity. Qed.

(** No hunk of a group that was written before another group with the
    same key is in the exported object. *)
Lemma overwritten_group_absent st a u inner b key ds d h :
  exportAsJSON_map st = a ++ (u, inner) :: b →
  (∃ u', u' ∈ JSMap.keys b ∧ label_key st u' = label_key st u) →
  In (key, ds) (exportAsJSON_object st) → In d ds → In h (hunks d) →
  group_id st h ≠ u.
Proof.
  intros Hm (u' & Hu' & Hsame) Hentry Hd Hh Hgroup.
  destruct (exportAsJSON_map_spec st) as ([Hnd _] & _ & _).
  destruct (export_object_entry st key ds Hentry)
    as (_ & a2 & u2 & inner2 & b2 & Hm2 & Hkey & -> & Hlast).
  assert (In (u2, inner2) (exportAsJSON_map st)) as Hin2.
  { rewrite Hm2. apply in_or_app. right. by left. }
  destruct (export_map_hunk st u2 inner2 d h Hin2 Hd Hh) as [Hg2 _].
  assert (u2 = u) as -> by congruence.
  (* the two splits of the map at [u] are the same split *)
  assert (b2 = b) as ->.
  { rewrite Hm in Hm2. clear -Hm2 Hnd Hm. rewrite Hm in Hnd. clear Hm.
    revert a2 Hm2. induction a as [|[k0 v0] a IH]; intros [|[k2 v2] a2] Heq;
      simpl in *.
    - by simplify_eq.
    - simplify_eq. unfold JSMap.keys in Hnd. simpl in Hnd.
      apply NoDup_cons in Hnd as [Hnot _]. exfalso. apply Hnot.
      rewrite fmap_app. apply elem_of_app. right. apply list_elem_of_here.
    - simplify_eq. unfold JSMap.keys in Hnd. simpl in Hnd.
      apply NoDup_cons in Hnd as [Hnot _]. exfalso. apply Hnot.
      rewrite fmap_app. apply elem_of_app. right. apply list_elem_of_here.
    - injection Heq as -> -> Heq. apply (IH ltac:(
        unfold JSMap.keys in *; simpl in Hnd; by apply NoDup_cons in Hnd as [_ ?])
        a2 Heq). }
  apply list_elem_of_fmap in Hu' as ([u'' inner'] & -> & Hin').
  apply (Hlast u'' inner'); [by apply list_elem_of_In|]. simpl in Hsame. congruence.
Qed.




Lemma addLabel_empty (st : State) :
  newLabel st = "" → addLabel st = (Normal tt, st).
Proof. unfold addLabel. by intros ->. Qed.

(** C10, as the code has it.  [addLabel] does nothing while the text
    box is empty, and [changeLabel] stores the empty text as it stores
    any other.  For a label [L] whose text is empty the key
    [exportAsJSON] writes under is ["undefined"], the key of the hunks
    with no association: a hunk associated to [L] that is in the
    exported object stands under ["undefined"], and so does a hunk with
    no association.  When no other id in use has that key the entry
    ["undefined"] holds the synthetic diffs of [L]; when an id written
    after [L] has it, no hunk of [L] is in the exported object. *)
Theorem empty_label_exports_as_undefined (st : State) (L : UUID) :
  JSMap.get L (labelMap st) = Some "" →
  let m := exportAsJSON_map st in
  let object := exportAsJSON_object st in
  label_key st L = "undefined"
  ∧ (∀ key ds d h,
       In (key, ds) object → In d ds → In h (hunks d) →
       hunkMap st !! hunk_loc h = Some L → key = "undefined")
  ∧ (∀ key ds d h,
       In (key, ds) object → In d ds → In h (hunks d) →
       hunkMap st !! hunk_loc h = None →
       JSMap.get NULL_UUID (labelMap st) = None → key = "undefined")
  ∧ (∀ inner,
       In (L, inner) m →
       (∀ u, u ∈ JSMap.keys m → label_key st u = "undefined" → u = L) →
       JSObject.get "undefined" object = Some (JSMap.values inner)
       ∧ JSObject.get "undefined" (exportAsJSON st)
         = Some (map JSON_of_diff (JSMap.values inner)))
  ∧ (∀ a inner b,
       m = a ++ (L, inner) :: b →
       (∃ u, u ∈ JSMap.keys b ∧ label_key st u = "undefined") →
       ∀ key ds d h,
         In (key, ds) object → In d ds → In h (hunks d) →
         hunkMap st !! hunk_loc h ≠ Some L)
  ∧ (∀ st0 id, JSMap.get id (labelMap (exec (changeLabel id "") st0)) = Some "")
  ∧ (∀ st0, newLabel st0 = "" → addLabel st0 = (Normal tt, st0)).
Proof.
  intros HL m object.
  assert (Hkey : label_key st L = "undefined").
  { unfold label_key. by rewrite HL. }
  assert (Hstands : ∀ key ds d h,
            In (key, ds) object → In d ds → In h (hunks d) →
            key = label_key st (group_id st h)).
  { intros key ds d h Hentry Hd Hh.
    destruct (export_object_entry st key ds Hentry)
      as (_ & a & u & inner & b & Hm & <- & -> & _).
    assert (In (u, inner) (exportAsJSON_map st)) as Hin.
    { rewrite Hm. apply in_or_app. right. by left. }
    by destruct (export_map_hunk st u inner d h Hin Hd Hh) as [-> _]. }
  split_and!.
  - done.
  - intros key ds d h Hentry Hd Hh Hassoc.
    rewrite (Hstands key ds d h Hentry Hd Hh). unfold group_id.
    by rewrite Hassoc.
  - intros key ds d h Hentry Hd Hh Hassoc Hnil.
    rewrite (Hstands key ds d h Hentry Hd Hh). unfold group_id.
    rewrite Hassoc. simpl. unfold label_key. by rewrite Hnil.
  - intros inner Hin Huniq.
    assert (JSObject.get "undefined" object = Some (JSMap.values inner)) as Hget.
    { rewrite <- Hkey. apply export_object_get_unique; [done| |].
      - by rewrite Hkey.
      - intros u' Hu' Hsame. apply Huniq; [done|]. by rewrite Hsame. }
    split; [done|]. unfold exportAsJSON. rewrite JSON_of_object_get.
    fold object. by rewrite Hget.
  - intros a inner b Hm (u & Hu & Hsame) key ds d h Hentry Hd Hh Hassoc.
    apply (overwritten_group_absent st a L inner b key ds d h Hm); try done.
    + exists u. split; [done|]. by rewrite Hkey.
    + unfold group_id. by rewrite Hassoc.
  - intros st0 id. apply JSMap_get_set_eq.
  - apply addLabel_empty.
Qed.

Lemma empty_label_exports_as_undefined_witness :
  let hunk := mkHunk 0 (mkHunkFields 1 1 1 1 ["+x"]) in
  let st0 := mkState [mkParsedDiff "a" "b" [hunk]] "" [(1%N, "bugfix")]
                     {[0 := 1%N]} ∅ 2%N 1 in
  let st := exec (changeLabel 1%N "") st0 in
  label_key st 1%N = "undefined"
  ∧ JSObject.get "undefined" (exportAsJSON_object st)
    = Some [mkParsedDiff "a" "b" [hunk]].
Proof.
  intros hunk st0 st.
  pose proof (empty_label_exports_as_undefined st 1%N eq_refl) as H.
  cbv zeta in H. destruct H as (Hkey & _ & _ & Hentry & _).
  split; [exact Hkey|].
  apply (Hentry [(JSON_stringify_names "a" "b", mkParsedDiff "a" "b" [hunk])]).
  - left. reflexivity.
  - intros u Hu _. apply list_elem_of_singleton in Hu. exact Hu.
Defined.

(** C10 as stated fails: label 1 has the empty text and hunk 0, hunk 1
    has no association.  Both groups are written under ["undefined"],
    the second over the first: the exported object holds hunk 1 only,
    and the hunk of the label is not exported. *)
Lemma empty_label_overwritten :
  let h0 := mkHunk 0 (mkHunkFields 1 1 1 1 ["+x"]) in
  let h1 := mkHunk 1 (mkHunkFields 9 1 9 1 ["-y"]) in
  let st0 := mkState [mkParsedDiff "a" "b" [h0; h1]] "" [(1%N, "bugfix")]
                     {[0 := 1%N]} ∅ 2%N 2 in
  let st := exec (changeLabel 1%N "") st0 in
  JSMap.get 1%N (labelMap st) = Some ""
  ∧ hunkMap st !! hunk_loc h0 = Some 1%N
  ∧ exportAsJSON_object st = [("undefined", [mkParsedDiff "a" "b" [h1]])]
  ∧ exportAsJSON st = [("undefined", [mkParsedDiff "a" "b" [hunk_fields h1]])].
Proof. split_and!; vm_compute; reflexivity. Qed.

(** ** Export, then import *)

Lemma traversal_app d1 d2 : traversal (d1 ++ d2) = traversal d1 ++ traversal d2.
Proof. unfold traversal. by rewrite flat_map_app. Qed.

Lemma traversal_flat_map (data : JSObject.t (list ParsedDiff)) :
  traversal (flat_map snd data) = flat_map (λ e, traversal e.2) data.
Proof.
  induction data as [|[k ds] data IH]; simpl; [done|].
  by rewrite traversal_app, IH.
Qed.

Lemma entry_view_alloc k base dsJ :
  entry_view (k, alloc_diffs base dsJ) = json_entry_view (k, dsJ).
Proof.
  unfold entry_view, json_entry_view, traversal. simpl.
  revert base. induction dsJ as [|d dsJ IH]; intros base; simpl; [done|].
  rewrite map_app, IH. f_equal.
  rewrite map_map. simpl.
  rewrite <- (JSON_of_alloc_hunks base (hunks d)) at 2. by rewrite map_map.
Qed.

Lemma entry_view_alloc_entries base doc :
  flat_map entry_view (alloc_entries base doc) = flat_map json_entry_view doc.
Proof.
  revert base. induction doc as [|[k dsJ] doc IH]; intros base; simpl; [done|].
  by rewrite IH, entry_view_alloc.
Qed.

Lemma json_entry_view_of_diffs k ds :
  json_entry_view (k, map JSON_of_diff ds) = entry_view (k, ds).
Proof.
  unfold entry_view, json_entry_view, traversal. simpl.
  induction ds as [|d ds IH]; simpl; [done|].
  rewrite map_app, IH. f_equal. by rewrite !map_map.
Qed.

Lemma json_entry_view_of_object o :
  flat_map json_entry_view (JSON_of_object o) = flat_map entry_view o.
Proof.
  unfold JSON_of_object. induction o as [|[k ds] o IH]; simpl; [done|].
  by rewrite IH, json_entry_view_of_diffs.
Qed.

Lemma entry_view_values st u inner :
  entry_view (label_key st u, JSMap.values inner)
  = map (λ '(u, o, n, h), (o, n, hunk_fields h, Some (label_key st u)))
        (flatten [(u, inner)]).
Proof.
  unfold entry_view. cbn [fst snd].
  induction inner as [|[k d] inner IHi]; [done|].
  rewrite flatten_inner_cons, map_app, <- IHi.
  change (JSMap.values ((k, d) :: inner)) with (d :: JSMap.values inner).
  change (traversal (d :: JSMap.values inner))
    with (map (pair d) (hunks d) ++ traversal (JSMap.values inner)).
  rewrite map_app. f_equal. by rewrite !map_map.
Qed.

Lemma entry_view_assignments st m :
  flat_map entry_view (assignments st m)
  = map (λ '(u, o, n, h), (o, n, hunk_fields h, Some (label_key st u))) (flatten m).
Proof.
  induction m as [|[u inner] m IH]; [done|].
  rewrite flatten_cons, map_app, <- IH, <- entry_view_values. done.
Qed.

Lemma export_map_key_used st u :
  u ∈ JSMap.keys (exportAsJSON_map st) →
  ∃ fd h, In (fd, h) (traversal (diff st)) ∧ group_id st h = u.
Proof.
  intros ([u' inner] & -> & Hin)%list_elem_of_fmap. simpl.
  apply list_elem_of_In in Hin.
  destruct (exportAsJSON_map_spec st) as (Hwf & _ & _).
  destruct (export_wf_entry _ _ _ Hwf Hin) as [_ (Hnd & Hne & Hall)].
  destruct inner as [|[k d] inner]; [done|].
  apply Forall_cons in Hall as [[_ Hd] _].
  destruct (hunks d) as [|h hs] eqn:Hhs; [done|].
  destruct (export_map_hunk st u' ((k, d) :: inner) d h Hin) as (Hg & fd & Hocc & _).
  - unfold JSMap.values. simpl. by left.
  - rewrite Hhs. by left.
  - by exists fd, h.
Qed.

Lemma assignments_keys st m :
  JSMap.keys (assignments st m) = label_key st <$> JSMap.keys m.
Proof.
  unfold JSMap.keys, assignments.
  induction m as [|[u inner] m IH]; [done|].
  cbn [map]. rewrite !fmap_cons. by f_equal.
Qed.

(** With one key per id in use, and no key [__proto__], the exported
    object holds the assignments of [exportAsJSON], all of them. *)
Lemma export_object_perm st :
  (∀ fd1 h1 fd2 h2,
     In (fd1, h1) (traversal (diff st)) → In (fd2, h2) (traversal (diff st)) →
     export_key st h1 = export_key st h2 → group_id st h1 = group_id st h2) →
  (∀ fd h, In (fd, h) (traversal (diff st)) → export_key st h ≠ "__proto__") →
  exportAsJSON_object st ≡ₚ assignments st (exportAsJSON_map st).
Proof.
  intros Hinj Hproto. rewrite exportAsJSON_object_assign_all.
  destruct (exportAsJSON_map_spec st) as ([Hnd _] & _ & _).
  apply assign_all_perm; rewrite assignments_keys.
  - apply NoDup_fmap_2_strong; [|done].
    intros u1 u2 (fd1 & h1 & Hocc1 & <-)%export_map_key_used
                 (fd2 & h2 & Hocc2 & <-)%export_map_key_used Hkey.
    by apply (Hinj fd1 h1 fd2 h2).
  - intros (u & Hkey & (fd & h & Hocc & <-)%export_map_key_used)%list_elem_of_fmap.
    by apply (Hproto fd h Hocc).
Qed.

Lemma flat_map_ext_In {A B} (f g : A → list B) (l : list A) :
  (∀ a, In a l → f a = g a) → flat_map f l = flat_map g l.
Proof.
  induction l as [|x l IH]; intros Hfg; simpl; [done|].
  rewrite (Hfg x) by (by left). rewrite IH; [done|].
  intros a Ha. apply Hfg. by right.
Qed.

Lemma map_flat_map {A B C} (g : B → C) (f : A → list B) (l : list A) :
  map g (flat_map f l) = flat_map (λ a, map g (f a)) l.
Proof.
  induction l as [|x l IH]; simpl; [done|]. by rewrite map_app, IH.
Qed.

Lemma import_labels_texts base data :
  JSMap.values (import_labels base data) = JSMap.keys data.
Proof.
  unfold JSMap.values, JSMap.keys.
  revert base. induction data as [|[k ds] data IH]; intros base; [done|].
  cbn [import_labels]. rewrite !fmap_cons. f_equal. apply IH.
Qed.

Lemma alloc_entries_keys base doc :
  JSMap.keys (alloc_entries base doc) = JSMap.keys doc.
Proof.
  unfold JSMap.keys.
  revert base. induction doc as [|[k ds] doc IH]; intros base; [done|].
  cbn [alloc_entries]. rewrite !fmap_cons. f_equal. apply IH.
Qed.

(** After [importDocument] the hunks are those of the document, with its
    file names and fields, each with the label text of the key it stood
    under, and the labels are the keys of the document. *)
Lemma importDocument_snapshot doc st0 :
  let st' := exec (importDocument doc) st0 in
  throws (importDocument doc) st0 = false
  ∧ snapshot st' (label_text st') = flat_map json_entry_view doc
  ∧ JSMap.values (labelMap st') = JSMap.keys doc
  ∧ labelFilter st' = labelFilter st0.
Proof.
  cbv zeta. unfold throws, exec.
  destruct (importDocument_run doc st0) as (hm & -> & _ & Htext & _).
  cbn [fst snd]. split_and!; [done| | |done].
  - unfold snapshot. cbn [diff]. rewrite traversal_flat_map, map_flat_map.
    rewrite <- entry_view_alloc_entries with (base := next_loc st0).
    apply flat_map_ext_In. intros [label pds] Hentry. unfold entry_view.
    apply map_ext_in. intros [fd h] Hh. cbn [fst snd] in *. f_equal.
    destruct (Htext label pds fd h Hentry Hh) as (id & Hid & Hlabel).
    unfold label_text. cbn [hunkMap labelMap]. by rewrite Hid.
  - cbn [labelMap]. by rewrite import_labels_texts, alloc_entries_keys.
Qed.

(** C1, as the code has it.  Let the ids in use, [NIL] for the hunks
    with no association, have pairwise different export keys, none of
    them [__proto__].  Then importing the exported document gives a
    state whose hunks are those of the original, up to order, each with
    the file names and the fields it had and associated to a label whose
    text is the key it was exported under: the text of its label, or
    ["undefined"] when it had no label or a label with the empty text.
    If every hunk had a label with a text that is not empty, every hunk
    has the label text it had.  The new labels are the keys of the
    document; ids and addresses are new. *)
Theorem import_export_round_trip (st st0 : State) :
  (∀ fd1 h1 fd2 h2,
     In (fd1, h1) (traversal (diff st)) → In (fd2, h2) (traversal (diff st)) →
     export_key st h1 = export_key st h2 → group_id st h1 = group_id st h2) →
  (∀ fd h, In (fd, h) (traversal (diff st)) → export_key st h ≠ "__proto__") →
  let st' := exec (importDocument (exportAsJSON st)) st0 in
  throws (importDocument (exportAsJSON st)) st0 = false
  ∧ snapshot st (λ h, Some (export_key st h)) ≡ₚ snapshot st' (label_text st')
  ∧ ((∀ fd h, In (fd, h) (traversal (diff st)) →
              ∃ label, label_text st h = Some label ∧ label ≠ "") →
     snapshot st (label_text st) ≡ₚ snapshot st' (label_text st'))
  ∧ JSMap.values (labelMap st') = JSMap.keys (exportAsJSON st)
  ∧ labelFilter st' = labelFilter st0.
Proof.
  intros Hinj Hproto st'.
  destruct (importDocument_snapshot (exportAsJSON st) st0)
    as (Hthrows & Hsnap & Hlabels & Hfilter).
  fold st' in Hsnap, Hlabels, Hfilter.
  assert (Hperm : snapshot st (λ h, Some (export_key st h))
                  ≡ₚ snapshot st' (label_text st')).
  { rewrite Hsnap. unfold exportAsJSON. rewrite json_entry_view_of_object.
    rewrite (Permutation_flat_map entry_view (export_object_perm st Hinj Hproto)).
    rewrite entry_view_assignments.
    destruct (exportAsJSON_map_spec st) as (_ & _ & Hflat).
    rewrite (Permutation_map _ Hflat). rewrite map_map. unfold snapshot.
    apply Permutation_refl'. apply map_ext. by intros [fd h]. }
  split_and!; [done|done| |done|done].
  intros Hlabelled. rewrite <- Hperm. apply Permutation_refl'.
  unfold snapshot. apply map_ext_in. intros [fd h] Hocc. f_equal.
  destruct (Hlabelled fd h Hocc) as (label & Hlabel & Hne). rewrite Hlabel.
  unfold label_text in Hlabel. unfold export_key, group_id, label_key.
  destruct (hunkMap st !! hunk_loc h) as [id|]; [|done]. simpl.
  rewrite Hlabel. by rewrite decide_False.
Qed.

Lemma import_export_round_trip_witness :
  let a1 := mkHunk 0 (mkHunkFields 1 2 1 3 [" ctx"; "+new"]) in
  let a2 := mkHunk 1 (mkHunkFields 10 1 11 0 ["-old"]) in
  let b1 := mkHunk 2 (mkHunkFields 5 1 5 1 ["-x"; "+y"]) in
  let st := mkState [mkParsedDiff "a/A" "b/A" [a1; a2]; mkParsedDiff "a/B" "b/B" [b1]]
                    "" [(1%N, "bugfix")] {[0 := 1%N; 2 := 1%N]} ∅ 2%N 3 in
  let st' := exec (importDocument (exportAsJSON st)) st in
  snapshot st (λ h, Some (export_key st h)) ≡ₚ snapshot st' (label_text st').
Proof.
  intros a1 a2 b1 st st'.
  assert (Hinj : ∀ fd1 h1 fd2 h2,
            In (fd1, h1) (traversal (diff st)) → In (fd2, h2) (traversal (diff st)) →
            export_key st h1 = export_key st h2 → group_id st h1 = group_id st h2).
  { intros fd1 h1 fd2 h2 H1 H2.
    simpl in H1, H2.
    destruct H1 as [H1|[H1|[H1|[]]]]; destruct H2 as [H2|[H2|[H2|[]]]];
      injection H1 as <- <-; injection H2 as <- <-;
      vm_compute; intros ?; first [reflexivity | discriminate]. }
  assert (Hproto : ∀ fd h, In (fd, h) (traversal (diff st)) →
                           export_key st h ≠ "__proto__").
  { intros fd h H. simpl in H.
    destruct H as [H|[H|[H|[]]]]; injection H as <- <-; vm_compute; discriminate. }
  pose proof (import_export_round_trip st st Hinj Hproto) as H.
  cbv zeta in H. destruct H as (_ & Hperm & _). exact Hperm.
Defined.

(** C1 as stated fails: labels 1 and 2 both have the text "dup", hunk 0
    is associated to label 1 and hunk 1 to label 2.  The document holds
    the key "dup" once, with the diff of label 2; the import gives a
    state with one hunk, and the hunk of label 1 is gone. *)
Lemma import_export_loses_duplicate_text :
  let h0 := mkHunk 0 (mkHunkFields 1 1 1 1 ["+x"]) in
  let h1 := mkHunk 1 (mkHunkFields 9 1 9 1 ["-y"]) in
  let st := mkState [mkParsedDiff "a" "b" [h0; h1]] ""
                    [(1%N, "dup"); (2%N, "dup")]
                    {[0 := 1%N; 1 := 2%N]} ∅ 3%N 2 in
  let st' := exec (importDocument (exportAsJSON st)) st in
  snapshot st (label_text st)
  = [("a", "b", hunk_fields h0, Some "dup"); ("a", "b", hunk_fields h1, Some "dup")]
  ∧ snapshot st' (label_text st') = [("a", "b", hunk_fields h1, Some "dup")]
  ∧ ¬ (snapshot st (label_text st) ≡ₚ snapshot st' (label_text st')).
Proof.
  intros h0 h1 st st'. split_and!; [vm_compute; reflexivity..|].
  intros Hperm. apply Permutation_length in Hperm.
  vm_compute in Hperm. discriminate.
Qed.

(** ** The scenario of section 8 of the specification

    Two files, two hunks in the first and one in the second; the label
    "bugfix" is created and given to the first hunk of each file. *)
Example bugfix_scenario :
  let a1 := mkHunkFields 1 2 1 3 [" ctx"; "+new"] in
  let a2 := mkHunkFields 10 1 11 0 ["-old"] in
  let b1 := mkHunkFields 5 1 5 1 ["-x"; "+y"] in
  let parsePatch := λ _ : string,
    Some [mkParsedDiff "a/A" "b/A" [a1; a2]; mkParsedDiff "a/B" "b/B" [b1]] in
  let st :=
    exec ((d <- diff_callback parsePatch (λ _, None) (mkRawData false "diff") ;;
           set_diff d) ;;;
          (λ st, (Normal tt, with_newLabel "bugfix" st)) ;;;
          addLabel ;;;
          onHunkLabelChange (mkHunk 0 a1) (Some 1%N) ;;;
          onHunkLabelChange (mkHunk 2 b1) (Some 1%N))
         initial in
  labelMap st = [(1%N, "bugfix")]
  ∧ exportAsJSON st
    = [("bugfix", [mkParsedDiff "a/A" "b/A" [a1]; mkParsedDiff "a/B" "b/B" [b1]]);
       ("undefined", [mkParsedDiff "a/A" "b/A" [a2]])]
  ∧ changesCount st = 3%Z
  ∧ uncategorizedCount st = 1%Z.
Proof. split_and!; vm_compute; reflexivity. Qed.

(** ** Further properties of the stores and of the importer *)

Lemma JSMap_remove_absent {K V} `{EqDecision K} (k : K) (m : JSMap.t K V) :
  JSMap.get k m = None → JSMap.remove k m = m.
Proof.
  induction m as [|[k0 v0] m IH]; simpl; [done|].
  case_decide; [done|]. intros Hm. by rewrite IH.
Qed.

(** Removing what is not there changes nothing: [remove(h)] on a hunk
    with no association and [delete(id)] on an id that is not in the
    Label Store leave the state as it is and throw nothing; the render
    after such a deletion leaves the Label Store alone as well. *)
Theorem remove_absent_is_noop (st : State) (hunk : Hunk) (id : UUID) :
  (hunkMap st !! hunk_loc hunk = None →
   onHunkLabelChange hunk None st = (Normal tt, st))
  ∧ (JSMap.get id (labelMap st) = None →
     removeLabel id st = (Normal tt, st)
     ∧ throws (delete_label id) st = false
     ∧ labelMap (exec (delete_label id) st) = labelMap st
     ∧ labelFilter (exec (delete_label id) st) = labelFilter st).
Proof.
  split.
  - intros Hnone. unfold onHunkLabelChange, hunkMapActions_remove.
    rewrite delete_id by done. by destruct st.
  - intros Hnone. unfold throws, exec.
    destruct (delete_label_run id st) as (hm & -> & _).
    unfold removeLabel, labelMapActions_remove.
    rewrite JSMap_remove_absent by done. split_and!; try done. by destruct st.
Qed.

Lemma JSON_of_alloc_entries base doc :
  map JSON_of_diff (flat_map snd (alloc_entries base doc)) = flat_map snd doc.
Proof.
  revert base. induction doc as [|[k ds] doc IH]; intros base; [done|].
  cbn [alloc_entries flat_map snd]. by rewrite map_app, JSON_of_alloc_diffs, IH.
Qed.

Lemma import_labels_ids base data :
  JSMap.keys (import_labels base data)
  = map (λ i, (base + N.of_nat i)%N) (seq 0 (length data)).
Proof.
  unfold JSMap.keys. revert base.
  induction data as [|[k ds] data IH]; intros base; [done|].
  cbn [import_labels length seq map]. rewrite fmap_cons, IH. cbn [fst].
  f_equal; [f_equal; lia|].
  rewrite <- seq_shift, map_map. apply map_ext. intros i. lia.
Qed.

(** Importing a document never throws.  It creates one label per key of
    the document, in the order of the keys, with the ids
    [generateUUID] gives next; the diff becomes the file diffs of the
    document under all keys, in order, as new objects; every hunk is
    associated to the label of the key it stands under; the filter is
    the one before. *)
Theorem importDocument_state (doc : Document) (st0 : State) :
  let st' := exec (importDocument doc) st0 in
  throws (importDocument doc) st0 = false
  ∧ JSMap.values (labelMap st') = JSMap.keys doc
  ∧ JSMap.keys (labelMap st')
    = map (λ i, (next_uuid st0 + N.of_nat i)%N) (seq 0 (length doc))
  ∧ map JSON_of_diff (diff st') = flat_map snd doc
  ∧ hunk_locs (diff st') = seq (next_loc st0) (count_entries doc)
  ∧ snapshot st' (label_text st') = flat_map json_entry_view doc
  ∧ labelFilter st' = labelFilter st0.
Proof.
  cbv zeta.
  destruct (importDocument_snapshot doc st0) as (Hthrows & Hsnap & Hlabels & Hfilter).
  split_and!; try done.
  - unfold exec. destruct (importDocument_run doc st0) as (hm & -> & _).
    cbn [snd labelMap]. by rewrite import_labels_ids, alloc_entries_length.
  - unfold exec. destruct (importDocument_run doc st0) as (hm & -> & _).
    cbn [snd diff]. apply JSON_of_alloc_entries.
  - unfold exec. destruct (importDocument_run doc st0) as (hm & -> & _).
    cbn [snd diff]. apply alloc_entries_locs.
Qed.

Lemma first_seen_const {A} `{EqDecision A} (c : A) (l : list A) :
  l ≠ [] → (∀ x, In x l → x = c) → first_seen l = [c].
Proof.
  induction l as [|x l IH] using rev_ind; [done|]. intros _ Hall.
  assert (x = c) as -> by (apply Hall, in_or_app; right; by left).
  rewrite first_seen_snoc. destruct l as [|y l]; [done|].
  rewrite IH; [|done|].
  - rewrite bool_decide_eq_true_2; [done | apply list_elem_of_here].
  - intros z Hz. apply Hall, in_or_app. by left.
Qed.

Lemma assign_first {V} (k : string) (v : V) :
  k ≠ "__proto__" → JSObject.assign k v [] = [(k, v)].
Proof. intros Hk. unfold JSObject.assign. by rewrite decide_False. Qed.

(** A diff that was just loaded has no association.  If it has no hunk
    either, the exported document is the empty object, with no key at
    all; otherwise its one key is ["undefined"], and the synthetic diffs
    under it hold the hunks of the diff, each with its file names, the
    synthetic diffs having pairwise different file names and at least
    one hunk each. *)
Theorem export_without_associations (st : State) :
  hunkMap st = ∅ →
  JSMap.get NULL_UUID (labelMap st) = None →
  (traversal (diff st) = [] → exportAsJSON st = [])
  ∧ (traversal (diff st) ≠ [] →
     ∃ ds,
       exportAsJSON_object st = [("undefined", ds)]
       ∧ exportAsJSON st = [("undefined", map JSON_of_diff ds)]
       ∧ entry_view ("undefined", ds) ≡ₚ snapshot st (λ _, Some "undefined")
       ∧ Forall (λ d, hunks d ≠ []) ds
       ∧ NoDup (map names_key ds)).
Proof.
  intros Hempty Hnil.
  destruct (exportAsJSON_map_spec st) as (Hwf & _ & Hflat).
  destruct (exportAsJSON_map_order st) as [Hkeys _].
  assert (Hgid : ∀ x, In x (map (λ x, group_id st x.2) (traversal (diff st))) →
                      x = NULL_UUID).
  { intros u ([fd h] & <- & _)%in_map_iff. unfold group_id.
    by rewrite Hempty, lookup_empty. }
  split.
  - intros Hocc. unfold exportAsJSON, exportAsJSON_object.
    rewrite exportAsJSON_map_fold, Hocc. done.
  - intros Hocc. rewrite first_seen_const with (c := NULL_UUID) in Hkeys; [|by destruct (traversal (diff st))|done].
    destruct (exportAsJSON_map st) as [|[u inner] [|? ?]] eqn:Hm; try done.
    injection Hkeys as ->.
    assert (Hkey : label_key st NULL_UUID = "undefined").
    { unfold label_key. by rewrite Hnil. }
    assert (Hobj : exportAsJSON_object st = [("undefined", JSMap.values inner)]).
    { unfold exportAsJSON_object. rewrite Hm. cbn [fold_left]. rewrite Hkey.
      by apply assign_first. }
    exists (JSMap.values inner). split_and!.
    + done.
    + unfold exportAsJSON. by rewrite Hobj.
    + rewrite <- Hkey, entry_view_values, (Permutation_map _ Hflat), map_map.
      unfold snapshot. apply Permutation_refl'. apply map_ext_in.
      intros [fd h] Hin. do 3 f_equal. apply Hgid.
      apply in_map_iff. by exists (fd, h).
    + destruct (export_wf_entry _ _ _ Hwf (or_introl eq_refl)) as [_ (_ & _ & Hall)].
      unfold JSMap.values. rewrite Forall_fmap. eapply Forall_impl; [exact Hall|].
      by intros [k d] [_ ?].
    + destruct (export_wf_entry _ _ _ Hwf (or_introl eq_refl)) as [_ (Hnd & _ & Hall)].
      assert (map names_key (JSMap.values inner) = JSMap.keys inner) as ->; [|done].
      unfold JSMap.values, JSMap.keys. clear -Hall.
      induction inner as [|[k d] inner IH]; [done|].
      apply Forall_cons in Hall as [[Hk _] Hall].
      rewrite !fmap_cons. cbn [map fst snd]. rewrite Hk. f_equal. by apply IH.
Qed.

Lemma export_without_associations_witness :
  let a1 := mkHunk 0 (mkHunkFields 1 2 1 3 [" ctx"; "+new"]) in
  let b1 := mkHunk 1 (mkHunkFields 5 1 5 1 ["-x"; "+y"]) in
  let st := mkState [mkParsedDiff "a/A" "b/A" [a1]; mkParsedDiff "a/B" "b/B" [b1]]
                    "" [] ∅ ∅ 1%N 2 in
  ∃ ds, exportAsJSON_object st = [("undefined", ds)]
        ∧ entry_view ("undefined", ds) ≡ₚ snapshot st (λ _, Some "undefined").
Proof.
  intros a1 b1 st.
  destruct (export_without_associations st eq_refl eq_refl) as [_ H].
  destruct (H ltac:(discriminate)) as (ds & Hobj & _ & Hperm & _).
  by exists ds.
Defined.

(** ** The page: renders and their effects *)

Lemma JSMap_keys_remove {K V} `{EqDecision K} (k x : K) (m : JSMap.t K V) :
  x ∈ JSMap.keys (JSMap.remove k m) ↔ x ∈ JSMap.keys m ∧ x ≠ k.
Proof.
  unfold JSMap.keys. induction m as [|[k0 v0] m IH].
  - cbn. rewrite elem_of_nil. tauto.
  - cbn [JSMap.remove]. case_decide as Hk.
    + subst k0. rewrite IH, fmap_cons, elem_of_cons. cbn [fst].
      intuition congruence.
    + rewrite !fmap_cons, !elem_of_cons, IH. cbn [fst]. intuition congruence.
Qed.

Lemma JSMap_NoDup_remove {K V} `{EqDecision K} (k : K) (m : JSMap.t K V) :
  NoDup (JSMap.keys m) → NoDup (JSMap.keys (JSMap.remove k m)).
Proof.
  unfold JSMap.keys. induction m as [|[k0 v0] m IH]; [done|].
  cbn [JSMap.remove]. rewrite fmap_cons. cbn [fst]. intros [Hk0 Hm]%NoDup_cons.
  case_decide; [by apply IH|].
  rewrite fmap_cons. cbn [fst]. apply NoDup_cons. split; [|by apply IH].
  intros Hin. apply Hk0. by apply (JSMap_keys_remove k k0 m) in Hin as [? _].
Qed.

Lemma JSMap_set_same {K V} `{EqDecision K} (k : K) (v : V) (m : JSMap.t K V) :
  JSMap.get k m = Some v → JSMap.set k v m = m.
Proof.
  induction m as [|[k0 v0] m IH]; [done|]. cbn [JSMap.get JSMap.set].
  case_decide as Hk; [by intros [= ->]; subst|]. intros Hm. by rewrite IH.
Qed.

Lemma reconcile_lookup views (m : JSMap.t UUID string) id :
  reconcile views m !! id
  = if bool_decide (id ∈ JSMap.keys m)
    then Some (default LabelView.mount (views !! id)) else None.
Proof.
  unfold reconcile. induction (JSMap.keys m) as [|k ks IH].
  - cbn [map]. by rewrite list_to_map_nil, lookup_empty.
  - cbn [map]. rewrite list_to_map_cons. destruct (decide (id = k)) as [->|Hne].
    + rewrite lookup_insert_eq, bool_decide_eq_true_2; [done | apply list_elem_of_here].
    + rewrite lookup_insert_ne by done. rewrite IH.
      apply (f_equal (λ b : bool, if b then _ else _)).
      apply bool_decide_ext. rewrite elem_of_cons. intuition congruence.
Qed.

Lemma with_labelFilter_twice F F' st :
  with_labelFilter F (with_labelFilter F' st) = with_labelFilter F st.
Proof. done. Qed.

Ltac filter_mem :=
  cbn [labelFilter with_labelFilter];
  rewrite ?elem_of_union, ?elem_of_difference, ?elem_of_singleton;
  intuition congruence.

(** A pass of filter effects, one per id of [l] for which [act] says
    which way. *)
Lemma filter_effects_run (act : UUID → option bool) (l : list UUID) : ∀ st,
  ∃ F,
    forEach (λ id, match act id with
                   | Some b => LabelView_effect id b
                   | None => ret tt
                   end) l st
    = (Normal tt, with_labelFilter F st)
    ∧ ∀ x, x ∈ F ↔ match act x with
                    | Some b => if bool_decide (x ∈ l) then b = true
                                else x ∈ labelFilter st
                    | None => x ∈ labelFilter st
                    end.
Proof.
  induction l as [|k l IH]; intros st.
  - exists (labelFilter st). split; [by destruct st|].
    intros x. by destruct (act x).
  - cbn [forEach]. unfold bind at 1.
    destruct (act k) as [b|] eqn:Hk.
    + set (F1 := if b then {[k]} ∪ labelFilter st else labelFilter st ∖ {[k]}).
      assert (LabelView_effect k b st = (Normal tt, with_labelFilter F1 st)) as ->
        by (by destruct b).
      destruct (IH (with_labelFilter F1 st)) as (F & -> & HF).
      exists F. split; [done|]. intros x. rewrite HF.
      destruct (act x) as [b'|] eqn:Hx.
      * destruct (decide (x = k)) as [->|Hne].
        -- assert (b' = b) as -> by congruence.
           rewrite (bool_decide_eq_true_2 (k ∈ k :: l)) by apply list_elem_of_here.
           case_bool_decide; [done|]. subst F1. destruct b; filter_mem.
        -- rewrite (bool_decide_ext (x ∈ k :: l) (x ∈ l))
             by (rewrite elem_of_cons; intuition congruence).
           case_bool_decide; [done|]. subst F1. destruct b; filter_mem.
      * assert (x ≠ k) by congruence. subst F1. destruct b; filter_mem.
    + cbn [ret]. destruct (IH st) as (F & -> & HF).
      exists F. split; [done|]. intros x. rewrite HF.
      destruct (act x) as [b'|] eqn:Hx; [|done].
      assert (x ≠ k) by congruence.
      by rewrite (bool_decide_ext (x ∈ k :: l) (x ∈ l))
        by (rewrite elem_of_cons; intuition congruence).
Qed.

Lemma LabelView_effects_run old new st :
  ∃ F,
    LabelView_effects old new st = (Normal tt, with_labelFilter F st)
    ∧ ∀ x, x ∈ F ↔ match filter_effect old new x with
                    | Some b => if bool_decide (x ∈ JSMap.keys (labelMap st))
                                then b = true else x ∈ labelFilter st
                    | None => x ∈ labelFilter st
                    end.
Proof.
  destruct (filter_effects_run (filter_effect old new) (JSMap.keys (labelMap st)) st)
    as (F & Hrun & HF).
  by exists F.
Qed.

Lemma on_screen_ext st st' x :
  diff st = diff st' → labelFilter st = labelFilter st' →
  hunkMap st !! x = hunkMap st' !! x →
  on_screen st x = on_screen st' x.
Proof.
  intros Hd Hf Hx. unfold on_screen. apply bool_decide_ext.
  rewrite !list_elem_of_fmap.
  split; intros ([fd h] & -> & Hin); exists (fd, h); (split; [done|]);
    apply list_elem_of_In, rendered_spec in Hin as (Hfd & Hh & Hvis);
    apply list_elem_of_In, rendered_spec; cbn [snd compose] in Hx.
  - rewrite <- Hd. split_and!; [done..|]. revert Hvis. unfold visible.
    by rewrite Hf, Hx.
  - rewrite Hd. split_and!; [done..|]. revert Hvis. unfold visible.
    by rewrite Hf, Hx.
Qed.

Lemma on_screen_spec st x :
  on_screen st x = true
  ↔ ∃ fd h, In (fd, h) (rendered st) ∧ hunk_loc h = x.
Proof.
  unfold on_screen. rewrite bool_decide_eq_true, list_elem_of_fmap. split.
  - intros ([fd h] & -> & Hin%list_elem_of_In). by exists fd, h.
  - intros (fd & h & Hin%list_elem_of_In & <-). by exists (fd, h).
Qed.

(** The renders after a handler: an association goes when it is stale
    and its hunk is on screen, in the render after the handler or in the
    one after the effects of the label views; the filter changes at the
    ids whose effect runs. *)
Lemma render_run old pending st :
  ∃ hm F,
    let st' := mkState (diff st) (newLabel st) (labelMap st) hm F
                       (next_uuid st) (next_loc st) in
    render old pending st = (Normal (reconcile pending (labelMap st)), st')
    ∧ (∀ x, hm !! x
            = if (on_screen st x || on_screen (with_labelFilter F st) x)
                 && stale (labelMap st) (hunkMap st) x
              then None else hunkMap st !! x)
    ∧ (∀ x, x ∈ F ↔ match filter_effect old (reconcile pending (labelMap st)) x with
                     | Some b => b = true
                     | None => x ∈ labelFilter st
                     end).
Proof.
  unfold render. cbv zeta. unfold bind.
  destruct (HunkView_effects_spec st) as (hm1 & -> & H1).
  destruct (LabelView_effects_run old (reconcile pending (labelMap st))
              (with_hunkMap hm1 st)) as (F & -> & HF).
  destruct (HunkView_effects_spec (with_labelFilter F (with_hunkMap hm1 st)))
    as (hm2 & -> & H2).
  cbn [labelMap hunkMap with_hunkMap with_labelFilter] in H2, HF.
  exists hm2, F. split_and!.
  - done.
  - intros x. rewrite H2. fold (on_screen (with_labelFilter F (with_hunkMap hm1 st)) x).
    pose proof (H1 x) as Hx1. fold (on_screen st x) in Hx1.
    destruct (on_screen st x && stale (labelMap st) (hunkMap st) x) eqn:Hfirst.
    + apply andb_true_iff in Hfirst as [-> Hst]. rewrite Hst. cbn [orb andb].
      rewrite Hx1. by destruct (_ && _).
    + rewrite (on_screen_ext (with_labelFilter F (with_hunkMap hm1 st))
                 (with_labelFilter F st) x); [|done..|exact Hx1].
      unfold stale at 1. rewrite Hx1. fold (stale (labelMap st) (hunkMap st) x).
      destruct (on_screen st x); [|done]. cbn [andb orb] in *. rewrite Hfirst.
      by rewrite andb_false_r.
  - intros x. rewrite HF. destruct (filter_effect _ _ x) as [b|] eqn:Hx; [|done].
    rewrite bool_decide_eq_true_2; [done|].
    unfold filter_effect in Hx. rewrite reconcile_lookup in Hx.
    by case_bool_decide.
Qed.

Lemma after_run ui handler pending st1 :
  handler (stores ui) = (Normal pending, st1) →
  ∃ hm F,
    let st' := mkState (diff st1) (newLabel st1) (labelMap st1) hm F
                       (next_uuid st1) (next_loc st1) in
    after ui handler
    = Some (mkUI st' (reconcile pending (labelMap st1))
                 (showModal ui) (errorHead ui) (errorBody ui))
    ∧ (∀ x, hm !! x
            = if (on_screen st1 x || on_screen (with_labelFilter F st1) x)
                 && stale (labelMap st1) (hunkMap st1) x
              then None else hunkMap st1 !! x)
    ∧ (∀ x, x ∈ F ↔ match filter_effect (labelViews ui)
                             (reconcile pending (labelMap st1)) x with
                     | Some b => b = true
                     | None => x ∈ labelFilter st1
                     end).
Proof.
  intros Hrun.
  destruct (render_run (labelViews ui) pending st1) as (hm & F & Hrender & Hrest).
  exists hm, F. split; [|exact Hrest].
  unfold after, bind. rewrite Hrun. cbv zeta in Hrender. by rewrite Hrender.
Qed.

Lemma after_throw ui (handler : Stmt (gmap UUID LabelView.t)) st1 :
  handler (stores ui) = (Throw, st1) → after ui handler = None.
Proof. intros Hrun. unfold after, bind. by rewrite Hrun. Qed.

(** What one handler and the renders after it keep, when the handler
    keeps the invariant of the stores and leaves the filter alone. *)
Lemma after_step ui handler pending st1 ui' :
  View_inv ui →
  handler (stores ui) = (Normal pending, st1) →
  labelFilter st1 = labelFilter (stores ui) →
  Store_inv st1 →
  after ui handler = Some ui' →
  Store_inv (stores ui') ∧ View_inv ui'
  ∧ diff (stores ui') = diff st1
  ∧ newLabel (stores ui') = newLabel st1
  ∧ labelMap (stores ui') = labelMap st1
  ∧ next_uuid (stores ui') = next_uuid st1
  ∧ next_loc (stores ui') = next_loc st1
  ∧ labelViews ui' = reconcile pending (labelMap st1)
  ∧ showModal ui' = showModal ui
  ∧ errorHead ui' = errorHead ui
  ∧ errorBody ui' = errorBody ui
  ∧ (∀ x, hunkMap (stores ui') !! x
          = if (on_screen st1 x
                || on_screen (with_labelFilter (labelFilter (stores ui')) st1) x)
               && stale (labelMap st1) (hunkMap st1) x
            then None else hunkMap st1 !! x)
  ∧ (∀ id, id ∈ labelFilter (stores ui')
           ↔ match filter_effect (labelViews ui)
                     (reconcile pending (labelMap st1)) id with
             | Some b => b = true
             | None => id ∈ labelFilter (stores ui)
             end).
Proof.
  intros [_ Hsync _] Hrun Hfilter Hinv Hafter.
  destruct (after_run ui handler pending st1 Hrun) as (hm & F & Heq & Hhm & HF).
  cbv zeta in Heq. rewrite Heq in Hafter. injection Hafter as <-.
  cbn [stores labelViews diff newLabel labelMap hunkMap labelFilter next_uuid
       next_loc showModal errorHead errorBody].
  rewrite Hfilter in HF.
  destruct Hinv as [Hpos Hnd Hbound Hhnd Hhbound Hassoc Hfb].
  split_and!; try done.
  - split; cbn [diff labelMap hunkMap labelFilter next_uuid next_loc]; try done.
    + intros x [id Hx]. apply Hassoc. exists id. rewrite Hhm in Hx.
      by destruct (_ && _).
    + intros id Hid. apply HF in Hid.
      destruct (filter_effect _ _ id) as [b|] eqn:Heff;
        [|apply Hfb; by rewrite Hfilter].
      apply Hbound. unfold filter_effect in Heff. rewrite reconcile_lookup in Heff.
      by case_bool_decide.
  - split; cbn [stores labelViews labelMap hunkMap labelFilter].
    + intros id. rewrite reconcile_lookup. case_bool_decide as Hid.
      * split; [done|]. intros _. by eexists.
      * split; [by intros [? [=]]|done].
    + intros id v Hv. rewrite HF. unfold filter_effect. rewrite Hv.
      case_decide as Hold; [|done].
      destruct (labelViews ui !! id) as [v0|] eqn:Hv0; [|done].
      injection Hold as Hold. rewrite <- Hold. by apply Hsync.
    + intros fd h id Hin Hh. rewrite Hhm in Hh.
      assert (hunkMap st1 !! hunk_loc h = Some id) as Hh1 by (by destruct (_ && _)).
      assert (on_screen (with_labelFilter F st1) (hunk_loc h) = true) as Hon.
      { rewrite <- (on_screen_ext (mkState (diff st1) (newLabel st1) (labelMap st1)
                                        hm F (next_uuid st1) (next_loc st1)));
          [|done..|cbn [hunkMap with_labelFilter]; rewrite Hhm, Hh1;
                   by destruct (_ && _)].
        apply on_screen_spec. by exists fd, h. }
      rewrite Hon, orb_true_r in Hh. unfold stale in Hh. rewrite Hh1 in Hh.
      by destruct (JSMap.has id (labelMap st1)).
Qed.

(** One step of the page, from the side of the label ids. *)
Lemma after_step_ids ui handler pending st1 ui' :
  View_inv ui →
  handler (stores ui) = (Normal pending, st1) →
  labelFilter st1 = labelFilter (stores ui) →
  Store_inv st1 →
  (next_uuid (stores ui) ≤ next_uuid st1)%N →
  (∀ id, id ∈ JSMap.keys (labelMap st1) →
         id ∈ JSMap.keys (labelMap (stores ui)) ∨ (next_uuid (stores ui) ≤ id)%N) →
  after ui handler = Some ui' →
  Store_inv (stores ui') ∧ View_inv ui'
  ∧ (next_uuid (stores ui) ≤ next_uuid (stores ui'))%N
  ∧ (∀ id, id ∈ JSMap.keys (labelMap (stores ui')) →
           id ∈ JSMap.keys (labelMap (stores ui)) ∨ (next_uuid (stores ui) ≤ id)%N)
  ∧ (∀ id, id ∉ JSMap.keys (labelMap (stores ui')) →
           (id ∈ labelFilter (stores ui') ↔ id ∈ labelFilter (stores ui))).
Proof.
  intros Hview Hrun Hfilter Hinv Hmono Hlabels Hafter.
  destruct (after_step ui handler pending st1 ui' Hview Hrun Hfilter Hinv Hafter)
    as (Hinv' & Hview' & _ & _ & Hlm & Hnext & _ & _ & _ & _ & _ & _ & HF).
  rewrite Hlm, Hnext. split_and!; [done..|].
  intros id Hid. rewrite HF. unfold filter_effect. rewrite reconcile_lookup.
  by rewrite bool_decide_eq_false_2.
Qed.

Lemma Store_inv_patch st ds :
  Store_inv st →
  Store_inv (mkState (alloc_diffs (next_loc st) ds) (newLabel st) (labelMap st) ∅
                     (labelFilter st) (next_uuid st) (next_loc st + count_hunks ds)).
Proof.
  intros [Hpos Hnd Hbound Hhnd Hhbound Hassoc Hfb].
  split; cbn [diff labelMap hunkMap labelFilter next_uuid next_loc]; try done.
  - rewrite alloc_diffs_locs. apply NoDup_seq.
  - intros x. rewrite alloc_diffs_locs, elem_of_seq. lia.
  - intros x [id Hx]. by rewrite lookup_empty in Hx.
Qed.

Lemma import_labels_fresh base (data : JSObject.t (list ParsedDiff)) :
  NoDup (JSMap.keys (import_labels base data))
  ∧ ∀ id, id ∈ JSMap.keys (import_labels base data) →
          (base ≤ id < base + N.of_nat (length data))%N.
Proof.
  rewrite import_labels_ids. split.
  - assert (Inj (=) (=) (λ i : nat, (base + N.of_nat i)%N)) by (intros i j; lia).
    apply (NoDup_fmap_2 (λ i, (base + N.of_nat i)%N)), NoDup_seq.
  - intros id [i [-> Hi%elem_of_seq]]%list_elem_of_fmap. lia.
Qed.

Lemma Store_inv_importDocument doc st :
  Store_inv st →
  let st' := exec (importDocument doc) st in
  throws (importDocument doc) st = false
  ∧ Store_inv st'
  ∧ labelFilter st' = labelFilter st
  ∧ (next_uuid st ≤ next_uuid st')%N
  ∧ (∀ id, id ∈ JSMap.keys (labelMap st') → (next_uuid st ≤ id)%N).
Proof.
  intros [Hpos Hnd Hbound Hhnd Hhbound Hassoc Hfb]. cbv zeta.
  destruct (importDocument_run doc st) as (hm & Hrun & Hout & _ & _).
  cbv zeta in Hrun, Hout. unfold exec, throws. rewrite Hrun. cbn [fst snd].
  destruct (import_labels_fresh (next_uuid st) (alloc_entries (next_loc st) doc))
    as [Hlnd Hlb]. rewrite alloc_entries_length in Hlb.
  split_and!; [done| |done|cbn [next_uuid]; lia|].
  - split; cbn [diff labelMap hunkMap labelFilter next_uuid next_loc].
    + lia.
    + done.
    + intros id Hid%Hlb. lia.
    + rewrite alloc_entries_locs. apply NoDup_seq.
    + intros x. rewrite alloc_entries_locs, elem_of_seq. lia.
    + intros x [id Hx].
      destruct (decide (x ∈ hunk_locs (flat_map snd (alloc_entries (next_loc st) doc))))
        as [|Hnot]; [done|]. by rewrite (Hout x Hnot) in Hx.
    + intros id Hid%Hfb. lia.
  - cbn [labelMap]. intros id Hid%Hlb. lia.
Qed.

Lemma JSMap_keys_set_elem {K V} `{EqDecision K} (k x : K) (v : V) (m : JSMap.t K V) :
  x ∈ JSMap.keys (JSMap.set k v m) ↔ x ∈ JSMap.keys m ∨ x = k.
Proof.
  rewrite JSMap_keys_set. destruct (JSMap.has k m) eqn:Hk.
  - split; [by left|]. intros [?| ->]; [done|].
    apply JSMap_has_true in Hk as [v0 Hk].
    apply JSMap_get_Some_elem in Hk. unfold JSMap.keys.
    apply list_elem_of_fmap. by exists (k, v0).
  - rewrite elem_of_app, list_elem_of_singleton. tauto.
Qed.

Lemma Store_inv_labelMap st (m : JSMap.t UUID string) (n : N) :
  Store_inv st →
  NoDup (JSMap.keys m) →
  (next_uuid st ≤ n)%N →
  (∀ id, id ∈ JSMap.keys m → (0 < id < n)%N) →
  Store_inv (with_next_uuid n (with_labelMap m st)).
Proof.
  intros [Hpos Hnd Hbound Hhnd Hhbound Hassoc Hfb] Hm Hn Hmb.
  split; cbn [diff labelMap hunkMap labelFilter next_uuid next_loc
              with_labelMap with_next_uuid]; try done.
  - lia.
  - intros id Hid%Hfb. lia.
Qed.

Lemma View_inv_modal ui b head body :
  View_inv ui → View_inv (mkUI (stores ui) (labelViews ui) b head body).
Proof. intros [H1 H2 H3]. by split. Qed.

Section Page_facts.

Variable parsePatch : string → option (list ParsedDiffJSON).
Variable JSON_parse : string → option Document.

Lemma diff_callback_set_diff {A} (raw : RawData) (a : A) (st : State) :
  (d <- diff_callback parsePatch JSON_parse raw ;; set_diff d ;;; ret a) st
  = if isJSON raw then
      match JSON_parse (text raw) with
      | Some doc => (Normal a, exec (importDocument doc) st)
      | None => (Throw, with_hunkMap ∅ st)
      end
    else
      match parsePatch (text raw) with
      | Some ds =>
          (Normal a,
           mkState (alloc_diffs (next_loc st) ds) (newLabel st) (labelMap st) ∅
                   (labelFilter st) (next_uuid st) (next_loc st + count_hunks ds))
      | None => (Throw, with_hunkMap ∅ st)
      end.
Proof.
  destruct raw as [[] txt]; cbn [isJSON text].
  - destruct (JSON_parse txt) as [doc|] eqn:Hparse.
    + destruct (importDocument_run doc st) as (hm & Hrun & _).
      unfold exec. rewrite Hrun. cbn [snd]. revert Hrun.
      unfold importDocument, diff_callback, bind, hunkMapActions_reset.
      cbn [isJSON text]. rewrite Hparse.
      destruct (mapM new_entry doc _) as [[data|] st1]; [|done].
      destruct (import_data data st1) as [[d|] st2]; [|done].
      unfold set_diff, ret. intros Heq.
      apply (f_equal snd) in Heq. cbn [snd] in Heq. by rewrite Heq.
    + unfold diff_callback, bind, hunkMapActions_reset. cbn [isJSON text].
      by rewrite Hparse.
  - unfold diff_callback, bind, hunkMapActions_reset. cbn [isJSON text].
    destruct (parsePatch txt) as [ds|]; [|done].
    by rewrite mapM_new_ParsedDiff.
Qed.

Ltac after_ids Hview Hstep :=
  eapply after_step_ids in Hstep; [exact Hstep | exact Hview | reflexivity | ..].

(** What every event keeps, and what it does to the label ids. *)
Lemma handle_inv ev ui ui' :
  Store_inv (stores ui) → View_inv ui →
  handle parsePatch JSON_parse ev ui = Some ui' →
  Store_inv (stores ui') ∧ View_inv ui'
  ∧ (next_uuid (stores ui) ≤ next_uuid (stores ui'))%N
  ∧ (∀ id, id ∈ JSMap.keys (labelMap (stores ui')) →
           id ∈ JSMap.keys (labelMap (stores ui)) ∨ (next_uuid (stores ui) ≤ id)%N)
  ∧ (∀ id, id ∉ JSMap.keys (labelMap (stores ui')) →
           (id ∈ labelFilter (stores ui') ↔ id ∈ labelFilter (stores ui))).
Proof.
  intros Hinv Hview Hstep.
  assert (∀ m, Store_inv (with_next_uuid (next_uuid (stores ui))
                            (with_labelMap m (stores ui)))
               → Store_inv (with_labelMap m (stores ui))) as Hsame
    by (intros m Hm; exact Hm).
  destruct ev as [fileName result|error newErrorStack| |value| |i value
                 |labelId|labelId|labelId value|labelId|labelId|labelId];
    cbn [handle] in Hstep.
  - (* FileRead *)
    pose proof (diff_callback_set_diff (mkRawData (endsWith fileName "json") result)
                  (labelViews ui) (stores ui)) as Hrun.
    cbn [isJSON text] in Hrun.
    destruct (endsWith fileName "json").
    + destruct (JSON_parse result) as [doc|].
      * destruct (Store_inv_importDocument doc (stores ui) Hinv)
          as (_ & Hinv1 & Hfilter & Hmono & Hfresh).
        eapply after_step_ids in Hstep;
          [exact Hstep | exact Hview | exact Hrun | done..| |].
        -- done.
        -- intros id Hid. right. by apply Hfresh.
      * by rewrite (after_throw _ _ _ Hrun) in Hstep.
    + destruct (parsePatch result) as [ds|].
      * eapply after_step_ids in Hstep;
          [exact Hstep | exact Hview | exact Hrun | done | | |].
        -- by apply Store_inv_patch.
        -- cbn [next_uuid]. lia.
        -- intros id Hid. by left.
      * by rewrite (after_throw _ _ _ Hrun) in Hstep.
  - (* FileReadError *)
    injection Hstep as <-. unfold showError. cbn [stores].
    split_and!; [done|by apply View_inv_modal|lia|by left|done].
  - (* ModalHide *)
    injection Hstep as <-. cbn [stores].
    split_and!; [done|by apply View_inv_modal|lia|by left|done].
  - (* NewLabelChange *)
    after_ids Hview Hstep.
    + done.
    + destruct Hinv. by split.
    + cbn [next_uuid with_newLabel]. lia.
    + intros id Hid. by left.
  - (* AddClick *)
    destruct (String.length (newLabel (stores ui)) =? 0)%nat eqn:Hlen.
    + eapply after_step_ids in Hstep; [exact Hstep | exact Hview | ..].
      * unfold bind, addLabel. rewrite Hlen. reflexivity.
      * done.
      * done.
      * lia.
      * intros id Hid. by left.
    + eapply after_step_ids in Hstep; [exact Hstep | exact Hview | ..].
      * unfold bind, addLabel. rewrite Hlen. reflexivity.
      * done.
      * cbn [with_newLabel labelMap hunkMap diff labelFilter next_uuid next_loc
             with_labelMap with_next_uuid].
        pose proof Hinv as [Hpos Hnd Hbound _ _ _ _].
        eapply (Store_inv_labelMap _
                  (JSMap.set (next_uuid (stores ui)) (newLabel (stores ui))
                             (labelMap (stores ui)))
                  (N.succ (next_uuid (stores ui)))) in Hinv.
        -- destruct Hinv. by split.
        -- by apply JSMap_NoDup_set.
        -- lia.
        -- intros id [Hid%Hbound| ->]%JSMap_keys_set_elem; lia.
      * cbn [next_uuid with_newLabel with_labelMap with_next_uuid]. lia.
      * cbn [labelMap with_newLabel with_labelMap with_next_uuid].
        intros id [Hid| ->]%JSMap_keys_set_elem; [by left|right; lia].
  - (* SelectChange *)
    destruct (rendered (stores ui) !! i) as [[fd hunk]|] eqn:Hi; [|done].
    after_ids Hview Hstep.
    + done.
    + apply list_elem_of_lookup_2, list_elem_of_In, rendered_spec in Hi
        as (Hfd & Hh & _).
      destruct Hinv as [Hpos Hnd Hbound Hhnd Hhbound Hassoc Hfb].
      split; cbn [diff labelMap hunkMap labelFilter next_uuid next_loc
                  with_hunkMap]; try done.
      intros x. destruct (decide (x = hunk_loc hunk)) as [->|Hne].
      * intros _. apply (in_traversal_hunk_locs _ fd), traversal_spec. by split.
      * rewrite lookup_insert_ne by done. apply Hassoc.
    + cbn [next_uuid with_hunkMap]. lia.
    + intros id Hid. by left.
  - (* FilterClick *)
    unfold on_LabelView in Hstep.
    destruct (labelViews ui !! labelId) as [v|]; [|done].
    case_bool_decide; [|done]. after_ids Hview Hstep; [done..|lia|by left].
  - (* EditClick *)
    destruct (JSMap.get labelId (labelMap (stores ui))) as [label|]; [|done].
    unfold on_LabelView in Hstep.
    destruct (labelViews ui !! labelId) as [v|]; [|done].
    case_bool_decide; [|done]. after_ids Hview Hstep; [done..|lia|by left].
  - (* EditChange *)
    unfold on_LabelView in Hstep.
    destruct (labelViews ui !! labelId) as [v|]; [|done].
    case_bool_decide; [|done]. after_ids Hview Hstep; [done..|lia|by left].
  - (* AbortClick *)
    unfold on_LabelView in Hstep.
    destruct (labelViews ui !! labelId) as [v|]; [|done].
    case_bool_decide; [|done]. after_ids Hview Hstep; [done..|lia|by left].
  - (* SaveClick *)
    unfold on_LabelView in Hstep.
    destruct (labelViews ui !! labelId) as [v|] eqn:Hv; [|done].
    case_bool_decide; [|done].
    assert (labelId ∈ JSMap.keys (labelMap (stores ui))) as Hin.
    { destruct Hview as [Hviews _ _]. apply Hviews. by eexists. }
    after_ids Hview Hstep.
    + done.
    + apply Hsame.
      pose proof Hinv as [Hpos Hnd Hbound _ _ _ _].
      apply Store_inv_labelMap; [done| |lia|].
      * by apply JSMap_NoDup_set.
      * intros id [Hid| ->]%JSMap_keys_set_elem; by apply Hbound.
    + cbn [next_uuid with_labelMap]. lia.
    + cbn [labelMap with_labelMap].
      intros id [Hid| ->]%JSMap_keys_set_elem; by left.
  - (* TrashClick *)
    destruct (labelViews ui !! labelId) as [v|] eqn:Hv; [|done].
    after_ids Hview Hstep.
    + done.
    + apply Hsame.
      pose proof Hinv as [Hpos Hnd Hbound _ _ _ _].
      apply Store_inv_labelMap; [done| |lia|].
      * by apply JSMap_NoDup_remove.
      * intros id [Hid _]%JSMap_keys_remove. by apply Hbound.
    + cbn [next_uuid with_labelMap]. lia.
    + cbn [labelMap with_labelMap].
      intros id [Hid _]%JSMap_keys_remove. by left.
Qed.

End Page_facts.

(** ** The counts of the navbar *)

Lemma changesCount_length st :
  changesCount st = Z.of_nat (length (traversal (diff st))).
Proof.
  unfold changesCount.
  assert (∀ d a,
            fold_left (λ acc x, acc + x)%Z
              (map (λ fileDiff : ParsedDiff, Z.of_nat (length (hunks fileDiff))) d) a
            = (a + Z.of_nat (length (traversal d)))%Z) as Hsum.
  { induction d as [|fd d IH]; intros a; cbn [map fold_left]; [cbn; lia|].
    rewrite IH. unfold traversal. cbn [flat_map].
    rewrite length_app, length_map. fold (traversal d). lia. }
  by rewrite Hsum.
Qed.

Lemma size_within (l : list loc) : ∀ m : gmap loc UUID,
  NoDup l → (∀ x, is_Some (m !! x) → x ∈ l) →
  size m = length (List.filter (λ x, bool_decide (is_Some (m !! x))) l).
Proof.
  induction l as [|x l IH]; intros m Hnd Hdom.
  - cbn. apply map_size_empty_iff, map_empty. intros i.
    destruct (m !! i) eqn:Hi; [|done].
    exfalso. apply (elem_of_nil i), Hdom. by eexists.
  - apply NoDup_cons in Hnd as [Hx Hnd].
    assert (List.filter (λ y, bool_decide (is_Some (m !! y))) l
            = List.filter (λ y, bool_decide (is_Some (delete x m !! y))) l) as Hl.
    { apply filter_ext_in. intros y Hy%list_elem_of_In.
      rewrite lookup_delete_ne; [done|]. by intros ->. }
    assert (size (delete x m)
            = length (List.filter (λ y, bool_decide (is_Some (m !! y))) l)) as Hdel.
    { rewrite Hl. apply IH; [done|]. intros y [v Hy].
      destruct (decide (x = y)) as [->|Hne]; [by rewrite lookup_delete_eq in Hy|].
      rewrite lookup_delete_ne in Hy by done.
      assert (y ∈ x :: l) as [Hyx|Hyl]%elem_of_cons
        by (apply Hdom; by eexists); [congruence|done]. }
    cbn [List.filter]. rewrite map_size_delete in Hdel.
    destruct (m !! x) as [v|] eqn:Hmx.
    + rewrite bool_decide_eq_true_2 by (by eexists). cbn [length].
      rewrite <- Hdel. assert (size m ≠ 0); [|lia].
      apply map_size_non_empty_iff. intros ->. by rewrite lookup_empty in Hmx.
    + rewrite bool_decide_eq_false_2 by (by intros [? [=]]). done.
Qed.

Lemma uncategorized_length st :
  length (uncategorized st)
  + length (List.filter (λ x, bool_decide (is_Some (hunkMap st !! x)))
                        (hunk_locs (diff st)))
  = length (traversal (diff st)).
Proof.
  unfold uncategorized, hunk_locs.
  induction (traversal (diff st)) as [|[fd h] l IH]; [done|].
  cbn [List.filter map length].
  destruct (hunkMap st !! hunk_loc h) as [id|] eqn:Hh.
  - rewrite bool_decide_eq_false_2 by done.
    rewrite bool_decide_eq_true_2 by (by eexists). cbn [length]. lia.
  - rewrite bool_decide_eq_true_2 by done.
    rewrite bool_decide_eq_false_2 by (by intros [? [=]]). cbn [length]. lia.
Qed.

(** Where the hunks of the diff are different objects and only they
    have an association, the second count of the navbar is the number of
    hunks with no association. *)
Lemma uncategorizedCount_length st :
  Store_inv st →
  uncategorizedCount st = Z.of_nat (length (uncategorized st)).
Proof.
  intros [_ _ _ Hnd _ Hassoc _]. unfold uncategorizedCount.
  rewrite changesCount_length, (size_within (hunk_locs (diff st))) by done.
  pose proof (uncategorized_length st). lia.
Qed.

Section Session_facts.

Variable parsePatch : string → option (list ParsedDiffJSON).
Variable JSON_parse : string → option Document.

Lemma Store_inv_initial : Store_inv initial.
Proof.
  split; cbn; try done.
  - apply NoDup_nil_2.
  - intros id []%elem_of_nil.
  - apply NoDup_nil_2.
  - intros x []%elem_of_nil.
  - intros x [id Hx]. by rewrite lookup_empty in Hx.
Qed.

Lemma View_inv_blank : View_inv blank.
Proof.
  split; cbn.
  - intros id. rewrite lookup_empty, elem_of_nil. split; [by intros [? [=]]|done].
  - intros id v. by rewrite lookup_empty.
  - by intros fd h id [].
Qed.

Lemma start_inv ui :
  start parsePatch JSON_parse = Some ui → Store_inv (stores ui) ∧ View_inv ui.
Proof.
  unfold start. intros Hstart.
  pose proof (diff_callback_set_diff parsePatch JSON_parse (mkRawData false "")
                (∅ : gmap UUID LabelView.t) (stores blank)) as Hrun.
  cbn [isJSON text] in Hrun. destruct (parsePatch "") as [ds|].
  - eapply after_step in Hstart;
      [|exact View_inv_blank|exact Hrun|done|apply Store_inv_patch, Store_inv_initial].
    by destruct Hstart as (? & ? & _).
  - by rewrite (after_throw _ _ _ Hrun) in Hstart.
Qed.

Lemma run_inv evs : ∀ ui ui',
  run parsePatch JSON_parse evs ui = Some ui' →
  Store_inv (stores ui) ∧ View_inv ui →
  Store_inv (stores ui') ∧ View_inv ui'.
Proof.
  induction evs as [|ev evs IH]; intros ui ui' Hrun [Hinv Hview].
  - by injection Hrun as <-.
  - cbn [run] in Hrun.
    destruct (handle parsePatch JSON_parse ev ui) as [ui1|] eqn:Hev; [|done].
    apply (IH ui1 ui' Hrun).
    by destruct (handle_inv parsePatch JSON_parse ev ui ui1 Hinv Hview Hev)
      as (? & ? & _).
Qed.

Lemma session_inv evs ui :
  session parsePatch JSON_parse evs = Some ui →
  Store_inv (stores ui) ∧ View_inv ui.
Proof.
  unfold session. destruct (start parsePatch JSON_parse) as [ui0|] eqn:Hstart; [|done].
  intros Hrun. apply (run_inv evs ui0 ui Hrun). by apply start_inv.
Qed.

End Session_facts.

(** ** Renders that change nothing *)

Lemma stores_exact st1 st' :
  diff st' = diff st1 → newLabel st' = newLabel st1 →
  labelMap st' = labelMap st1 →
  next_uuid st' = next_uuid st1 → next_loc st' = next_loc st1 →
  (∀ x, hunkMap st' !! x
        = if (on_screen st1 x || on_screen (with_labelFilter (labelFilter st') st1) x)
             && stale (labelMap st1) (hunkMap st1) x
          then None else hunkMap st1 !! x) →
  (∀ id, id ∈ labelFilter st' ↔ id ∈ labelFilter st1) →
  (∀ x, on_screen st1 x = true → stale (labelMap st1) (hunkMap st1) x = false) →
  st' = st1.
Proof.
  intros Hd Hn Hl Hu Hloc Hhm HF%set_eq Hlive.
  assert (hunkMap st' = hunkMap st1) as Hh.
  { apply map_eq. intros x. rewrite Hhm, HF.
    assert (with_labelFilter (labelFilter st1) st1 = st1) as -> by (by destruct st1).
    rewrite orb_diag. destruct (on_screen st1 x) eqn:Hon; [|done].
    by rewrite (Hlive x Hon). }
  destruct st', st1. cbn in *. by subst.
Qed.

(** A view that keeps its [inFilter] runs no effect. *)
Lemma filter_effect_same old new id :
  LabelView.inFilter <$> new !! id = LabelView.inFilter <$> old !! id →
  filter_effect old new id = None.
Proof.
  intros Hsame. unfold filter_effect. destruct (new !! id) as [v|]; [|done].
  by rewrite decide_True.
Qed.

Lemma reconcile_views ui :
  View_inv ui → reconcile (labelViews ui) (labelMap (stores ui)) = labelViews ui.
Proof.
  intros [Hviews _ _]. apply map_eq. intros id. rewrite reconcile_lookup.
  case_bool_decide as Hid.
  - apply Hviews in Hid as [v Hv]. by rewrite Hv.
  - destruct (labelViews ui !! id) as [v|] eqn:Hv; [|done].
    destruct Hid. apply Hviews. by eexists.
Qed.

Lemma on_screen_live_stale ui x :
  View_inv ui → on_screen (stores ui) x = true →
  stale (labelMap (stores ui)) (hunkMap (stores ui)) x = false.
Proof.
  intros [_ _ Hlive] (fd & h & Hin & <-)%on_screen_spec. unfold stale.
  destruct (hunkMap (stores ui) !! hunk_loc h) as [id|] eqn:Hh; [|done].
  by rewrite (Hlive fd h id Hin Hh).
Qed.

Lemma filter_idle ui pending id :
  View_inv ui →
  LabelView.inFilter <$> pending !! id
  = LabelView.inFilter <$> labelViews ui !! id →
  filter_effect (labelViews ui) (reconcile pending (labelMap (stores ui))) id = None.
Proof.
  intros [Hv _ _] Hsame. apply filter_effect_same.
  rewrite reconcile_lookup. case_bool_decide as Hid.
  - destruct (pending !! id) as [v'|]; cbn in *; [done|].
    apply Hv in Hid as [v Hid]. by rewrite Hid in Hsame.
  - destruct (labelViews ui !! id) as [v|] eqn:Hvid; [|done].
    destruct Hid. apply Hv. by eexists.
Qed.

(** A handler that leaves the stores as they are and the [inFilter] of
    every view as it is: the renders after it change nothing. *)
Lemma after_idle ui handler pending ui' :
  Store_inv (stores ui) → View_inv ui →
  handler (stores ui) = (Normal pending, stores ui) →
  (∀ id, LabelView.inFilter <$> pending !! id
         = LabelView.inFilter <$> labelViews ui !! id) →
  after ui handler = Some ui' →
  stores ui' = stores ui
  ∧ labelViews ui' = reconcile pending (labelMap (stores ui)).
Proof.
  intros Hinv Hview Hrun Hsame Hafter.
  destruct (after_step ui handler pending (stores ui) ui' Hview Hrun eq_refl Hinv Hafter)
    as (_ & _ & Hd & Hn & Hl & Hu & Hloc & Hviews & _ & _ & _ & Hhm & HF).
  split; [|done]. apply stores_exact; try done.
  - intros id. by rewrite HF, filter_idle.
  - intros x. by apply on_screen_live_stale.
Qed.

Lemma visible_loc st h h' :
  hunk_loc h = hunk_loc h' → visible st h = visible st h'.
Proof. intros Hloc. unfold visible. by rewrite Hloc. Qed.

Lemma after_Some ui handler pending st1 :
  handler (stores ui) = (Normal pending, st1) → ∃ ui', after ui handler = Some ui'.
Proof.
  intros Hrun. destruct (after_run ui handler pending st1 Hrun) as (hm & F & Heq & _).
  eexists. exact Heq.
Qed.

Lemma String_length_zero (s : string) : (String.length s =? 0)%nat = true ↔ s = "".
Proof. destruct s; cbn; [done|]. split; discriminate. Qed.

Lemma reconcile_insert ui L v v' :
  View_inv ui → labelViews ui !! L = Some v →
  reconcile (<[L := v']> (labelViews ui)) (labelMap (stores ui))
  = <[L := v']> (labelViews ui).
Proof.
  intros [Hviews _ _] HL. apply map_eq. intros id. rewrite reconcile_lookup.
  case_bool_decide as Hid.
  - destruct (decide (id = L)) as [->|Hne]; [by rewrite !lookup_insert_eq|].
    rewrite !lookup_insert_ne by done. apply Hviews in Hid as [w Hw].
    by rewrite Hw.
  - destruct (decide (id = L)) as [->|Hne].
    + destruct Hid. apply Hviews. by eexists.
    + rewrite lookup_insert_ne by done.
      destruct (labelViews ui !! id) as [w|] eqn:Hw; [|done].
      destruct Hid. apply Hviews. by eexists.
Qed.

(** A handler of a [LabelView] that writes no store and keeps
    [inFilter]: only the state of that view changes. *)
Lemma on_LabelView_idle ui L mode (f : LabelView.t → LabelView.t) ui' :
  Store_inv (stores ui) → View_inv ui →
  (∀ v, LabelView.inFilter (f v) = LabelView.inFilter v) →
  on_LabelView ui L mode (λ v, ret (f v)) = Some ui' →
  ∃ v, labelViews ui !! L = Some v
       ∧ LabelView.editMode v = mode
       ∧ stores ui' = stores ui
       ∧ labelViews ui' = <[L := f v]> (labelViews ui).
Proof.
  intros Hinv Hview Hf Hstep. unfold on_LabelView in Hstep.
  destruct (labelViews ui !! L) as [v|] eqn:HL; [|done].
  case_bool_decide as Hmode; [|done]. exists v. split_and!; [done..| |].
  - eapply after_idle in Hstep; [by destruct Hstep|done|done|reflexivity|].
    intros id. destruct (decide (id = L)) as [->|Hne].
    + by rewrite lookup_insert_eq, HL; cbn; rewrite Hf.
    + by rewrite lookup_insert_ne.
  - eapply after_idle in Hstep; [|done|done|reflexivity|].
    + destruct Hstep as [_ ->]. by apply (reconcile_insert ui L v).
    + intros id. destruct (decide (id = L)) as [->|Hne].
      * by rewrite lookup_insert_eq, HL; cbn; rewrite Hf.
      * by rewrite lookup_insert_ne.
Qed.

(** ** Lines of text, and the whole diff on or off screen *)

Lemma split_cons sep s : ∃ piece pieces, split sep s = piece :: pieces.
Proof.
  induction s as [|c s (p & ps & IH)]; cbn [split]; [by eexists _, _|].
  destruct (Ascii.eqb c sep); [by eexists _, _|]. rewrite IH. by eexists _, _.
Qed.

Lemma split_app sep (a b : string) :
  split sep (a +:+ String sep b) = split sep a ++ split sep b.
Proof.
  induction a as [|c a IH].
  - rewrite string_app_nil. cbn [split]. by rewrite Ascii.eqb_refl.
  - rewrite string_app_cons. cbn [split]. rewrite IH.
    destruct (Ascii.eqb c sep); [done|].
    by destruct (split_cons sep a) as (p & ps & ->).
Qed.

Lemma filter_all {A} (f : A → bool) (l : list A) :
  (∀ x, In x l → f x = true) → List.filter f l = l.
Proof.
  induction l as [|x l IH]; [done|]. intros Hall. cbn [List.filter].
  rewrite (Hall x) by (by left). f_equal. apply IH. intros y Hy. apply Hall. by right.
Qed.

Lemma filter_none {A} (f : A → bool) (l : list A) :
  (∀ x, In x l → f x = false) → List.filter f l = [].
Proof.
  induction l as [|x l IH]; [done|]. intros Hall. cbn [List.filter].
  rewrite (Hall x) by (by left). apply IH. intros y Hy. apply Hall. by right.
Qed.

Lemma rendered_all st :
  (∀ fd h, In (fd, h) (traversal (diff st)) → visible st h = true) →
  rendered st = traversal (diff st).
Proof.
  unfold rendered, traversal. induction (diff st) as [|fd d IH]; [done|].
  intros Hall. cbn [flat_map]. rewrite IH.
  - rewrite filter_all; [done|]. intros h Hh. apply (Hall fd), in_or_app. left.
    by apply in_map.
  - intros fd' h Hin. apply (Hall fd'), in_or_app. by right.
Qed.

Lemma rendered_none st :
  (∀ fd h, In (fd, h) (traversal (diff st)) → visible st h = false) →
  rendered st = [].
Proof.
  unfold rendered, traversal. induction (diff st) as [|fd d IH]; [done|].
  intros Hall. cbn [flat_map]. rewrite IH.
  - rewrite filter_none; [done|]. intros h Hh. apply (Hall fd), in_or_app. left.
    by apply in_map.
  - intros fd' h Hin. apply (Hall fd'), in_or_app. by right.
Qed.

Lemma after_modal ui handler ui' :
  after ui handler = Some ui' →
  showModal ui' = showModal ui ∧ errorHead ui' = errorHead ui
  ∧ errorBody ui' = errorBody ui.
Proof.
  unfold after. destruct (bind _ _ _) as [[views|] st]; [|done].
  by intros [= <-].
Qed.

(** ** The name of the file *)

Lemma String_length_app (a b : string) :
  String.length (a +:+ b) = String.length a + String.length b.
Proof.
  induction a as [|c a IH]; [done|]. rewrite string_app_cons. cbn [String.length].
  by rewrite IH.
Qed.

Lemma substring_all (s : string) : substring 0 (String.length s) s = s.
Proof. induction s as [|c s IH]; [done|]. cbn. by rewrite IH. Qed.

Lemma substring_app_r (p suffix : string) :
  substring (String.length p) (String.length suffix) (p +:+ suffix) = suffix.
Proof.
  induction p as [|c p IH]; [apply substring_all|].
  rewrite string_app_cons. cbn [String.length substring]. apply IH.
Qed.

Lemma substring_split (s : string) : ∀ n : nat,
  (n ≤ String.length s)%nat →
  s = substring 0 n s +:+ substring n (String.length s - n) s.
Proof.
  induction s as [|c s IH]; intros n Hn.
  - cbn in Hn. assert (n = 0) as -> by lia. done.
  - destruct n as [|n].
    + cbn [substring]. rewrite string_app_nil.
      change (String.length (String c s) - 0) with (S (String.length s)).
      cbn [substring]. by rewrite substring_all.
    + cbn [String.length] in *. cbn [substring Nat.sub].
      rewrite string_app_cons. f_equal. apply IH. lia.
Qed.

Lemma endsWith_iff (s suffix : string) :
  endsWith s suffix = true ↔ ∃ p, s = p +:+ suffix.
Proof.
  unfold endsWith. cbv zeta. rewrite andb_true_iff, Nat.leb_le, String.eqb_eq. split.
  - intros [Hle Hsub].
    exists (substring 0 (String.length s - String.length suffix) s).
    pose proof (substring_split s (String.length s - String.length suffix)) as Hsplit.
    replace (String.length s - (String.length s - String.length suffix))
      with (String.length suffix) in Hsplit by lia.
    rewrite Hsub in Hsplit. apply Hsplit. lia.
  - intros [p ->]. rewrite String_length_app. split; [lia|].
    replace (String.length p + String.length suffix - String.length suffix)
      with (String.length p) by lia.
    apply substring_app_r.
Qed.

(** ** The keys of the hunk views *)

Lemma string_app_inv_head (a x y : string) : a +:+ x = a +:+ y → x = y.
Proof.
  induction a as [|c a IH]; [done|]. rewrite !string_app_cons.
  intros [= Heq]. by apply IH.
Qed.

(** Two strings with no separator in them, each followed by the
    separator and a rest. *)
Lemma string_app_sep_inj (sep : ascii) (x x' y y' : string) :
  ¬ In sep (list_ascii_of_string x) → ¬ In sep (list_ascii_of_string x') →
  x +:+ String sep y = x' +:+ String sep y' → x = x' ∧ y = y'.
Proof.
  revert x'. induction x as [|c x IH]; intros [|c' x'] Hx Hx'.
  - rewrite !string_app_nil. by intros [= ->].
  - rewrite string_app_nil, string_app_cons. intros [= <- _].
    destruct Hx'. by left.
  - rewrite string_app_nil, string_app_cons. intros [= -> _].
    destruct Hx. by left.
  - rewrite !string_app_cons. intros [= -> Heq].
    destruct (IH x') as [-> ->]; [| |done|done].
    + intros Hin. apply Hx. by right.
    + intros Hin. apply Hx'. by right.
Qed.

Lemma string_of_uint_digits (d : Decimal.uint) (c : ascii) :
  In c (list_ascii_of_string (DecimalString.NilEmpty.string_of_uint d)) →
  c ≠ "_"%char.
Proof.
  induction d as [|d IH|d IH|d IH|d IH|d IH|d IH|d IH|d IH|d IH|d IH];
    cbn [DecimalString.NilEmpty.string_of_uint list_ascii_of_string];
    [done|intros [<-|Hin]; [done|by apply IH]..].
Qed.

Lemma Number_toString_no_sep (z : Z) :
  ¬ In "_"%char (list_ascii_of_string (Number_toString z)).
Proof.
  unfold Number_toString. intros Hin.
  assert (∀ d, In "_"%char
                  (list_ascii_of_string (DecimalString.NilZero.string_of_uint d)) →
               False) as Huint.
  { intros d Hd. destruct d; cbn in Hd;
      try (destruct Hd as [Hd|Hd]; [done|]);
      try done;
      by apply string_of_uint_digits in Hd. }
  destruct (Z.to_int z) as [d|d]; cbn [DecimalString.NilZero.string_of_int] in Hin.
  - by apply Huint in Hin.
  - cbn [list_ascii_of_string] in Hin. destruct Hin as [Hin|Hin]; [done|].
    by apply Huint in Hin.
Qed.

Lemma Z_to_int_proper (z : Z) :
  Z.to_int z ≠ Decimal.Pos Decimal.Nil ∧ Z.to_int z ≠ Decimal.Neg Decimal.Nil.
Proof.
  destruct z as [|p|p]; cbn; split; try done.
  - intros [= Hp]. by apply DecimalPos.Unsigned.to_uint_nonnil in Hp.
  - intros [= Hp]. by apply DecimalPos.Unsigned.to_uint_nonnil in Hp.
Qed.

Lemma Number_toString_inj (z z' : Z) :
  Number_toString z = Number_toString z' → z = z'.
Proof.
  unfold Number_toString. intros Heq. apply DecimalZ.to_int_inj.
  destruct (Z_to_int_proper z) as [H1 H2], (Z_to_int_proper z') as [H1' H2'].
  pose proof (DecimalString.NilZero.isi _ H1 H2) as Hz.
  pose proof (DecimalString.NilZero.isi _ H1' H2') as Hz'.
  rewrite Heq in Hz. congruence.
Qed.

Lemma keys_asserted_NoDup (views : list string) : ∀ keys,
  keys_asserted keys views = true
  ↔ NoDup views ∧ ∀ key, key ∈ views → key ∉ keys.
Proof.
  induction views as [|key views IH]; intros keys; cbn [keys_asserted].
  - split; [|done]. intros _. split; [apply NoDup_nil_2|].
    by intros key []%elem_of_nil.
  - rewrite andb_true_iff, negb_true_iff, bool_decide_eq_false, IH, NoDup_cons.
    split.
    + intros (Hkey & Hnd & Hout). split_and!; [|done|].
      * intros Hin. apply (Hout key Hin). rewrite elem_of_app. right.
        apply list_elem_of_here.
      * intros k [->|Hk]%elem_of_cons; [done|].
        intros Hin. apply (Hout k Hk). rewrite elem_of_app. by left.
    + intros ((Hkey & Hnd) & Hout). split_and!; [|done|].
      * apply Hout, list_elem_of_here.
      * intros k Hk [Hin|Hin%list_elem_of_singleton]%elem_of_app.
        -- apply (Hout k); [by right|done].
        -- by subst k.
Qed.

Lemma NoDup_map_same {A B C} (f : A → B) (g : A → C) (l : list A) :
  (∀ x y, f x = f y ↔ g x = g y) → NoDup (map f l) ↔ NoDup (map g l).
Proof.
  intros Hfg. induction l as [|x l IH]; cbn [map].
  - split; intros _; apply NoDup_nil_2.
  - rewrite !NoDup_cons, IH.
    assert (f x ∈ map f l ↔ g x ∈ map g l) as Hin; [|by rewrite Hin].
    rewrite !list_elem_of_In, !in_map_iff.
    split; intros (y & Hy & Hyl); exists y; (split; [|done]); by apply Hfg.
Qed.

(** ** Keyed diffs *)

Lemma string_app_sep_in (sep : ascii) (x y : string) :
  In sep (list_ascii_of_string (x +:+ String sep y)).
Proof.
  induction x as [|c x IH]; [by left|]. rewrite string_app_cons. by right.
Qed.

(** Two strings, each followed by the separator and a rest with no
    separator in it. *)
Lemma string_app_sep_inj_r (sep : ascii) (x x' y y' : string) :
  ¬ In sep (list_ascii_of_string y) → ¬ In sep (list_ascii_of_string y') →
  x +:+ String sep y = x' +:+ String sep y' → x = x' ∧ y = y'.
Proof.
  intros Hy Hy'. revert x'. induction x as [|c x IH]; intros [|c' x'].
  - rewrite !string_app_nil. by intros [= ->].
  - rewrite string_app_nil, string_app_cons. intros [= _ ->].
    destruct Hy. apply string_app_sep_in.
  - rewrite string_app_nil, string_app_cons. intros [= _ <-].
    destruct Hy'. apply string_app_sep_in.
  - rewrite !string_app_cons. intros [= -> Heq].
    by destruct (IH x' Heq) as [-> ->].
Qed.

Lemma HunkView_key_split (UUID_text : UUID → string) st fd h :
  HunkView_key UUID_text st fd h
  = HunkView_key_head fd h
    +:+ String "_" (string_of_optional (UUID_text <$> hunkMap st !! hunk_loc h)).
Proof.
  unfold HunkView_key, HunkView_key_head.
  by rewrite !string_app_assoc.
Qed.

Lemma sublist_map {A B} (f : A → B) (l k : list A) :
  sublist l k → sublist (map f l) (map f k).
Proof. induction 1; cbn [map]; by constructor. Qed.

Lemma rendered_sublist st : sublist (rendered st) (traversal (diff st)).
Proof.
  unfold rendered, traversal. induction (diff st) as [|fd d IH]; [constructor|].
  cbn [flat_map]. apply sublist_app; [|done].
  apply sublist_map. induction (hunks fd) as [|h hs IHh]; [constructor|].
  cbn [List.filter]. destruct (visible st h); by constructor.
Qed.

(** In a keyed diff the [HunkView]s of a render have pairwise different
    keys, whatever the associations and the filter are: an id has no
    underscore in it, and neither has [undefined]. *)
Lemma keyed_render_keys (UUID_text : UUID → string) st :
  (∀ id, ¬ In "_"%char (list_ascii_of_string (UUID_text id))) →
  keyed (diff st) = true →
  NoDup (map (λ '(fd, h), HunkView_key UUID_text st fd h) (rendered st)).
Proof.
  intros Htext [_ Hheads%bool_decide_eq_true]%andb_true_iff.
  apply (sublist_NoDup _ (map (λ '(fd, h), HunkView_key UUID_text st fd h)
                              (traversal (diff st))));
    [|apply sublist_map, rendered_sublist].
  revert Hheads. generalize (traversal (diff st)) as l.
  induction l as [|[fd h] l IH]; cbn [map]; [constructor|].
  intros [Hhead Hl]%NoDup_cons. apply NoDup_cons. split; [|by apply IH].
  intros Hin. apply Hhead.
  apply list_elem_of_In, in_map_iff in Hin as ([fd' h'] & Heq & Hin).
  apply list_elem_of_In, in_map_iff. exists (fd', h'). split; [|done].
  rewrite !HunkView_key_split in Heq.
  apply string_app_sep_inj_r in Heq as [Heq _]; [done|..].
  - destruct (hunkMap st !! hunk_loc h') as [id|]; cbn; [apply Htext|].
    intros Hin'. repeat (destruct Hin' as [Hin'|Hin']; [done|]). done.
  - destruct (hunkMap st !! hunk_loc h) as [id|]; cbn; [apply Htext|].
    intros Hin'. repeat (destruct Hin' as [Hin'|Hin']; [done|]). done.
Qed.

Section Keyed_facts.

Variable parsePatch : string → option (list ParsedDiffJSON).
Variable JSON_parse : string → option Document.

Lemma run_app evs evs' ui :
  run parsePatch JSON_parse (evs ++ evs') ui
  = match run parsePatch JSON_parse evs ui with
    | Some ui' => run parsePatch JSON_parse evs' ui'
    | None => None
    end.
Proof.
  revert ui. induction evs as [|ev evs IH]; intros ui; [done|].
  cbn [app run]. by destruct (handle parsePatch JSON_parse ev ui).
Qed.

Lemma run_keyed_last evs : ∀ ui ui',
  run_keyed parsePatch JSON_parse evs ui = true →
  run parsePatch JSON_parse evs ui = Some ui' →
  keyed (diff (stores ui')) = true.
Proof.
  induction evs as [|ev evs IH]; intros ui ui'; cbn [run_keyed run].
  - intros [Hk _]%andb_true_iff [= <-]. done.
  - intros [_ Hk]%andb_true_iff.
    destruct (handle parsePatch JSON_parse ev ui) as [ui1|]; [|done].
    by apply IH.
Qed.

Lemma session_keyed_last evs ui :
  session_keyed parsePatch JSON_parse evs = true →
  session parsePatch JSON_parse evs = Some ui →
  keyed (diff (stores ui)) = true.
Proof.
  unfold session_keyed, session.
  destruct (start parsePatch JSON_parse) as [ui0|]; [|done].
  apply run_keyed_last.
Qed.

(** A load leaves a page exactly when the parser of its kind returns. *)
Lemma handle_FileRead_None fileName result ui :
  handle parsePatch JSON_parse (FileRead fileName result) ui = None
  ↔ if endsWith fileName "json" then JSON_parse result = None
    else parsePatch result = None.
Proof.
  cbn [handle].
  pose proof (diff_callback_set_diff parsePatch JSON_parse
                (mkRawData (endsWith fileName "json") result)
                (labelViews ui) (stores ui)) as Hrun.
  cbn [isJSON text] in Hrun.
  destruct (endsWith fileName "json").
  - destruct (JSON_parse result) as [doc|].
    + destruct (after_Some _ _ _ _ Hrun) as [ui' ->]. done.
    + by rewrite (after_throw _ _ _ Hrun).
  - destruct (parsePatch result) as [ds|].
    + destruct (after_Some _ _ _ _ Hrun) as [ui' ->]. done.
    + by rewrite (after_throw _ _ _ Hrun).
Qed.

Lemma diff_memo_None raw st :
  diff_memo parsePatch JSON_parse raw st = None
  ↔ if isJSON raw then JSON_parse (text raw) = None
    else parsePatch (text raw) = None.
Proof.
  pose proof (diff_callback_set_diff parsePatch JSON_parse raw tt st) as Hrun.
  unfold bind in Hrun. unfold diff_memo, in_render.
  destruct (diff_callback parsePatch JSON_parse raw st) as [[d|] st1];
    cbn in Hrun;
    (destruct (isJSON raw);
     [destruct (JSON_parse (text raw))|destruct (parsePatch (text raw))]);
    split; intros Heq; done.
Qed.

End Keyed_facts.

(** ** Properties of the page *)

(** The counts of the navbar.  The page is taken through a session in
    which every diff was keyed, so that its cards are those of the hunks
    on screen and a select writes the association of such a hunk only.
    After it the first count is the number of hunks of the diff, and the
    second, [changesCount - hunkMap.size], is the number of hunks that
    have no association: the handlers keep the associations on hunks of
    the diff that is loaded, which are pairwise different objects.  So
    the second count is never negative and never more than the first. *)
Theorem navbar_counts
    (parsePatch : string → option (list ParsedDiffJSON))
    (JSON_parse : string → option Document) (evs : list Event) (ui : UI) :
  session parsePatch JSON_parse evs = Some ui →
  session_keyed parsePatch JSON_parse evs = true →
  changesCount (stores ui) = Z.of_nat (length (traversal (diff (stores ui))))
  ∧ uncategorizedCount (stores ui) = Z.of_nat (length (uncategorized (stores ui)))
  ∧ (0 ≤ uncategorizedCount (stores ui) ≤ changesCount (stores ui))%Z.
Proof.
  intros [Hinv _]%session_inv _.
  rewrite uncategorizedCount_length, changesCount_length by done.
  pose proof (uncategorized_length (stores ui)). split_and!; try done; lia.
Qed.

Lemma navbar_counts_witness :
  let parsePatch := λ s : string,
    if String.eqb s "" then Some []
    else Some [mkParsedDiff "a" "b" [mkHunkFields 1 1 1 1 ["+x"];
                                     mkHunkFields 5 1 5 1 ["-y"]]] in
  let JSON_parse := λ _ : string, @None Document in
  let evs := [FileRead "fix.diff" "@@"; NewLabelChange "bug"; AddClick;
              SelectChange 0 1%N] in
  let ui := default blank (session parsePatch JSON_parse evs) in
  session parsePatch JSON_parse evs = Some ui
  ∧ session_keyed parsePatch JSON_parse evs = true
  ∧ (changesCount (stores ui) = Z.of_nat (length (traversal (diff (stores ui))))
     ∧ uncategorizedCount (stores ui) = Z.of_nat (length (uncategorized (stores ui)))
     ∧ (0 ≤ uncategorizedCount (stores ui) ≤ changesCount (stores ui))%Z)
  ∧ changesCount (stores ui) = 2%Z
  ∧ uncategorizedCount (stores ui) = 1%Z.
Proof.
  intros parsePatch JSON_parse evs ui. split; [vm_compute; reflexivity|].
  split; [vm_compute; reflexivity|]. split.
  - apply (navbar_counts parsePatch JSON_parse evs); vm_compute; reflexivity.
  - split; vm_compute; reflexivity.
Defined.

(** The filter buttons.  After every session of the page there is a
    [LabelView] for each label of the label map and for nothing else,
    and the filter button of a view is on exactly when the id of its
    label is in the filter. *)
Theorem filter_button_shows_filter
    (parsePatch : string → option (list ParsedDiffJSON))
    (JSON_parse : string → option Document) (evs : list Event) (ui : UI) :
  session parsePatch JSON_parse evs = Some ui →
  (∀ id, is_Some (labelViews ui !! id)
         ↔ is_Some (JSMap.get id (labelMap (stores ui))))
  ∧ (∀ id v, labelViews ui !! id = Some v →
             (LabelView.inFilter v = true ↔ id ∈ labelFilter (stores ui))).
Proof.
  intros [_ [Hviews Hsync _]]%session_inv. split; [|done].
  intros id. rewrite Hviews.
  destruct (JSMap.get id (labelMap (stores ui))) as [label|] eqn:Hid.
  - split; [by eexists|]. intros _.
    destruct (decide (id ∈ JSMap.keys (labelMap (stores ui)))) as [|Hnot]; [done|].
    apply JSMap_get_None in Hnot. congruence.
  - apply JSMap_get_None in Hid. split; [done|by intros [? [=]]].
Qed.

Lemma filter_button_shows_filter_witness :
  let parsePatch := λ _ : string, Some [] in
  let JSON_parse := λ _ : string, @None Document in
  let evs := [NewLabelChange "bug"; AddClick; NewLabelChange "doc"; AddClick;
              FilterClick 2%N; FilterClick 1%N; FilterClick 2%N] in
  let ui := default blank (session parsePatch JSON_parse evs) in
  session parsePatch JSON_parse evs = Some ui
  ∧ ((∀ id, is_Some (labelViews ui !! id)
            ↔ is_Some (JSMap.get id (labelMap (stores ui))))
     ∧ (∀ id v, labelViews ui !! id = Some v →
                (LabelView.inFilter v = true ↔ id ∈ labelFilter (stores ui))))
  ∧ labelFilter (stores ui) = {[1%N]}.
Proof.
  intros parsePatch JSON_parse evs ui. split; [vm_compute; reflexivity|]. split.
  - apply (filter_button_shows_filter parsePatch JSON_parse evs).
    vm_compute. reflexivity.
  - vm_compute. reflexivity.
Defined.

(** The header of a hunk on screen.  The page is taken through a
    session in which every diff was keyed.  Then the [HunkView]s of the
    last render have pairwise different keys (an id has no underscore in
    it), so each hunk on screen has a card of its own, rendered with the
    association the hunk has now.  A hunk that is on screen and has an
    association is associated to a label of the label map: its header
    has the class of a labelled hunk exactly when the hunk has a label
    with a text, and the class of an unlabelled one exactly when it has
    no association. *)
Theorem header_of_hunk_on_screen
    (parsePatch : string → option (list ParsedDiffJSON))
    (JSON_parse : string → option Document) (evs : list Event) (ui : UI)
    (fileDiff : ParsedDiff) (hunk : Hunk) :
  session parsePatch JSON_parse evs = Some ui →
  session_keyed parsePatch JSON_parse evs = true →
  In (fileDiff, hunk) (rendered (stores ui)) →
  let className :=
    HunkView_header_className (hunkMap (stores ui) !! hunk_loc hunk) in
  (className = "bg-success text-light"
   ↔ ∃ label, label_text (stores ui) hunk = Some label)
  ∧ (className = "bg-danger text-light"
     ↔ hunkMap (stores ui) !! hunk_loc hunk = None)
  ∧ (∀ UUID_text : UUID → string,
       (∀ id, ¬ In "_"%char (list_ascii_of_string (UUID_text id))) →
       NoDup (map (λ '(fd, h), HunkView_key UUID_text (stores ui) fd h)
                  (rendered (stores ui)))).
Proof.
  intros Hsession Hkeyed Hin.
  pose proof (session_keyed_last _ _ _ _ Hkeyed Hsession) as Hk.
  apply session_inv in Hsession as [_ [_ _ Hlive]].
  cbv zeta. unfold label_text.
  destruct (hunkMap (stores ui) !! hunk_loc hunk) as [id|] eqn:Hh.
  - apply (Hlive fileDiff hunk id Hin), JSMap_has_true in Hh as [label Hid].
    rewrite Hid. cbn. split_and!; [split; try done; by exists label|by split|].
    intros UUID_text Htext. by apply keyed_render_keys.
  - cbn. split_and!; [split; try done; by intros [? [=]]|by split|].
    intros UUID_text Htext. by apply keyed_render_keys.
Qed.

Lemma header_of_hunk_on_screen_witness :
  let parsePatch := λ s : string,
    if String.eqb s "" then Some []
    else Some [mkParsedDiff "a" "b" [mkHunkFields 1 1 1 1 ["+x"]]] in
  let JSON_parse := λ _ : string, @None Document in
  let evs := [FileRead "fix.diff" "@@"; NewLabelChange "bug"; AddClick;
              SelectChange 0 1%N; TrashClick 1%N] in
  let ui := default blank (session parsePatch JSON_parse evs) in
  let fileDiff := mkParsedDiff "a" "b" [mkHunk 0 (mkHunkFields 1 1 1 1 ["+x"])] in
  let hunk := mkHunk 0 (mkHunkFields 1 1 1 1 ["+x"]) in
  session parsePatch JSON_parse evs = Some ui
  ∧ session_keyed parsePatch JSON_parse evs = true
  ∧ In (fileDiff, hunk) (rendered (stores ui))
  ∧ (HunkView_header_className (hunkMap (stores ui) !! hunk_loc hunk)
     = "bg-danger text-light"
     ↔ hunkMap (stores ui) !! hunk_loc hunk = None).
Proof.
  intros parsePatch JSON_parse evs ui fileDiff hunk.
  split; [vm_compute; reflexivity|]. split; [vm_compute; reflexivity|].
  split; [vm_compute; by left|].
  apply (header_of_hunk_on_screen parsePatch JSON_parse evs ui fileDiff hunk).
  - vm_compute. reflexivity.
  - vm_compute. reflexivity.
  - vm_compute. by left.
Defined.

(** Two file diffs with the same names whose hunks start at the same
    line: the diff is not keyed, the two [HunkView]s of the render have
    one key, and the assertion of the render, which looks at one file
    diff at a time, holds all the same. *)
Example equal_keys_across_file_diffs :
  let UUID_text := λ id : UUID, Number_toString (Z.of_N id) in
  let d := [mkParsedDiff "a" "b" [mkHunk 0 (mkHunkFields 1 1 1 1 ["+x"])];
            mkParsedDiff "a" "b" [mkHunk 1 (mkHunkFields 1 1 1 1 ["+y"])]] in
  let st := mkState d "" [] ∅ ∅ 1%N 2 in
  keyed d = false
  ∧ map (λ '(fd, h), HunkView_key UUID_text st fd h) (rendered st)
    = ["a_b_1_undefined"; "a_b_1_undefined"]
  ∧ render_asserted UUID_text st = true.
Proof. split_and!; vm_compute; reflexivity. Qed.

(** A deleted label stays in the filter.  When the label of a view whose
    filter button is on is deleted, its id stays in the filter through
    whatever the page does afterwards: no view is left to take it out,
    and no label gets that id again.  From then on the filter is never
    empty, so a hunk with an association to an id outside the filter is
    off screen. *)
Theorem deleted_label_stays_in_filter
    (parsePatch : string → option (list ParsedDiffJSON))
    (JSON_parse : string → option Document)
    (evs evs' : list Event) (ui ui1 ui2 : UI) (L : UUID) :
  session parsePatch JSON_parse evs = Some ui →
  L ∈ labelFilter (stores ui) →
  handle parsePatch JSON_parse (TrashClick L) ui = Some ui1 →
  run parsePatch JSON_parse evs' ui1 = Some ui2 →
  L ∈ labelFilter (stores ui2)
  ∧ JSMap.get L (labelMap (stores ui2)) = None
  ∧ labelViews ui2 !! L = None
  ∧ (∀ hunk id, hunkMap (stores ui2) !! hunk_loc hunk = Some id →
                id ∉ labelFilter (stores ui2) →
                visible (stores ui2) hunk = false).
Proof.
  intros [Hinv Hview]%session_inv HL Hdel Hrun.
  assert (Store_inv (stores ui2) ∧ View_inv ui2
          ∧ L ∈ labelFilter (stores ui2)
          ∧ (L ∉ JSMap.keys (labelMap (stores ui2)))
          ∧ (L < next_uuid (stores ui2))%N) as (Hinv2 & Hview2 & HL2 & Hout2 & _).
  { assert (Store_inv (stores ui1) ∧ View_inv ui1
            ∧ L ∈ labelFilter (stores ui1)
            ∧ (L ∉ JSMap.keys (labelMap (stores ui1)))
            ∧ (L < next_uuid (stores ui1))%N) as Hstart.
    { pose proof (handle_inv _ _ _ _ _ Hinv Hview Hdel)
        as (Hinv1 & Hview1 & Hmono & _ & Hframe).
      cbn [handle] in Hdel.
      destruct (labelViews ui !! L) as [v|] eqn:Hv; [|done].
      eapply after_step in Hdel; [|done|reflexivity|done|].
      - destruct Hdel as (_ & _ & _ & _ & Hlm & _).
        assert (L ∉ JSMap.keys (labelMap (stores ui1))) as Hout.
        { rewrite Hlm. cbn [labelMap with_labelMap].
          by intros [_ ?]%JSMap_keys_remove. }
        split_and!; [done..|by apply Hframe|done|].
        destruct Hview as [Hviews _ _]. destruct Hinv as [_ _ Hbound _ _ _ _].
        assert (0 < L < next_uuid (stores ui))%N; [|lia].
        apply Hbound, Hviews. by eexists.
      - destruct Hinv as [Hpos Hnd Hbound Hhnd Hhbound Hassoc Hfb].
        split; cbn [diff labelMap hunkMap labelFilter next_uuid next_loc
                    with_labelMap]; try done.
        + by apply JSMap_NoDup_remove.
        + intros id [Hid _]%JSMap_keys_remove. by apply Hbound. }
    clear Hinv Hview HL Hdel. revert ui1 Hrun Hstart.
    induction evs' as [|ev evs' IH]; intros ui1 Hrun Hstart.
    - by injection Hrun as <-.
    - cbn [run] in Hrun.
      destruct (handle parsePatch JSON_parse ev ui1) as [ui1'|] eqn:Hev; [|done].
      apply (IH ui1' Hrun).
      destruct Hstart as (Hinv1 & Hview1 & HL1 & Hout1 & Hlt1).
      destruct (handle_inv _ _ _ _ _ Hinv1 Hview1 Hev)
        as (Hinv' & Hview' & Hmono & Hlabels & Hframe).
      assert (L ∉ JSMap.keys (labelMap (stores ui1'))) as Hout'.
      { intros [Hold|Hnew]%Hlabels; [done|lia]. }
      split_and!; [done..|by apply Hframe|done|lia]. }
  split_and!; [done|by apply JSMap_get_None| |].
  - destruct Hview2 as [Hviews _ _].
    destruct (labelViews ui2 !! L) as [v|] eqn:Hv; [|done].
    destruct Hout2. apply Hviews. by eexists.
  - intros hunk id Hh Hid. unfold visible. rewrite Hh.
    rewrite (bool_decide_eq_false_2 (size _ = 0)).
    + rewrite bool_decide_eq_true_2 by (by eexists).
      by rewrite (bool_decide_eq_false_2 (id ∈ _)).
    + intros Hsize%size_empty_iff. by rewrite Hsize in HL2; apply elem_of_empty in HL2.
Qed.

Lemma deleted_label_stays_in_filter_witness :
  let parsePatch := λ s : string,
    if String.eqb s "" then Some []
    else Some [mkParsedDiff "a" "b" [mkHunkFields 1 1 1 1 ["+x"]]] in
  let JSON_parse := λ _ : string, @None Document in
  let evs := [FileRead "fix.diff" "@@"; NewLabelChange "bug"; AddClick;
              NewLabelChange "doc"; AddClick; FilterClick 1%N] in
  let evs' := [SelectChange 0 2%N; FilterClick 2%N; FilterClick 2%N] in
  let ui := default blank (session parsePatch JSON_parse evs) in
  let ui1 := default blank (handle parsePatch JSON_parse (TrashClick 1%N) ui) in
  let ui2 := default blank (run parsePatch JSON_parse evs' ui1) in
  1%N ∈ labelFilter (stores ui2)
  ∧ JSMap.get 1%N (labelMap (stores ui2)) = None
  ∧ labelViews ui2 !! 1%N = None
  ∧ (∀ hunk id, hunkMap (stores ui2) !! hunk_loc hunk = Some id →
                id ∉ labelFilter (stores ui2) →
                visible (stores ui2) hunk = false).
Proof.
  intros parsePatch JSON_parse evs evs' ui ui1 ui2.
  apply (deleted_label_stays_in_filter parsePatch JSON_parse evs evs' ui ui1 ui2).
  - vm_compute. reflexivity.
  - eapply bool_decide_unpack. vm_compute. exact I.
  - vm_compute. reflexivity.
  - vm_compute. reflexivity.
Defined.

(** The Add button.  After every session of the page: with an empty
    text box the button changes nothing; otherwise it adds one label,
    with the text of the box and an id no label has, at the end of the
    label map, and empties the box.  The labels there were keep their
    ids, texts and order; the associations and the filter are as before;
    the view of the new label mounts with its filter button off, and the
    other views keep their state. *)
Theorem add_label_appends
    (parsePatch : string → option (list ParsedDiffJSON))
    (JSON_parse : string → option Document) (evs : list Event) (ui : UI) :
  session parsePatch JSON_parse evs = Some ui →
  let st := stores ui in
  (newLabel st = "" → handle parsePatch JSON_parse AddClick ui = Some ui)
  ∧ (newLabel st ≠ "" →
     JSMap.get (next_uuid st) (labelMap st) = None
     ∧ handle parsePatch JSON_parse AddClick ui
       = Some (mkUI (mkState (diff st) ""
                             (labelMap st ++ [(next_uuid st, newLabel st)])
                             (hunkMap st) (labelFilter st)
                             (N.succ (next_uuid st)) (next_loc st))
                    (<[next_uuid st := LabelView.mount]> (labelViews ui))
                    (showModal ui) (errorHead ui) (errorBody ui))).
Proof.
  intros [Hinv Hview]%session_inv. cbv zeta. cbn [handle]. split.
  - intros Hempty.
    assert ((addLabel ;;; ret (labelViews ui)) (stores ui)
            = (Normal (labelViews ui), stores ui)) as Hrun.
    { unfold bind, addLabel.  rewrite Hempty. reflexivity. }
    destruct (after_Some _ _ _ _ Hrun) as [ui' Hafter]. rewrite Hafter.
    destruct (after_step _ _ _ _ _ Hview Hrun eq_refl Hinv Hafter)
      as (_ & _ & _ & _ & _ & _ & _ & _ & Hm1 & Hm2 & Hm3 & _).
    destruct (after_idle _ _ _ _ Hinv Hview Hrun (λ _, eq_refl) Hafter)
      as [Hstores Hviews].
    rewrite reconcile_views in Hviews by done.
    destruct ui', ui. cbn in *. by subst.
  - intros Hne.
    pose proof Hinv as [Hpos Hnd Hbound _ _ _ Hfb].
    assert (next_uuid (stores ui) ∉ JSMap.keys (labelMap (stores ui))) as Hfresh.
    { intros Hin%Hbound. lia. }
    pose proof Hfresh as Hget%JSMap_get_None. split; [done|].
    set (st1 := mkState (diff (stores ui)) "" (labelMap (stores ui) ++ [(next_uuid (stores ui), newLabel (stores ui))])
                        (hunkMap (stores ui)) (labelFilter (stores ui))
                        (N.succ (next_uuid (stores ui))) (next_loc (stores ui))).
    assert ((addLabel ;;; ret (labelViews ui)) (stores ui)
            = (Normal (labelViews ui), st1)) as Hrun.
    { unfold bind, addLabel. 
      destruct (String.length (newLabel (stores ui)) =? 0)%nat eqn:Hlen;
        [by apply String_length_zero in Hlen|].
      unfold generateUUID, labelMapActions_set, ret, bind.
      cbn [labelMap with_next_uuid next_uuid]. by rewrite JSMap_set_absent. }
    assert (Store_inv st1) as Hinv1.
    { destruct Hinv as [? ? ? ? ? ? ?].
      split; subst st1;
        cbn [diff labelMap hunkMap labelFilter next_uuid next_loc]; try done.
      - lia.
      - rewrite JSMap_keys_app. apply NoDup_app. split_and!; [done| |].
        + intros id Hid [->|[]%elem_of_nil]%elem_of_cons. by apply Hfresh.
        + apply NoDup_singleton.
      - intros id. rewrite JSMap_keys_app, elem_of_app.
        intros [Hid%Hbound|[->|[]%elem_of_nil]%elem_of_cons]; cbn [fst]; lia.
      - intros id Hid%Hfb.  lia. }
    destruct (after_Some _ _ _ _ Hrun) as [ui' Hafter]. rewrite Hafter. f_equal.
    destruct (after_step _ _ _ _ _ Hview Hrun eq_refl Hinv1 Hafter)
      as (_ & _ & Hd & Hn & Hl & Hu & Hloc & Hviews & Hm1 & Hm2 & Hm3 & Hhm & HF).
    assert (stores ui' = st1) as Hstores.
    { apply stores_exact; try done.
      - intros id. rewrite HF. 
        destruct (decide (id = next_uuid (stores ui))) as [->|Hid].
        + unfold filter_effect. rewrite reconcile_lookup.
          rewrite bool_decide_eq_true_2.
          2:{ subst st1. cbn [labelMap]. rewrite JSMap_keys_app, elem_of_app.
              right. apply list_elem_of_here. }
          assert (labelViews ui !! next_uuid (stores ui) = None) as ->.
          { destruct Hview as [Hv _ _].
            destruct (labelViews ui !! next_uuid (stores ui)) eqn:Hq; [|done].
            destruct Hfresh. apply Hv. by eexists. }
          cbn. rewrite decide_False by done. split; [done|].
          intros Hin%Hfb.  lia.
        + rewrite filter_effect_same; [done|]. rewrite reconcile_lookup.
          subst st1. cbn [labelMap]. case_bool_decide as Hin.
          * rewrite JSMap_keys_app, elem_of_app in Hin.
            destruct Hin as [Hin|[->|[]%elem_of_nil]%elem_of_cons]; [|done].
            destruct Hview as [Hv _ _]. apply Hv in Hin as [v Hv']. 
            by rewrite Hv'.
          * destruct Hview as [Hv _ _].
            destruct (labelViews ui !! id) as [v|] eqn:Hq; [|done].
            destruct Hin. rewrite JSMap_keys_app, elem_of_app. left.
            apply Hv. by eexists.
      - intros x Hon.
        rewrite (on_screen_ext st1 (stores ui)) in Hon by done.
        pose proof (on_screen_live_stale ui x Hview Hon) as Hst.
        unfold stale in *. subst st1. cbn [labelMap hunkMap]. 
        destruct (hunkMap (stores ui) !! x) as [id|]; [|done].
        apply negb_false_iff, JSMap_has_true in Hst as [label Hst].
        apply negb_false_iff, JSMap_has_true. exists label.
        by rewrite JSMap_get_app, Hst. }
    assert (labelViews ui'
            = <[next_uuid (stores ui) := LabelView.mount]> (labelViews ui)) as Hviews'.
    { rewrite Hviews. apply map_eq. intros id. rewrite reconcile_lookup.
      subst st1. cbn [labelMap]. destruct Hview as [Hv _ _].
      destruct (decide (id = next_uuid (stores ui))) as [->|Hid].
      - rewrite lookup_insert_eq, bool_decide_eq_true_2.
        + destruct (labelViews ui !! next_uuid (stores ui)) eqn:Hq; [|done].
          destruct Hfresh. apply Hv. by eexists.
        + rewrite JSMap_keys_app, elem_of_app. right. apply list_elem_of_here.
      - rewrite lookup_insert_ne by done. case_bool_decide as Hin.
        + rewrite JSMap_keys_app, elem_of_app in Hin.
          destruct Hin as [Hin|[->|[]%elem_of_nil]%elem_of_cons]; [|done].
          apply Hv in Hin as [v Hv'].  by rewrite Hv'.
        + destruct (labelViews ui !! id) as [v|] eqn:Hq; [|done].
          destruct Hin. rewrite JSMap_keys_app, elem_of_app. left.
          apply Hv. by eexists. }
    destruct ui' as [s v m h b].
    cbn [stores labelViews showModal errorHead errorBody]
      in Hstores, Hviews', Hm1, Hm2, Hm3.
    by rewrite Hstores, Hviews', Hm1, Hm2, Hm3.
Qed.

Lemma add_label_appends_witness :
  let parsePatch := λ _ : string, Some [] in
  let JSON_parse := λ _ : string, @None Document in
  let evs := [NewLabelChange "bug"; AddClick; FilterClick 1%N; NewLabelChange "doc"] in
  let ui := default blank (session parsePatch JSON_parse evs) in
  labelMap (stores (default blank (handle parsePatch JSON_parse AddClick ui)))
  = [(1%N, "bug"); (2%N, "doc")]
  ∧ (let st := stores ui in
     (newLabel st = "" → handle parsePatch JSON_parse AddClick ui = Some ui)
     ∧ (newLabel st ≠ "" →
        JSMap.get (next_uuid st) (labelMap st) = None
        ∧ handle parsePatch JSON_parse AddClick ui
          = Some (mkUI (mkState (diff st) ""
                                (labelMap st ++ [(next_uuid st, newLabel st)])
                                (hunkMap st) (labelFilter st)
                                (N.succ (next_uuid st)) (next_loc st))
                       (<[next_uuid st := LabelView.mount]> (labelViews ui))
                       (showModal ui) (errorHead ui) (errorBody ui)))).
Proof.
  intros parsePatch JSON_parse evs ui. split; [vm_compute; reflexivity|].
  apply (add_label_appends parsePatch JSON_parse evs). vm_compute. reflexivity.
Defined.

(** The select of a hunk.  After every session of the page, choosing an
    option in the select of a hunk on screen changes the association of
    that hunk only, and neither the labels nor the filter.  The hunk is
    associated to the chosen id when that is the id of a label.  When it
    is the id of no label, as is the value of the first option, the hunk
    ends with no association if it is still on screen with that id (the
    filter is empty or holds the id), and otherwise stays associated to
    the id and goes off screen. *)
Theorem select_changes_one_hunk
    (parsePatch : string → option (list ParsedDiffJSON))
    (JSON_parse : string → option Document) (evs : list Event) (ui : UI)
    (i : nat) (fileDiff : ParsedDiff) (hunk : Hunk) (value : UUID) :
  session parsePatch JSON_parse evs = Some ui →
  rendered (stores ui) !! i = Some (fileDiff, hunk) →
  ∃ ui',
    handle parsePatch JSON_parse (SelectChange i value) ui = Some ui'
    ∧ diff (stores ui') = diff (stores ui)
    ∧ labelMap (stores ui') = labelMap (stores ui)
    ∧ labelFilter (stores ui') = labelFilter (stores ui)
    ∧ labelViews ui' = labelViews ui
    ∧ (∀ x, x ≠ hunk_loc hunk →
            hunkMap (stores ui') !! x = hunkMap (stores ui) !! x)
    ∧ (JSMap.has value (labelMap (stores ui)) = true →
       hunkMap (stores ui') !! hunk_loc hunk = Some value)
    ∧ (JSMap.has value (labelMap (stores ui)) = false →
       labelFilter (stores ui) = ∅ ∨ value ∈ labelFilter (stores ui) →
       hunkMap (stores ui') !! hunk_loc hunk = None)
    ∧ (JSMap.has value (labelMap (stores ui)) = false →
       labelFilter (stores ui) ≠ ∅ → value ∉ labelFilter (stores ui) →
       hunkMap (stores ui') !! hunk_loc hunk = Some value
       ∧ visible (stores ui') hunk = false).
Proof.
  intros [Hinv Hview]%session_inv Hi. cbn [handle]. rewrite Hi.
  set (st1 := with_hunkMap (<[hunk_loc hunk := value]> (hunkMap (stores ui)))
                           (stores ui)).
  assert ((onHunkLabelChange hunk (Some value) ;;; ret (labelViews ui)) (stores ui)
          = (Normal (labelViews ui), st1)) as Hrun by done.
  pose proof Hi as (Hfd & Hh & Hvis)%list_elem_of_lookup_2%list_elem_of_In%rendered_spec.
  assert (Store_inv st1) as Hinv1.
  { destruct Hinv as [Hpos Hnd Hbound Hhnd Hhbound Hassoc Hfb].
    split; subst st1; cbn [diff labelMap hunkMap labelFilter next_uuid next_loc
                            with_hunkMap]; try done.
    intros x. destruct (decide (x = hunk_loc hunk)) as [->|Hne].
    - intros _. apply (in_traversal_hunk_locs _ fileDiff), traversal_spec. by split.
    - rewrite lookup_insert_ne by done. apply Hassoc. }
  destruct (after_Some _ _ _ _ Hrun) as [ui' Hafter]. exists ui'.
  destruct (after_step _ _ _ _ _ Hview Hrun eq_refl Hinv1 Hafter)
    as (_ & _ & Hd & _ & Hl & _ & _ & Hviews & _ & _ & _ & Hhm & HF).
  assert (labelFilter (stores ui') = labelFilter (stores ui)) as Hfilter.
  { apply set_eq. intros id. rewrite HF.
    change (labelMap st1) with (labelMap (stores ui)).
    by rewrite (filter_idle ui (labelViews ui) id Hview eq_refl). }
  rewrite Hfilter in Hhm.
  assert (with_labelFilter (labelFilter (stores ui)) st1 = st1) as Hst1
    by (by destruct (stores ui)).
  rewrite Hst1 in Hhm.
  assert (∀ x, hunkMap (stores ui') !! x
               = if on_screen st1 x && stale (labelMap st1) (hunkMap st1) x
                 then None else hunkMap st1 !! x) as Hhm'.
  { intros x. rewrite Hhm. by rewrite orb_diag. }
  clear Hhm Hst1.
  assert (on_screen st1 (hunk_loc hunk) = visible st1 hunk) as Hon.
  { destruct (visible st1 hunk) eqn:Hv1.
    - apply on_screen_spec. exists fileDiff, hunk. split; [|done].
      apply rendered_spec. by split_and!.
    - destruct (on_screen st1 (hunk_loc hunk)) eqn:Hon; [|done].
      apply on_screen_spec in Hon as (fd & h & (_ & _ & Hv)%rendered_spec & Hloc).
      by rewrite (visible_loc st1 h hunk Hloc), Hv1 in Hv. }
  assert (hunkMap st1 !! hunk_loc hunk = Some value) as Hset
    by (subst st1; cbn [hunkMap with_hunkMap]; apply lookup_insert_eq).
  split_and!; try done.
  - rewrite Hviews. by apply reconcile_views.
  - intros x Hx. rewrite Hhm'.
    assert (hunkMap st1 !! x = hunkMap (stores ui) !! x) as Hsame
      by (subst st1; cbn [hunkMap with_hunkMap]; by rewrite lookup_insert_ne).
    rewrite (on_screen_ext st1 (stores ui) x) by done.
    unfold stale. rewrite Hsame.
    change (labelMap st1) with (labelMap (stores ui)).
    destruct (on_screen (stores ui) x) eqn:Hon'; [|done].
    pose proof (on_screen_live_stale ui x Hview Hon') as Hst.
    unfold stale in Hst. by rewrite Hst.
  - intros Hlive. rewrite Hhm'. unfold stale. rewrite Hset.
    change (labelMap st1) with (labelMap (stores ui)). rewrite Hlive.
    by rewrite andb_false_r.
  - intros Hdead Hshown. rewrite Hhm'. unfold stale. rewrite Hset.
    change (labelMap st1) with (labelMap (stores ui)). rewrite Hdead, Hon.
    assert (visible st1 hunk = true) as ->; [|done].
    apply visible_true_iff. destruct Hshown as [?|?]; [by left|].
    right. right. by exists value.
  - intros Hdead Hne Hout.
    assert (visible st1 hunk = false) as Hhidden.
    { destruct (visible st1 hunk) eqn:Hv1; [|done].
      apply visible_true_iff in Hv1 as [?|[Hnone|(id & Hid & Hin)]]; [done|..].
      - by rewrite Hset in Hnone.
      - rewrite Hset in Hid. by injection Hid as <-. }
    assert (hunkMap (stores ui') !! hunk_loc hunk = Some value) as Hkept.
    { rewrite Hhm', Hon, Hhidden. done. }
    split; [done|].
    destruct (visible (stores ui') hunk) eqn:Hv'; [|done].
    apply visible_true_iff in Hv' as [Hnil|[Hnone|(id & Hid & Hin)]].
    + by rewrite Hfilter in Hnil.
    + by rewrite Hkept in Hnone.
    + rewrite Hkept in Hid. injection Hid as <-. by rewrite Hfilter in Hin.
Qed.

Lemma select_changes_one_hunk_witness :
  let parsePatch := λ s : string,
    if String.eqb s "" then Some []
    else Some [mkParsedDiff "a" "b" [mkHunkFields 1 1 1 1 ["+x"];
                                     mkHunkFields 5 1 5 1 ["-y"]]] in
  let JSON_parse := λ _ : string, @None Document in
  let evs := [FileRead "fix.diff" "@@"; NewLabelChange "bug"; AddClick;
              SelectChange 0 1%N; FilterClick 1%N] in
  let ui := default blank (session parsePatch JSON_parse evs) in
  let hunk := mkHunk 1 (mkHunkFields 5 1 5 1 ["-y"]) in
  let ui0 := default blank (handle parsePatch JSON_parse (SelectChange 1 7%N) ui) in
  hunkMap (stores ui0) !! 1 = Some 7%N
  ∧ visible (stores ui0) hunk = false
  ∧ ∃ ui',
      handle parsePatch JSON_parse (SelectChange 1 7%N) ui = Some ui'
      ∧ diff (stores ui') = diff (stores ui)
      ∧ labelMap (stores ui') = labelMap (stores ui)
      ∧ labelFilter (stores ui') = labelFilter (stores ui)
      ∧ labelViews ui' = labelViews ui
      ∧ (∀ x, x ≠ hunk_loc hunk →
              hunkMap (stores ui') !! x = hunkMap (stores ui) !! x)
      ∧ (JSMap.has 7%N (labelMap (stores ui)) = true →
         hunkMap (stores ui') !! hunk_loc hunk = Some 7%N)
      ∧ (JSMap.has 7%N (labelMap (stores ui)) = false →
         labelFilter (stores ui) = ∅ ∨ 7%N ∈ labelFilter (stores ui) →
         hunkMap (stores ui') !! hunk_loc hunk = None)
      ∧ (JSMap.has 7%N (labelMap (stores ui)) = false →
         labelFilter (stores ui) ≠ ∅ → 7%N ∉ labelFilter (stores ui) →
         hunkMap (stores ui') !! hunk_loc hunk = Some 7%N
         ∧ visible (stores ui') hunk = false).
Proof.
  intros parsePatch JSON_parse evs ui hunk ui0.
  split; [vm_compute; reflexivity|]. split; [vm_compute; reflexivity|].
  apply (select_changes_one_hunk parsePatch JSON_parse evs ui 1
           (mkParsedDiff "a" "b" [mkHunk 0 (mkHunkFields 1 1 1 1 ["+x"]); hunk])
           hunk 7%N).
  - vm_compute. reflexivity.
  - vm_compute. reflexivity.
Defined.

(** Editing a label.  After every session of the page, the pencil
    button of a label writes no store.  Saving right away writes the
    text the label has and leaves the stores as they were; typing and
    then cancelling leaves them as they were, too; typing and then
    saving gives the label the text typed, in its place, whatever the
    text is, the empty text included. *)
Theorem edit_then_save_or_abort
    (parsePatch : string → option (list ParsedDiffJSON))
    (JSON_parse : string → option Document) (evs : list Event) (ui ui1 : UI)
    (L : UUID) :
  session parsePatch JSON_parse evs = Some ui →
  handle parsePatch JSON_parse (EditClick L) ui = Some ui1 →
  stores ui1 = stores ui
  ∧ (∀ ui2, handle parsePatch JSON_parse (SaveClick L) ui1 = Some ui2 →
            stores ui2 = stores ui)
  ∧ (∀ value ui2 ui3,
       handle parsePatch JSON_parse (EditChange L value) ui1 = Some ui2 →
       handle parsePatch JSON_parse (AbortClick L) ui2 = Some ui3 →
       stores ui2 = stores ui ∧ stores ui3 = stores ui)
  ∧ (∀ value ui2 ui3,
       handle parsePatch JSON_parse (EditChange L value) ui1 = Some ui2 →
       handle parsePatch JSON_parse (SaveClick L) ui2 = Some ui3 →
       labelMap (stores ui3) = JSMap.set L value (labelMap (stores ui))
       ∧ JSMap.keys (labelMap (stores ui3)) = JSMap.keys (labelMap (stores ui))
       ∧ JSMap.get L (labelMap (stores ui3)) = Some value).
Proof.
  intros [Hinv Hview]%session_inv Hedit.
  pose proof (handle_inv _ _ _ _ _ Hinv Hview Hedit) as (Hinv1 & Hview1 & _).
  cbn [handle] in Hedit.
  destruct (JSMap.get L (labelMap (stores ui))) as [label|] eqn:Hlabel; [|done].
  apply (on_LabelView_idle ui L false (LabelView.startEdit label)) in Hedit
    as (v & Hv & Hmode & Hstores1 & Hviews1); [|done..].
  assert (labelViews ui1 !! L = Some (LabelView.startEdit label v)) as Hv1
    by (by rewrite Hviews1, lookup_insert_eq).
  split_and!; [done| | |].
  - intros ui2 Hsave. cbn [handle] in Hsave. unfold on_LabelView in Hsave.
    rewrite Hv1 in Hsave. cbn [LabelView.editMode LabelView.startEdit] in Hsave.
    rewrite bool_decide_eq_true_2 in Hsave by done.
    eapply after_idle in Hsave; [|done|done| |].
    + destruct Hsave as [-> _]. done.
    + unfold LabelView.commitEdit, changeLabel, labelMapActions_set, ret, bind.
      cbn [LabelView.newLabel LabelView.startEdit].
      rewrite Hstores1, JSMap_set_same by done.
      assert (with_labelMap (labelMap (stores ui)) (stores ui) = stores ui) as ->
        by (by destruct (stores ui)).
      reflexivity.
    + intros id. destruct (decide (id = L)) as [->|Hne].
      * by rewrite lookup_insert_eq, Hv1.
      * by rewrite lookup_insert_ne.
  - intros value ui2 ui3 Hchange Habort.
    pose proof (handle_inv _ _ _ _ _ Hinv1 Hview1 Hchange) as (Hinv2 & Hview2 & _).
    cbn [handle] in Hchange, Habort.
    apply (on_LabelView_idle ui1 L true (LabelView.setNewLabel value)) in Hchange
      as (_ & _ & _ & Hstores2 & _); [|done..].
    apply (on_LabelView_idle ui2 L true LabelView.abortEdit) in Habort
      as (_ & _ & _ & Hstores3 & _); [|done..].
    split; congruence.
  - intros value ui2 ui3 Hchange Hsave.
    pose proof (handle_inv _ _ _ _ _ Hinv1 Hview1 Hchange) as (Hinv2 & Hview2 & _).
    cbn [handle] in Hchange, Hsave.
    apply (on_LabelView_idle ui1 L true (LabelView.setNewLabel value)) in Hchange
      as (w & Hw & _ & Hstores2 & Hviews2); [|done..].
    rewrite Hv1 in Hw. injection Hw as <-.
    unfold on_LabelView in Hsave. rewrite Hviews2, lookup_insert_eq in Hsave.
    cbn [LabelView.editMode LabelView.setNewLabel LabelView.startEdit] in Hsave.
    rewrite bool_decide_eq_true_2 in Hsave by done.
    edestruct (after_run ui2) as (hm & F & Heq & _); [|rewrite Heq in Hsave].
    { unfold LabelView.commitEdit, changeLabel, labelMapActions_set, ret, bind.
      reflexivity. }
    injection Hsave as <-. cbn [stores labelMap with_labelMap LabelView.newLabel
                                LabelView.setNewLabel].
    rewrite Hstores2, Hstores1. split_and!; [done| |apply JSMap_get_set_eq].
    rewrite JSMap_keys_set.
    assert (JSMap.has L (labelMap (stores ui)) = true) as ->; [|done].
    apply JSMap_has_true. by eexists.
Qed.

Lemma edit_then_save_or_abort_witness :
  let parsePatch := λ _ : string, Some [] in
  let JSON_parse := λ _ : string, @None Document in
  let evs := [NewLabelChange "bug"; AddClick; NewLabelChange "doc"; AddClick] in
  let ui := default blank (session parsePatch JSON_parse evs) in
  let ui1 := default blank (handle parsePatch JSON_parse (EditClick 1%N) ui) in
  let ui2 := default blank (handle parsePatch JSON_parse (EditChange 1%N "") ui1) in
  let ui3 := default blank (handle parsePatch JSON_parse (SaveClick 1%N) ui2) in
  labelMap (stores ui3) = [(1%N, ""); (2%N, "doc")]
  ∧ stores ui1 = stores ui
  ∧ (∀ ui2, handle parsePatch JSON_parse (SaveClick 1%N) ui1 = Some ui2 →
            stores ui2 = stores ui).
Proof.
  intros parsePatch JSON_parse evs ui ui1 ui2 ui3.
  split; [vm_compute; reflexivity|].
  destruct (edit_then_save_or_abort parsePatch JSON_parse evs ui ui1 1%N)
    as (H1 & H2 & _); [vm_compute; reflexivity..|].
  by split.
Defined.

(** C3, as the code has it.  The callback of [useMemo] runs in the
    render of [App], and nothing catches what a parser throws.  When the
    parser of the file's kind ([JSON.parse] for a name that ends in
    [json], [parsePatch] for another) throws on the text, the callback
    returns no diff, partial or whole, and the render throws: the reset
    of the Association Store that the callback had requested is not
    applied, and the page is unmounted.  So no stores are left, changed
    or unchanged, and whatever the events after it are, the session has
    no page.  When the parser returns (for [JSON.parse], a value of the
    type the source declares for [data]), the load leaves a page. *)
Theorem failed_load_leaves_no_page
    (parsePatch : string → option (list ParsedDiffJSON))
    (JSON_parse : string → option Document)
    (fileName result : string) (ui : UI) :
  let raw := mkRawData (endsWith fileName "json") result in
  let rejected :=
    if isJSON raw then JSON_parse result = None else parsePatch result = None in
  (diff_memo parsePatch JSON_parse raw (stores ui) = None ↔ rejected)
  ∧ (load parsePatch JSON_parse raw (stores ui) = None ↔ rejected)
  ∧ (handle parsePatch JSON_parse (FileRead fileName result) ui = None ↔ rejected)
  ∧ (rejected →
     ∀ evs, run parsePatch JSON_parse (FileRead fileName result :: evs) ui = None)
  ∧ (rejected →
     ∀ before evs,
       session parsePatch JSON_parse before = Some ui →
       session parsePatch JSON_parse (before ++ FileRead fileName result :: evs)
       = None).
Proof.
  cbv zeta. cbn [isJSON].
  pose proof (handle_FileRead_None parsePatch JSON_parse fileName result ui) as Hev.
  split_and!.
  - apply (diff_memo_None parsePatch JSON_parse
             (mkRawData (endsWith fileName "json") result)).
  - destruct (endsWith fileName "json").
    + rewrite load_json. by destruct (JSON_parse result).
    + rewrite load_patch. by destruct (parsePatch result).
  - done.
  - intros Hrej%Hev evs. cbn [run]. by rewrite Hrej.
  - intros Hrej%Hev before evs. unfold session.
    destruct (start parsePatch JSON_parse) as [ui0|]; [|done].
    intros Hrun. rewrite run_app, Hrun. cbn [run]. by rewrite Hrej.
Qed.

(** C3 as stated fails: the page holds a label, a hunk associated to it
    and the label in the filter; a file named [notes.json] is read whose
    text, an opening brace, is no JSON.  After the load there is no page
    and there are no stores: they are not left as they were. *)
Lemma failed_load_unmounts_page :
  let patch :=
    "--- a" +:+ String newline "+++ b" +:+ String newline "@@ -1,1 +1,1 @@"
    +:+ String newline "-x" +:+ String newline "+y" in
  let parsePatch := λ s : string,
    if String.eqb s patch
    then Some [mkParsedDiff "a" "b" [mkHunkFields 1 1 1 1 ["-x"; "+y"]]]
    else Some [] in
  let JSON_parse := λ s : string,
    if String.eqb s "{}" then Some ([] : Document) else None in
  let evs := [FileRead "fix.diff" patch; NewLabelChange "bug"; AddClick;
              SelectChange 0 1%N; FilterClick 1%N] in
  let ui := default blank (session parsePatch JSON_parse evs) in
  session parsePatch JSON_parse evs = Some ui
  ∧ labelMap (stores ui) = [(1%N, "bug")]
  ∧ hunkMap (stores ui) = {[0 := 1%N]}
  ∧ labelFilter (stores ui) = {[1%N]}
  ∧ JSON_parse "{" = None
  ∧ handle parsePatch JSON_parse (FileRead "notes.json" "{") ui = None
  ∧ ¬ ∃ ui',
        handle parsePatch JSON_parse (FileRead "notes.json" "{") ui = Some ui'
        ∧ labelMap (stores ui') = labelMap (stores ui)
        ∧ hunkMap (stores ui') = hunkMap (stores ui)
        ∧ labelFilter (stores ui') = labelFilter (stores ui).
Proof.
  intros patch parsePatch JSON_parse evs ui.
  assert (handle parsePatch JSON_parse (FileRead "notes.json" "{") ui = None)
    as Hnone by (vm_compute; reflexivity).
  split_and!; try (vm_compute; reflexivity).
  intros (ui' & Hev & _). rewrite Hnone in Hev. discriminate.
Qed.

(** The error modal.  A read error of the file input opens the modal,
    with the name of the error as its title and, as its body, the lines
    of the message of the error followed by the lines of its stack, or
    by the one line [undefined] when the error has no stack; an event
    without an error object shows [Error] and [Unknown error].  The
    stores are not touched.  No other event opens the modal: a file whose
    text does not parse leaves no page, since the exception of the parser
    is thrown in the render and nothing catches it. *)
Theorem read_error_opens_modal
    (parsePatch : string → option (list ParsedDiffJSON))
    (JSON_parse : string → option Document)
    (error : option Error) (newErrorStack : option string) (ui : UI) :
  let e := default (mkError "Error" "Unknown error" newErrorStack) error in
  (∃ ui',
     handle parsePatch JSON_parse (FileReadError error newErrorStack) ui = Some ui'
     ∧ showModal ui' = true
     ∧ errorHead ui' = name e
     ∧ Modal_body ui'
       = split newline (message e) ++ split newline (string_of_optional (stack e))
     ∧ stores ui' = stores ui
     ∧ labelViews ui' = labelViews ui)
  ∧ (∀ ev ui', handle parsePatch JSON_parse ev ui = Some ui' →
               showModal ui' = true →
               showModal ui = true ∨ ∃ error' stack', ev = FileReadError error' stack')
  ∧ (∀ fileName result,
       (if endsWith fileName "json" then JSON_parse result = None
        else parsePatch result = None) →
       handle parsePatch JSON_parse (FileRead fileName result) ui = None).
Proof.
  cbv zeta. split_and!.
  - eexists. split; [reflexivity|]. unfold showError, Modal_body.
    cbn [showModal errorHead errorBody stores labelViews].
    split_and!; try done. apply split_app.
  - intros ev ui' Hev Hshown.
    destruct ev; cbn [handle] in Hev;
      try (right; by eexists _, _);
      left; rewrite <- Hshown.
    + by apply after_modal in Hev as (-> & _).
    + by injection Hev as <-.
    + by apply after_modal in Hev as (-> & _).
    + by apply after_modal in Hev as (-> & _).
    + destruct (rendered (stores ui) !! i) as [[? ?]|]; [|done].
      by apply after_modal in Hev as (-> & _).
    + unfold on_LabelView in Hev. destruct (labelViews ui !! labelId); [|done].
      case_bool_decide; [|done]. by apply after_modal in Hev as (-> & _).
    + destruct (JSMap.get labelId (labelMap (stores ui))); [|done].
      unfold on_LabelView in Hev. destruct (labelViews ui !! labelId); [|done].
      case_bool_decide; [|done]. by apply after_modal in Hev as (-> & _).
    + unfold on_LabelView in Hev. destruct (labelViews ui !! labelId); [|done].
      case_bool_decide; [|done]. by apply after_modal in Hev as (-> & _).
    + unfold on_LabelView in Hev. destruct (labelViews ui !! labelId); [|done].
      case_bool_decide; [|done]. by apply after_modal in Hev as (-> & _).
    + unfold on_LabelView in Hev. destruct (labelViews ui !! labelId); [|done].
      case_bool_decide; [|done]. by apply after_modal in Hev as (-> & _).
    + destruct (labelViews ui !! labelId); [|done].
      by apply after_modal in Hev as (-> & _).
  - intros fileName result Hparse. cbn [handle].
    pose proof (diff_callback_set_diff parsePatch JSON_parse
                  (mkRawData (endsWith fileName "json") result)
                  (labelViews ui) (stores ui)) as Hrun.
    cbn [isJSON text] in Hrun.
    destruct (endsWith fileName "json"); rewrite Hparse in Hrun;
      by rewrite (after_throw _ _ _ Hrun).
Qed.

(** Loading a document.  After every session of the page, reading a
    file whose name ends in [json] and whose text parses to a document
    leaves the stores as the importer leaves them.  Every hunk of the new
    diff has an association, those under the key [undefined] too, so the
    count of uncategorized changes is 0.  The views of the labels are new
    and their filter buttons off, but the filter is the one before the
    load: if it was not empty, it holds ids of labels that are gone, and
    no hunk of the document is on screen. *)
Theorem load_document_on_page
    (parsePatch : string → option (list ParsedDiffJSON))
    (JSON_parse : string → option Document) (evs : list Event) (ui : UI)
    (fileName result : string) (doc : Document) :
  session parsePatch JSON_parse evs = Some ui →
  endsWith fileName "json" = true →
  JSON_parse result = Some doc →
  ∃ ui',
    handle parsePatch JSON_parse (FileRead fileName result) ui = Some ui'
    ∧ stores ui' = exec (importDocument doc) (stores ui)
    ∧ changesCount (stores ui') = Z.of_nat (count_entries doc)
    ∧ uncategorizedCount (stores ui') = 0%Z
    ∧ labelFilter (stores ui') = labelFilter (stores ui)
    ∧ (∀ id v, labelViews ui' !! id = Some v → v = LabelView.mount)
    ∧ (labelFilter (stores ui) = ∅ →
       rendered (stores ui') = traversal (diff (stores ui')))
    ∧ (labelFilter (stores ui) ≠ ∅ → rendered (stores ui') = []).
Proof.
  intros [Hinv Hview]%session_inv Hname Hparse. cbn [handle]. rewrite Hname.
  pose proof (diff_callback_set_diff parsePatch JSON_parse (mkRawData true result)
                (labelViews ui) (stores ui)) as Hrun.
  cbn [isJSON text] in Hrun. rewrite Hparse in Hrun.
  destruct (Store_inv_importDocument doc (stores ui) Hinv)
    as (_ & Hinv1 & Hfilter1 & Hmono & Hfresh).
  destruct (importDocument_run doc (stores ui)) as (hm & Himp & Hout & Hassoc & Hlive).
  cbv zeta in Himp, Hout, Hassoc, Hlive.
  set (st1 := exec (importDocument doc) (stores ui)) in *.
  assert (st1 = (importDocument doc (stores ui)).2) as Hst1 by done.
  rewrite Himp in Hst1. cbn [snd] in Hst1.
  destruct (after_Some _ _ _ _ Hrun) as [ui' Hafter]. exists ui'.
  destruct (after_step _ _ _ _ _ Hview Hrun Hfilter1 Hinv1 Hafter)
    as (Hinv' & _ & Hd & Hn & Hl & Hu & Hloc & Hviews & _ & _ & _ & Hhm & HF).
  assert (∀ id, id ∈ JSMap.keys (labelMap st1) → labelViews ui !! id = None)
    as Hnew.
  { intros id Hid%Hfresh. destruct (labelViews ui !! id) as [v|] eqn:Hv; [|done].
    destruct Hview as [Hviews0 _ _], Hinv as [_ _ Hbound _ _ _ _].
    assert (0 < id < next_uuid (stores ui))%N; [|lia].
    apply Hbound, Hviews0. by eexists. }
  assert (∀ fd h, In (fd, h) (traversal (diff st1)) →
                  ∃ id, hunkMap st1 !! hunk_loc h = Some id
                        ∧ id ∈ JSMap.keys (labelMap st1)) as Hall.
  { intros fd h Hin. rewrite Hst1 in Hin |- *. cbn [diff hunkMap labelMap] in *.
    rewrite traversal_flat_map in Hin.
    apply in_flat_map in Hin as ([label pds] & Hentry & Hin).
    destruct (Hassoc label pds fd h Hentry Hin) as (id & Hh & Hid).
    exists id. split; [done|].
    destruct (decide (id ∈ JSMap.keys (import_labels (next_uuid (stores ui))
                                        (alloc_entries (next_loc (stores ui)) doc))))
      as [|Hnot]; [done|]. apply JSMap_get_None in Hnot. congruence. }
  assert (stores ui' = st1) as Hstores.
  { apply stores_exact; try done.
    - intros id. rewrite HF, <- Hfilter1. unfold filter_effect.
      rewrite reconcile_lookup. case_bool_decide as Hid; [|done].
      rewrite (Hnew id Hid). cbn. rewrite decide_False by done.
      split; [done|]. intros Hin. rewrite Hfilter1 in Hin.
      destruct Hinv as [_ _ _ _ _ _ Hfb]. apply Hfb in Hin.
      apply Hfresh in Hid. lia.
    - intros x _. unfold stale. destruct (hunkMap st1 !! x) as [id|] eqn:Hx; [|done].
      rewrite Hst1 in Hx |- *. cbn [hunkMap labelMap] in *.
      apply Hlive, JSMap_has_true in Hx. by rewrite Hx. }
  assert (uncategorized st1 = []) as Hnone.
  { unfold uncategorized. apply filter_none. intros [fd h] Hin.
    destruct (Hall fd h Hin) as (id & Hh & _). by rewrite Hh. }
  split_and!; try done.
  - rewrite Hstores, changesCount_length.
    rewrite <- (length_map (λ '(_, hunk), hunk_loc hunk)).
    fold (hunk_locs (diff st1)). rewrite Hst1. cbn [diff].
    by rewrite alloc_entries_locs, length_seq.
  - rewrite Hstores, uncategorizedCount_length, Hnone by (by rewrite <- Hstores).
    done.
  - by rewrite Hstores.
  - intros id v. rewrite Hviews, reconcile_lookup. case_bool_decide as Hid; [|done].
    rewrite (Hnew id Hid). by intros [= <-].
  - intros Hempty. rewrite Hstores. apply rendered_all. intros fd h _.
    apply visible_true_iff. left. by rewrite Hfilter1.
  - intros Hne. rewrite Hstores. apply rendered_none. intros fd h Hin.
    destruct (Hall fd h Hin) as (id & Hh & Hid).
    destruct (visible st1 h) eqn:Hv; [|done].
    apply visible_true_iff in Hv as [Hnil|[Hnone'|(id' & Hh' & Hin')]].
    + by rewrite Hfilter1 in Hnil.
    + congruence.
    + rewrite Hh in Hh'. injection Hh' as <-. rewrite Hfilter1 in Hin'.
      destruct Hinv as [_ _ _ _ _ _ Hfb]. apply Hfb in Hin'.
      apply Hfresh in Hid. lia.
Qed.

Lemma load_document_on_page_witness :
  let doc : Document :=
    [("undefined", [mkParsedDiff "a" "b" [mkHunkFields 1 1 1 1 ["+x"]]]);
     ("bug", [mkParsedDiff "a" "b" [mkHunkFields 5 1 5 1 ["-y"]]])] in
  let parsePatch := λ _ : string, Some [] in
  let JSON_parse := λ _ : string, Some doc in
  let evs := [NewLabelChange "old"; AddClick; FilterClick 1%N] in
  let ui := default blank (session parsePatch JSON_parse evs) in
  labelFilter (stores ui) ≠ ∅
  ∧ ∃ ui',
      handle parsePatch JSON_parse (FileRead "annotated_diff.json" "{}") ui = Some ui'
      ∧ stores ui' = exec (importDocument doc) (stores ui)
      ∧ changesCount (stores ui') = Z.of_nat (count_entries doc)
      ∧ uncategorizedCount (stores ui') = 0%Z
      ∧ labelFilter (stores ui') = labelFilter (stores ui)
      ∧ (∀ id v, labelViews ui' !! id = Some v → v = LabelView.mount)
      ∧ (labelFilter (stores ui) = ∅ →
         rendered (stores ui') = traversal (diff (stores ui')))
      ∧ (labelFilter (stores ui) ≠ ∅ → rendered (stores ui') = []).
Proof.
  intros doc parsePatch JSON_parse evs ui. split.
  - intros Hempty. assert (1%N ∈ labelFilter (stores ui)) as Hin
      by (eapply bool_decide_unpack; vm_compute; exact I).
    rewrite Hempty in Hin. by apply elem_of_empty in Hin.
  - apply (load_document_on_page parsePatch JSON_parse evs ui
             "annotated_diff.json" "{}" doc); vm_compute; reflexivity.
Defined.

(** Loading a patch.  After every session of the page, reading a file
    whose name does not end in [json] and whose text [parsePatch]
    accepts puts the parsed file diffs in place as new objects and
    empties the associations.  The labels, their views with the state
    they have, and the filter stay as they are.  No hunk has an
    association, so every hunk of the new diff is on screen, whatever the
    filter holds, and both counts of the navbar are the number of
    hunks. *)
Theorem load_patch_on_page
    (parsePatch : string → option (list ParsedDiffJSON))
    (JSON_parse : string → option Document) (evs : list Event) (ui : UI)
    (fileName result : string) (ds : list ParsedDiffJSON) :
  session parsePatch JSON_parse evs = Some ui →
  endsWith fileName "json" = false →
  parsePatch result = Some ds →
  ∃ ui',
    handle parsePatch JSON_parse (FileRead fileName result) ui = Some ui'
    ∧ stores ui'
      = mkState (alloc_diffs (next_loc (stores ui)) ds) (newLabel (stores ui))
                (labelMap (stores ui)) ∅ (labelFilter (stores ui))
                (next_uuid (stores ui)) (next_loc (stores ui) + count_hunks ds)
    ∧ labelViews ui' = labelViews ui
    ∧ map JSON_of_diff (diff (stores ui')) = ds
    ∧ rendered (stores ui') = traversal (diff (stores ui'))
    ∧ changesCount (stores ui') = Z.of_nat (count_hunks ds)
    ∧ uncategorizedCount (stores ui') = Z.of_nat (count_hunks ds).
Proof.
  intros [Hinv Hview]%session_inv Hname Hparse. cbn [handle]. rewrite Hname.
  pose proof (diff_callback_set_diff parsePatch JSON_parse (mkRawData false result)
                (labelViews ui) (stores ui)) as Hrun.
  cbn [isJSON text] in Hrun. rewrite Hparse in Hrun.
  set (st1 := mkState _ _ _ _ _ _ _) in *.
  pose proof (Store_inv_patch (stores ui) ds Hinv) as Hinv1. fold st1 in Hinv1.
  destruct (after_Some _ _ _ _ Hrun) as [ui' Hafter]. exists ui'.
  destruct (after_step _ _ _ _ _ Hview Hrun eq_refl Hinv1 Hafter)
    as (_ & _ & Hd & Hn & Hl & Hu & Hloc & Hviews & _ & _ & _ & Hhm & HF).
  assert (stores ui' = st1) as Hstores.
  { apply stores_exact; try done.
    intros id. rewrite HF. change (labelMap st1) with (labelMap (stores ui)).
    by rewrite (filter_idle ui (labelViews ui) id Hview eq_refl). }
  assert (length (traversal (diff st1)) = count_hunks ds) as Hlen.
  { rewrite <- (length_map (λ '(_, hunk), hunk_loc hunk)).
    fold (hunk_locs (diff st1)). subst st1. cbn [diff].
    by rewrite alloc_diffs_locs, length_seq. }
  assert (uncategorized st1 = traversal (diff st1)) as Hunc.
  { unfold uncategorized. apply filter_all. intros [fd h] _.
    subst st1. cbn [hunkMap]. by rewrite lookup_empty. }
  split_and!; try done.
  - rewrite Hviews. change (labelMap st1) with (labelMap (stores ui)).
    by apply reconcile_views.
  - rewrite Hstores. subst st1. cbn [diff]. apply JSON_of_alloc_diffs.
  - rewrite Hstores. apply rendered_all. intros fd h _.
    apply visible_true_iff. right. left. subst st1. cbn [hunkMap].
    apply lookup_empty.
  - by rewrite Hstores, changesCount_length, Hlen.
  - rewrite Hstores, uncategorizedCount_length, Hunc, Hlen by done. done.
Qed.

Lemma load_patch_on_page_witness :
  let ds := [mkParsedDiff "a" "b" [mkHunkFields 1 1 1 1 ["+x"];
                                   mkHunkFields 5 1 5 1 ["-y"]]] in
  let parsePatch := λ s : string, if String.eqb s "" then Some [] else Some ds in
  let JSON_parse := λ _ : string, @None Document in
  let evs := [NewLabelChange "bug"; AddClick; FilterClick 1%N] in
  let ui := default blank (session parsePatch JSON_parse evs) in
  labelFilter (stores ui) = {[1%N]}
  ∧ ∃ ui',
      handle parsePatch JSON_parse (FileRead "json.diff" "@@") ui = Some ui'
      ∧ stores ui'
        = mkState (alloc_diffs (next_loc (stores ui)) ds) (newLabel (stores ui))
                  (labelMap (stores ui)) ∅ (labelFilter (stores ui))
                  (next_uuid (stores ui)) (next_loc (stores ui) + count_hunks ds)
      ∧ labelViews ui' = labelViews ui
      ∧ map JSON_of_diff (diff (stores ui')) = ds
      ∧ rendered (stores ui') = traversal (diff (stores ui'))
      ∧ changesCount (stores ui') = Z.of_nat (count_hunks ds)
      ∧ uncategorizedCount (stores ui') = Z.of_nat (count_hunks ds).
Proof.
  intros ds parsePatch JSON_parse evs ui. split; [vm_compute; reflexivity|].
  apply (load_patch_on_page parsePatch JSON_parse evs ui "json.diff" "@@" ds);
    vm_compute; reflexivity.
Defined.

(** The kind of a file.  A file is read as a document exactly when its
    name ends with the four characters [json], in lower case and with or
    without a dot before them; then [parsePatch] is not called, and
    otherwise [JSON.parse] is not. *)
Theorem file_kind_by_name
    (parsePatch parsePatch' : string → option (list ParsedDiffJSON))
    (JSON_parse JSON_parse' : string → option Document)
    (fileName result : string) (ui : UI) :
  ((∃ base, fileName = base +:+ "json") →
   handle parsePatch JSON_parse (FileRead fileName result) ui
   = handle parsePatch' JSON_parse (FileRead fileName result) ui)
  ∧ ((¬ ∃ base, fileName = base +:+ "json") →
     handle parsePatch JSON_parse (FileRead fileName result) ui
     = handle parsePatch JSON_parse' (FileRead fileName result) ui)
  ∧ (∀ base, endsWith (base +:+ ".json") "json" = true
             ∧ endsWith (base +:+ "json") "json" = true
             ∧ endsWith (base +:+ ".JSON") "json" = false
             ∧ endsWith (base +:+ ".diff") "json" = false).
Proof.
  split_and!.
  - intros Hname%endsWith_iff. cbn [handle]. unfold diff_callback. cbn [isJSON text].
    by rewrite Hname.
  - intros Hname. cbn [handle]. unfold diff_callback. cbn [isJSON text].
    destruct (endsWith fileName "json") eqn:Hends; [|done].
    by apply endsWith_iff in Hends.
  - intros base. split_and!.
    + apply endsWith_iff. exists (base +:+ "."). by rewrite string_app_assoc.
    + apply endsWith_iff. by exists base.
    + destruct (endsWith (base +:+ ".JSON") "json") eqn:Hends; [|done].
      apply endsWith_iff in Hends as [p Hp]. exfalso.
      assert (substring (String.length base + 1) 4 (base +:+ ".JSON") = "JSON") as H1.
      { pose proof (substring_app_r (base +:+ ".") "JSON") as Hsub.
        rewrite string_app_assoc, String_length_app in Hsub. exact Hsub. }
      assert (String.length p = String.length base + 1) as Hlen.
      { apply (f_equal String.length) in Hp. rewrite !String_length_app in Hp.
        cbn in Hp. lia. }
      rewrite Hp, <- Hlen in H1. change 4 with (String.length "json") in H1.
      by rewrite (substring_app_r p "json") in H1.
    + destruct (endsWith (base +:+ ".diff") "json") eqn:Hends; [|done].
      apply endsWith_iff in Hends as [p Hp]. exfalso.
      assert (substring (String.length base + 1) 4 (base +:+ ".diff") = "diff") as H1.
      { pose proof (substring_app_r (base +:+ ".") "diff") as Hsub.
        rewrite string_app_assoc, String_length_app in Hsub. exact Hsub. }
      assert (String.length p = String.length base + 1) as Hlen.
      { apply (f_equal String.length) in Hp. rewrite !String_length_app in Hp.
        cbn in Hp. lia. }
      rewrite Hp, <- Hlen in H1. change 4 with (String.length "json") in H1.
      by rewrite (substring_app_r p "json") in H1.
Qed.

(** The keys of the hunk views and the assertion of the render.  Ids
    are pairwise different strings, none of them [undefined].  Within a
    file diff, two hunks get the same key exactly when they start at the
    same old line and have the same association, or both none.  So the
    assertions of a render hold exactly when, in every file diff, the
    hunks on screen differ pairwise in their old start line or in their
    association; for a diff with no association, as right after a patch
    is loaded, exactly when the hunks of every file diff start at
    pairwise different old lines. *)
Theorem hunk_keys_and_assertion (UUID_text : UUID → string) (st : State) :
  (∀ id id', UUID_text id = UUID_text id' → id = id') →
  (∀ id, UUID_text id ≠ "undefined") →
  (∀ fileDiff hunk hunk',
     HunkView_key UUID_text st fileDiff hunk
     = HunkView_key UUID_text st fileDiff hunk'
     ↔ oldStart (hunk_fields hunk) = oldStart (hunk_fields hunk')
       ∧ hunkMap st !! hunk_loc hunk = hunkMap st !! hunk_loc hunk')
  ∧ (render_asserted UUID_text st = true
     ↔ ∀ fileDiff, In fileDiff (diff st) →
         NoDup (map (λ hunk, (oldStart (hunk_fields hunk),
                              hunkMap st !! hunk_loc hunk))
                    (List.filter (visible st) (hunks fileDiff))))
  ∧ (hunkMap st = ∅ →
     (render_asserted UUID_text st = true
      ↔ ∀ fileDiff, In fileDiff (diff st) →
          NoDup (map (λ hunk, oldStart (hunk_fields hunk)) (hunks fileDiff)))).
Proof.
  intros Hinj Hdef.
  assert (∀ fileDiff hunk hunk',
            HunkView_key UUID_text st fileDiff hunk
            = HunkView_key UUID_text st fileDiff hunk'
            ↔ oldStart (hunk_fields hunk) = oldStart (hunk_fields hunk')
              ∧ hunkMap st !! hunk_loc hunk = hunkMap st !! hunk_loc hunk')
    as Hkey.
  { intros fd h h'. unfold HunkView_key. split.
    - intros Heq. do 4 apply string_app_inv_head in Heq.
      apply (string_app_sep_inj "_") in Heq as [Hstart Hid];
        [|apply Number_toString_no_sep..].
      apply Number_toString_inj in Hstart. split; [done|].
      destruct (hunkMap st !! hunk_loc h) as [id|],
               (hunkMap st !! hunk_loc h') as [id'|]; cbn in Hid.
      + f_equal. by apply Hinj.
      + by apply Hdef in Hid.
      + symmetry in Hid. by apply Hdef in Hid.
      + done.
    - by intros [-> ->]. }
  assert (render_asserted UUID_text st = true
          ↔ ∀ fileDiff, In fileDiff (diff st) →
              NoDup (map (λ hunk, (oldStart (hunk_fields hunk),
                                   hunkMap st !! hunk_loc hunk))
                         (List.filter (visible st) (hunks fileDiff)))) as Hassert.
  { unfold render_asserted. rewrite forallb_forall.
    apply forall_proper. intros fd.
    assert (keys_asserted []
              (map (HunkView_key UUID_text st fd)
                   (List.filter (visible st) (hunks fd))) = true
            ↔ NoDup (map (λ hunk, (oldStart (hunk_fields hunk),
                                   hunkMap st !! hunk_loc hunk))
                         (List.filter (visible st) (hunks fd)))) as ->; [|done].
    rewrite keys_asserted_NoDup.
    rewrite (NoDup_map_same (HunkView_key UUID_text st fd)
               (λ hunk, (oldStart (hunk_fields hunk), hunkMap st !! hunk_loc hunk))).
    - split; [by intros [? _]|]. intros Hnd. split; [done|].
      intros key _. apply not_elem_of_nil.
    - intros h h'. rewrite Hkey. split; [by intros [-> ->]|by intros [= -> ->]]. }
  split_and!; [done..|].
  intros Hempty. rewrite Hassert. apply forall_proper. intros fd.
  apply forall_proper. intros _.
  rewrite filter_all.
  - apply NoDup_map_same. intros h h'. rewrite Hempty, !lookup_empty.
    split; [by intros [= ->]|by intros ->].
  - intros h _. apply visible_true_iff. right. left. by rewrite Hempty, lookup_empty.
Qed.

Lemma hunk_keys_and_assertion_witness :
  let UUID_text := λ id : UUID, Number_toString (Z.of_N id) in
  let st := mkState [mkParsedDiff "a" "b" [mkHunk 0 (mkHunkFields 1 1 1 1 ["+x"]);
                                           mkHunk 1 (mkHunkFields 1 2 1 2 ["+y"])]]
                    "" [(1%N, "bug")] {[0 := 1%N]} ∅ 2%N 2 in
  render_asserted UUID_text st = true
  ∧ render_asserted UUID_text (with_hunkMap ∅ st) = false
  ∧ (render_asserted UUID_text st = true
     ↔ ∀ fileDiff, In fileDiff (diff st) →
         NoDup (map (λ hunk, (oldStart (hunk_fields hunk),
                              hunkMap st !! hunk_loc hunk))
                    (List.filter (visible st) (hunks fileDiff)))).
Proof.
  intros UUID_text st. split; [vm_compute; reflexivity|].
  split; [vm_compute; reflexivity|].
  apply (hunk_keys_and_assertion UUID_text st).
  - intros id id' Heq%Number_toString_inj. lia.
  - intros id Heq. unfold UUID_text, Number_toString in Heq.
    destruct (Z_to_int_proper (Z.of_N id)) as [H1 H2].
    pose proof (DecimalString.NilZero.isi _ H1 H2) as Hparse.
    rewrite Heq in Hparse. discriminate.
Defined.

(** What the page keeps.  After every session of the page, the labels
    have pairwise different ids, none of them [NIL], each handed out by
    [generateUUID] before; the hunks of the diff are pairwise different
    objects; and the filter holds only ids that were handed out, so that
    the id of a label that is added later is not in it.  When every diff
    of the session was keyed, so that a select writes the association of
    a hunk on screen only, only hunks of the diff that is loaded have an
    association. *)
Theorem stores_of_session
    (parsePatch : string → option (list ParsedDiffJSON))
    (JSON_parse : string → option Document) (evs : list Event) (ui : UI) :
  session parsePatch JSON_parse evs = Some ui →
  NoDup (JSMap.keys (labelMap (stores ui)))
  ∧ (∀ id, id ∈ JSMap.keys (labelMap (stores ui)) →
           id ≠ NULL_UUID ∧ (id < next_uuid (stores ui))%N)
  ∧ NoDup (hunk_locs (diff (stores ui)))
  ∧ (session_keyed parsePatch JSON_parse evs = true →
     ∀ x, is_Some (hunkMap (stores ui) !! x) → x ∈ hunk_locs (diff (stores ui)))
  ∧ (∀ id, id ∈ labelFilter (stores ui) → (id < next_uuid (stores ui))%N)
  ∧ (next_uuid (stores ui) ∉ JSMap.keys (labelMap (stores ui)))
  ∧ (next_uuid (stores ui) ∉ labelFilter (stores ui)).
Proof.
  intros [[Hpos Hnd Hbound Hhnd Hhbound Hassoc Hfb] _]%session_inv.
  split_and!; try done.
  - intros id Hid%Hbound. unfold NULL_UUID. lia.
  - intros Hin%Hbound. lia.
  - intros Hin%Hfb. lia.
Qed.

Lemma stores_of_session_witness :
  let parsePatch := λ s : string,
    if String.eqb s "" then Some []
    else Some [mkParsedDiff "a" "b" [mkHunkFields 1 1 1 1 ["+x"];
                                     mkHunkFields 5 1 5 1 ["-y"]]] in
  let JSON_parse := λ _ : string, @None Document in
  let evs := [FileRead "fix.diff" "@@"; NewLabelChange "bug"; AddClick;
              SelectChange 0 1%N; FilterClick 1%N; FileRead "fix.diff" "@@";
              NewLabelChange "doc"; AddClick; TrashClick 1%N] in
  let ui := default blank (session parsePatch JSON_parse evs) in
  JSMap.keys (labelMap (stores ui)) = [2%N]
  ∧ hunk_locs (diff (stores ui)) = [2; 3]
  ∧ session_keyed parsePatch JSON_parse evs = true
  ∧ NoDup (JSMap.keys (labelMap (stores ui)))
  ∧ (∀ id, id ∈ JSMap.keys (labelMap (stores ui)) →
           id ≠ NULL_UUID ∧ (id < next_uuid (stores ui))%N)
  ∧ NoDup (hunk_locs (diff (stores ui)))
  ∧ (session_keyed parsePatch JSON_parse evs = true →
     ∀ x, is_Some (hunkMap (stores ui) !! x) → x ∈ hunk_locs (diff (stores ui)))
  ∧ (∀ id, id ∈ labelFilter (stores ui) → (id < next_uuid (stores ui))%N)
  ∧ (next_uuid (stores ui) ∉ JSMap.keys (labelMap (stores ui)))
  ∧ (next_uuid (stores ui) ∉ labelFilter (stores ui)).
Proof.
  intros parsePatch JSON_parse evs ui.
  split; [vm_compute; reflexivity|]. split; [vm_compute; reflexivity|].
  split; [vm_compute; reflexivity|].
  apply (stores_of_session parsePatch JSON_parse evs). vm_compute. reflexivity.
Defined.

(** ** Objects in the order of their own properties *)

Section Order_facts.
Context {V : Type}.
Implicit Types (k : string) (v : V) (o : JSObject.t V).

Lemma own_property_order_app_l (l1 l2 : list string) :
  own_property_order (l1 ++ l2) → own_property_order l1.
Proof.
  induction l1 as [|k l1 IH]; [done|]. cbn [app own_property_order].
  intros [Hk Hrest]. split; [|by apply IH].
  by apply Forall_app in Hk as [? _].
Qed.

Lemma define_new_keys_Forall (P : string → Prop) k v o :
  Forall P (JSMap.keys (JSObject.define_new k v o))
  ↔ P k ∧ Forall P (JSMap.keys o).
Proof.
  unfold JSMap.keys.
  assert ((JSObject.define_new k v o).*1 ≡ₚ k :: o.*1) as Hperm.
  { change (k :: o.*1) with (((k, v) :: o).*1).
    apply fmap_Permutation, define_new_perm. }
  rewrite Hperm. apply Forall_cons.
Qed.

Lemma define_new_order k v o :
  own_property_order (JSMap.keys o) →
  own_property_order (JSMap.keys (JSObject.define_new k v o)).
Proof.
  induction o as [|[k' v'] o IH]; [done|].
  cbn [JSObject.define_new]. unfold JSMap.keys in *. rewrite fmap_cons.
  cbn [fst own_property_order]. intros [Hk' Ho].
  destruct (array_index k) as [n|] eqn:Hn, (array_index k') as [n'|] eqn:Hn'.
  - destruct (n <? n')%N eqn:Hlt.
    + rewrite !fmap_cons. cbn [fst own_property_order]. split_and!; [|done..].
      apply Forall_cons. split.
      * unfold key_before. rewrite Hn, Hn'. apply N.ltb_lt in Hlt. lia.
      * eapply Forall_impl; [exact Hk'|]. intros k''. unfold key_before.
        rewrite Hn, Hn'. apply N.ltb_lt in Hlt.
        destruct (array_index k''); [lia|done].
    + rewrite fmap_cons. cbn [fst own_property_order]. split; [|by apply IH].
      apply (define_new_keys_Forall _ k v o). split; [|done].
      unfold key_before. rewrite Hn, Hn'. apply N.ltb_ge in Hlt. lia.
  - rewrite !fmap_cons. cbn [fst own_property_order]. split_and!; [|done..].
    apply Forall_cons. split.
    + unfold key_before. by rewrite Hn, Hn'.
    + eapply Forall_impl; [exact Hk'|]. intros k''. unfold key_before.
      rewrite Hn, Hn'. by destruct (array_index k'').
  - rewrite fmap_cons. cbn [fst own_property_order]. split; [|by apply IH].
    apply (define_new_keys_Forall _ k v o). split; [|done].
    unfold key_before. by rewrite Hn, Hn'.
  - rewrite fmap_cons. cbn [fst own_property_order]. split; [|by apply IH].
    apply (define_new_keys_Forall _ k v o). split; [|done].
    unfold key_before. by rewrite Hn, Hn'.
Qed.

Lemma assign_order k v o :
  own_property_order (JSMap.keys o) →
  own_property_order (JSMap.keys (JSObject.assign k v o)).
Proof.
  intros Ho. unfold JSObject.assign. case_decide; [done|].
  destruct (JSMap.has k o) eqn:Hk; [|by apply define_new_order].
  by rewrite JSMap_keys_set, Hk.
Qed.

Lemma assign_all_order (kvs : list (string * V)) : ∀ o,
  own_property_order (JSMap.keys o) →
  own_property_order (JSMap.keys (assign_all kvs o)).
Proof.
  unfold assign_all. induction kvs as [|[k v] kvs IH]; intros o Ho; [done|].
  cbn [fold_left]. by apply IH, assign_order.
Qed.

Lemma define_new_last k v o :
  own_property_order (JSMap.keys (o ++ [(k, v)])) →
  JSObject.define_new k v o = o ++ [(k, v)].
Proof.
  induction o as [|[k' v'] o IH]; [done|].
  cbn [app JSObject.define_new]. unfold JSMap.keys in *. rewrite fmap_cons.
  cbn [fst own_property_order]. intros [Hk' Ho].
  assert (key_before k' k) as Hkk.
  { rewrite Forall_forall in Hk'. apply Hk'. rewrite fmap_app, elem_of_app.
    right. apply list_elem_of_here. }
  unfold key_before in Hkk.
  destruct (array_index k) as [n|], (array_index k') as [n'|]; try done.
  - assert ((n <? n')%N = false) as -> by (apply N.ltb_ge; lia).
    by rewrite IH.
  - by rewrite IH.
  - by rewrite IH.
Qed.

(** The entries of an object, assigned in order to an empty object, give
    the object. *)
Lemma assign_all_ordered o :
  NoDup (JSMap.keys o) → "__proto__" ∉ JSMap.keys o →
  own_property_order (JSMap.keys o) →
  assign_all o [] = o.
Proof.
  induction o as [|[k v] o IH] using rev_ind; [done|].
  rewrite JSMap_keys_app. intros Hnd Hproto Horder.
  apply NoDup_app in Hnd as (Hnd & Hdisj & _).
  rewrite assign_all_snoc, IH; [|done|..].
  - unfold JSObject.assign. rewrite decide_False.
    + assert (JSMap.has k o = false) as ->.
      { apply JSMap_has_false, JSMap_get_None. intros Hin.
        apply (Hdisj k Hin). apply list_elem_of_here. }
      apply define_new_last. by rewrite JSMap_keys_app.
    + intros ->. apply Hproto. rewrite elem_of_app. right. apply list_elem_of_here.
  - intros Hin. apply Hproto. rewrite elem_of_app. by left.
  - by apply own_property_order_app_l in Horder.
Qed.

End Order_facts.

(** ** The export map of a state whose groups are contiguous *)

Lemma export_hunk_first st fd m h :
  JSMap.get (group_id st h) m = None →
  exportAsJSON_hunk st fd m h
  = m ++ [(group_id st h,
           [(names_key fd, mkParsedDiff (oldFileName fd) (newFileName fd) [h])])].
Proof.
  intros Hnone. export_hunk_cases st fd m h; [done|..].
  - by rewrite (JSMap_get_middle _ _ _ _ Hl1) in Hnone.
  - by rewrite (JSMap_get_middle _ _ _ _ Hl1) in Hnone.
Qed.

Lemma export_hunk_new_names st fd m0 inner h :
  JSMap.get (group_id st h) m0 = None →
  JSMap.get (names_key fd) inner = None →
  exportAsJSON_hunk st fd (m0 ++ [(group_id st h, inner)]) h
  = m0 ++ [(group_id st h,
            inner ++ [(names_key fd,
                       mkParsedDiff (oldFileName fd) (newFileName fd) [h])])].
Proof.
  intros Hu Hk. unfold exportAsJSON_hunk. cbv zeta.
  pose proof (JSMap_get_middle _ inner m0 [] Hu) as Hget.
  assert (JSMap.has (group_id st h) (m0 ++ [(group_id st h, inner)]) = true) as ->.
  { apply JSMap_has_true. rewrite Hget. by eexists. }
  rewrite Hget. cbn [from_option id].
  assert (JSMap.has (names_key fd) inner = false) as -> by (by apply JSMap_has_false).
  rewrite JSMap_get_set_eq. cbn [from_option id].
  rewrite (JSMap_set_absent _ _ inner Hk).
  rewrite (JSMap_set_middle _ _ _ inner [] Hk).
  by rewrite (JSMap_set_middle _ _ _ m0 [] Hu).
Qed.

Lemma export_hunk_push st fd m0 inner d h :
  JSMap.get (group_id st h) m0 = None →
  JSMap.get (names_key fd) inner = None →
  exportAsJSON_hunk st fd (m0 ++ [(group_id st h, inner ++ [(names_key fd, d)])]) h
  = m0 ++ [(group_id st h, inner ++ [(names_key fd, push h d)])].
Proof.
  intros Hu Hk. unfold exportAsJSON_hunk. cbv zeta.
  pose proof (JSMap_get_middle _ (inner ++ [(names_key fd, d)]) m0 [] Hu) as Hget.
  assert (JSMap.has (group_id st h)
            (m0 ++ [(group_id st h, inner ++ [(names_key fd, d)])]) = true) as ->.
  { apply JSMap_has_true. rewrite Hget. by eexists. }
  rewrite Hget. cbn [from_option id].
  pose proof (JSMap_get_middle _ d inner [] Hk) as Hgeti.
  assert (JSMap.has (names_key fd) (inner ++ [(names_key fd, d)]) = true) as ->.
  { apply JSMap_has_true. rewrite Hgeti. by eexists. }
  rewrite Hgeti. cbn [from_option id].
  rewrite (JSMap_set_middle _ _ _ inner [] Hk).
  by rewrite (JSMap_set_middle _ _ _ m0 [] Hu).
Qed.

Lemma export_fold_pair st fd hs m :
  export_fold st (map (pair fd) hs) m = fold_left (exportAsJSON_hunk st fd) hs m.
Proof.
  unfold export_fold. revert m. induction hs as [|h hs IH]; intros m; [done|].
  cbn [map fold_left]. apply IH.
Qed.

Lemma export_fold_app st occ1 occ2 m :
  export_fold st (occ1 ++ occ2) m = export_fold st occ2 (export_fold st occ1 m).
Proof. unfold export_fold. apply fold_left_app. Qed.

(** The further hunks of a file diff whose first hunk is in the map. *)
Lemma export_diff_hunks st fd u m0 inner hs : ∀ hs0,
  (∀ h, In h hs → group_id st h = u) →
  JSMap.get u m0 = None →
  JSMap.get (names_key fd) inner = None →
  fold_left (exportAsJSON_hunk st fd) hs
    (m0 ++ [(u, inner ++ [(names_key fd,
                            mkParsedDiff (oldFileName fd) (newFileName fd) hs0)])])
  = m0 ++ [(u, inner ++ [(names_key fd,
                          mkParsedDiff (oldFileName fd) (newFileName fd)
                                       (hs0 ++ hs))])].
Proof.
  induction hs as [|h hs IH]; intros hs0 Hgroup Hu Hk.
  - by rewrite app_nil_r.
  - cbn [fold_left]. rewrite <- (Hgroup h) by (by left).
    rewrite export_hunk_push; [|by rewrite (Hgroup h) by (by left)|done].
    unfold push. cbn [oldFileName newFileName hunks].
    rewrite (Hgroup h) by (by left).
    rewrite IH; [|intros h' Hh'; apply Hgroup; by right|done..].
    by rewrite <- app_assoc.
Qed.

Lemma ParsedDiff_eta {H} (d : ParsedDiffOf H) :
  mkParsedDiff (oldFileName d) (newFileName d) (hunks d) = d.
Proof. by destruct d. Qed.

(** The file diffs of an entry after its first one. *)
Lemma export_fold_entry_rest st u m0 pds : ∀ inner,
  JSMap.get u m0 = None →
  (∀ fd h, In fd pds → In h (hunks fd) → group_id st h = u) →
  Forall (λ d : ParsedDiff, hunks d ≠ []) pds →
  NoDup (map names_key pds) →
  (∀ d, In d pds → JSMap.get (names_key d) inner = None) →
  export_fold st (traversal pds) (m0 ++ [(u, inner)])
  = m0 ++ [(u, inner ++ map (λ d, (names_key d, d)) pds)].
Proof.
  induction pds as [|fd pds IH]; intros inner Hu Hgroup Hne Hnd Hfresh.
  - cbn. by rewrite app_nil_r.
  - apply Forall_cons in Hne as [Hfd Hne]. cbn [map] in Hnd.
    apply NoDup_cons in Hnd as [Hout Hnd].
    unfold traversal. cbn [flat_map]. fold (traversal pds).
    rewrite export_fold_app, export_fold_pair.
    destruct (hunks fd) as [|h hs] eqn:Hhs; [done|]. cbn [fold_left].
    assert (group_id st h = u) as Hh
      by (apply (Hgroup fd); [by left|rewrite Hhs; by left]).
    rewrite <- Hh at 1.
    rewrite export_hunk_new_names; [|by rewrite Hh|apply Hfresh; by left].
    rewrite Hh.
    rewrite (export_diff_hunks st fd u m0 inner hs [h]);
      [|intros h' Hh'; apply (Hgroup fd); [by left|rewrite Hhs; by right]
       |done|apply Hfresh; by left].
    cbn [app]. rewrite <- Hhs, ParsedDiff_eta.
    rewrite IH; [|done|..].
    + cbn [map]. by rewrite <- app_assoc.
    + intros fd' h' Hfd' Hh'. apply (Hgroup fd'); [by right|done].
    + done.
    + done.
    + intros d Hd. rewrite JSMap_get_app, (Hfresh d) by (by right).
      cbn [JSMap.get]. rewrite decide_False; [done|].
      intros Heq. apply Hout. rewrite <- Heq. apply list_elem_of_In.
      by apply in_map.
Qed.

Lemma export_fold_entry st u m0 (pds : list ParsedDiff) :
  entry_normal pds →
  (∀ fd h, In fd pds → In h (hunks fd) → group_id st h = u) →
  JSMap.get u m0 = None →
  export_fold st (traversal pds) m0
  = m0 ++ [(u, map (λ d, (names_key d, d)) pds)].
Proof.
  intros (Hne & Hnd & Hhunks) Hgroup Hu.
  destruct pds as [|fd pds]; [done|].
  apply Forall_cons in Hhunks as [Hfd Hhunks]. cbn [map] in Hnd.
  apply NoDup_cons in Hnd as [Hout Hnd].
  unfold traversal. cbn [flat_map]. fold (traversal pds).
  rewrite export_fold_app, export_fold_pair.
  destruct (hunks fd) as [|h hs] eqn:Hhs; [done|]. cbn [fold_left].
  assert (group_id st h = u) as Hh
    by (apply (Hgroup fd); [by left|rewrite Hhs; by left]).
  rewrite export_hunk_first by (by rewrite Hh). rewrite Hh.
  pose proof (export_diff_hunks st fd u m0 [] hs [h]) as Hrest.
  cbn [app] in Hrest.
  rewrite Hrest;
    [|intros h' Hh'; apply (Hgroup fd); [by left|rewrite Hhs; by right]|done..].
  rewrite <- Hhs, ParsedDiff_eta.
  rewrite export_fold_entry_rest; [done|done|..].
  - intros fd' h' Hfd' Hh'. apply (Hgroup fd'); [by right|done].
  - done.
  - done.
  - intros d Hd. cbn [JSMap.get]. rewrite decide_False; [done|].
    intros Heq. apply Hout. change (names_key_of fd) with (names_key fd).
    rewrite <- Heq. apply list_elem_of_In. by apply (in_map names_key_of).
Qed.

Lemma export_fold_imported st ts : ∀ m0,
  NoDup (map (λ t : UUID * string * list ParsedDiff, t.1.1) ts) →
  (∀ t, In t ts → JSMap.get t.1.1 m0 = None) →
  (∀ u k pds fd h, In (u, k, pds) ts → In fd pds → In h (hunks fd) →
                   group_id st h = u) →
  Forall (λ t, entry_normal t.2) ts →
  export_fold st (flat_map (λ t, traversal t.2) ts) m0
  = m0 ++ export_of_imported ts.
Proof.
  induction ts as [|[[u k] pds] ts IH]; intros m0 Hnd Hfresh Hgroup Hnormal.
  - cbn. by rewrite app_nil_r.
  - cbn [map fst snd] in Hnd. apply NoDup_cons in Hnd as [Hout Hnd].
    apply Forall_cons in Hnormal as [Hpds Hnormal]. cbn [snd] in Hpds.
    cbn [flat_map snd]. rewrite export_fold_app.
    rewrite (export_fold_entry st u m0 pds); [|done|..].
    + rewrite IH; [|done|..].
      * unfold export_of_imported. cbn [map]. by rewrite <- app_assoc.
      * intros t Ht. rewrite JSMap_get_app, (Hfresh t) by (by right).
        cbn [JSMap.get]. rewrite decide_False; [done|].
        intros Heq. apply Hout. rewrite <- Heq. apply list_elem_of_In.
        by apply (in_map (λ t : UUID * string * list ParsedDiff, t.1.1)).
      * intros u' k' pds' fd h Ht. apply (Hgroup u' k' pds'). by right.
      * done.
    + intros fd h. apply (Hgroup u k pds). by left.
    + apply (Hfresh (u, k, pds)). by left.
Qed.

(** ** Every exported document is normal *)

Lemma label_key_nonempty st u : label_key st u ≠ "".
Proof.
  unfold label_key. destruct (JSMap.get u (labelMap st)) as [label|]; [|done].
  by case_decide.
Qed.

Lemma inner_wf_names (inner : JSMap.t string ParsedDiff) :
  Forall (λ '(k, d), names_key d = k ∧ hunks d ≠ []) inner →
  map names_key (JSMap.values inner) = JSMap.keys inner.
Proof.
  unfold JSMap.values, JSMap.keys. induction inner as [|[k d] inner IH]; [done|].
  intros [[Hk _] Hrest]%Forall_cons. rewrite !fmap_cons. cbn [map fst snd].
  f_equal; [done|by apply IH].
Qed.

Lemma exportAsJSON_normal st : normal_document (exportAsJSON st).
Proof.
  unfold exportAsJSON.
  assert (∀ k ds, In (k, ds) (JSON_of_object (exportAsJSON_object st)) →
                  ∃ ds', In (k, ds') (exportAsJSON_object st)
                         ∧ ds = map JSON_of_diff ds') as Hentry.
  { intros k ds. unfold JSON_of_object.
    intros ([k' ds'] & [= <- <-] & Hin)%in_map_iff. by exists ds'. }
  assert (∀ k, k ∈ JSMap.keys (JSON_of_object (exportAsJSON_object st)) →
               ∃ ds, In (k, ds) (exportAsJSON_object st)) as Hkey.
  { intros k. rewrite JSON_of_object_keys.
    intros ([k' ds] & -> & Hin%list_elem_of_In)%list_elem_of_fmap. by exists ds. }
  split.
  - rewrite JSON_of_object_keys, exportAsJSON_object_assign_all.
    apply assign_all_keys_NoDup, NoDup_nil_2.
  - rewrite JSON_of_object_keys, exportAsJSON_object_assign_all.
    by apply assign_all_order.
  - intros [ds Hin]%Hkey. by apply export_object_entry in Hin as [? _].
  - intros [ds Hin]%Hkey.
    apply export_object_entry in Hin as (_ & a & u & inner & b & _ & Hk & _).
    by apply (label_key_nonempty st u).
  - apply Forall_forall. intros [k ds] Hin%list_elem_of_In.
    apply Hentry in Hin as (ds' & Hin & ->).
    apply export_object_entry in Hin as (_ & a & u & inner & b & Hm & _ & -> & _).
    destruct (exportAsJSON_map_spec st) as (Hwf & _ & _).
    destruct (export_wf_entry _ u inner Hwf) as [_ (Hnd & Hne & Hall)].
    { rewrite Hm. apply in_or_app. right. by left. }
    cbn [snd]. split_and!.
    + destruct inner; [done|]. by cbn.
    + rewrite map_map.
      change (map (λ d, names_key_of (JSON_of_diff d)) (JSMap.values inner))
        with (map names_key (JSMap.values inner)).
      by rewrite inner_wf_names.
    + apply Forall_forall. intros d (d' & <- & Hd)%list_elem_of_In%in_map_iff.
      unfold JSMap.values in Hd.
      apply list_elem_of_In, list_elem_of_fmap in Hd as ([k' d''] & -> & Hd).
      rewrite Forall_forall in Hall. apply Hall in Hd as [_ Hhunks].
      cbn [snd JSON_of_diff hunks]. by destruct (hunks d'').
Qed.

(** ** Import, then export *)

Lemma imported_labels base data :
  import_labels base data
  = map (λ t : UUID * string * list ParsedDiff, (t.1.1, t.1.2)) (imported base data).
Proof.
  revert base. induction data as [|[k pds] data IH]; intros base; [done|].
  cbn [import_labels imported map fst snd]. by rewrite IH.
Qed.

Lemma imported_data base data :
  map (λ t : UUID * string * list ParsedDiff, (t.1.2, t.2)) (imported base data)
  = data.
Proof.
  revert base. induction data as [|[k pds] data IH]; intros base; [done|].
  cbn [imported map fst snd]. by rewrite IH.
Qed.

Lemma imported_traversal base data :
  flat_map (λ t : UUID * string * list ParsedDiff, traversal t.2) (imported base data)
  = traversal (flat_map snd data).
Proof.
  rewrite traversal_flat_map. revert base.
  induction data as [|[k pds] data IH]; intros base; [done|].
  cbn [imported flat_map snd]. by rewrite IH.
Qed.

Lemma imported_ids base data :
  map (λ t : UUID * string * list ParsedDiff, t.1.1) (imported base data)
  = JSMap.keys (import_labels base data).
Proof.
  unfold JSMap.keys. revert base.
  induction data as [|[k pds] data IH]; intros base; [done|].
  cbn [imported import_labels map fst snd]. rewrite fmap_cons. by rewrite IH.
Qed.

Lemma imported_texts base data :
  map (λ t : UUID * string * list ParsedDiff, t.1.2) (imported base data)
  = JSMap.keys data.
Proof.
  unfold JSMap.keys. revert base.
  induction data as [|[k pds] data IH]; intros base; [done|].
  cbn [imported map fst snd]. rewrite fmap_cons. by rewrite IH.
Qed.

Lemma NoDup_map_eq {A B} (f : A → B) (l : list A) x y :
  NoDup (map f l) → In x l → In y l → f x = f y → x = y.
Proof.
  induction l as [|a l IH]; [done|]. cbn [map].
  intros [Ha Hl]%NoDup_cons [->|Hx] [->|Hy] Heq; [done|..].
  - destruct Ha. rewrite Heq. apply list_elem_of_In. by apply in_map.
  - destruct Ha. rewrite <- Heq. apply list_elem_of_In. by apply in_map.
  - by apply IH.
Qed.

Lemma alloc_hunks_nil base fs : alloc_hunks base fs = [] → fs = [].
Proof. by destruct fs. Qed.

Lemma alloc_diffs_names base ds :
  map names_key_of (alloc_diffs base ds) = map names_key_of ds.
Proof.
  revert base. induction ds as [|d ds IH]; intros base; [done|].
  cbn [alloc_diffs map]. by rewrite IH.
Qed.

Lemma alloc_diffs_normal base ds :
  entry_normal ds → entry_normal (alloc_diffs base ds).
Proof.
  intros (Hne & Hnd & Hhunks). split_and!.
  - by destruct ds.
  - by rewrite alloc_diffs_names.
  - revert base. induction ds as [|d ds IH]; intros base; [done|].
    cbn [alloc_diffs]. apply Forall_cons in Hhunks as [Hd Hhunks].
    apply Forall_cons. split.
    + cbn [hunks]. intros Hnil%alloc_hunks_nil. done.
    + destruct ds as [|d' ds]; [done|]. apply IH; try done.
      cbn [map] in Hnd. by apply NoDup_cons in Hnd as [_ ?].
Qed.

Lemma alloc_entries_normal base doc :
  normal_document doc → normal_document (alloc_entries base doc).
Proof.
  intros [Hnd Horder Hproto Hempty Hentries].
  split; rewrite ?alloc_entries_keys; try done.
  revert base. induction doc as [|[k ds] doc IH]; intros base; [done|].
  cbn [alloc_entries]. apply Forall_cons in Hentries as [Hds Hentries].
  unfold JSMap.keys in *. rewrite fmap_cons in Hnd, Horder, Hproto, Hempty.
  cbn [fst own_property_order] in *.
  apply NoDup_cons in Hnd as [_ Hnd]. destruct Horder as [_ Horder].
  apply Forall_cons. split; [by apply alloc_diffs_normal|].
  apply IH; try done.
  - intros Hin. apply Hproto. by right.
  - intros Hin. apply Hempty. by right.
Qed.

Lemma JSON_of_object_alloc base doc :
  JSON_of_object (alloc_entries base doc) = doc.
Proof.
  unfold JSON_of_object. revert base.
  induction doc as [|[k ds] doc IH]; intros base; [done|].
  cbn [alloc_entries map]. by rewrite JSON_of_alloc_diffs, IH.
Qed.

Lemma values_of_pairs {K V} (f : V → K) (l : list V) :
  JSMap.values (map (λ d, (f d, d)) l) = l.
Proof.
  unfold JSMap.values. induction l as [|d l IH]; [done|].
  cbn [map]. rewrite fmap_cons. by rewrite IH.
Qed.

(** A normal document comes back from an import followed by an
    export. *)
Lemma import_export_normal doc st0 :
  normal_document doc →
  exportAsJSON (exec (importDocument doc) st0) = doc.
Proof.
  intros Hnormal.
  destruct (importDocument_run doc st0) as (hm & Hrun & _ & Hassoc & _).
  cbv zeta in Hrun, Hassoc. unfold exec. rewrite Hrun. cbn [snd].
  set (data := alloc_entries (next_loc st0) doc) in *.
  set (ts := imported (next_uuid st0) data).
  set (st' := mkState _ _ _ _ _ _ _).
  pose proof (alloc_entries_normal (next_loc st0) doc Hnormal) as Hdata.
  fold data in Hdata. destruct Hdata as [Hnd Horder Hproto Hempty Hentries].
  destruct (import_labels_fresh (next_uuid st0) data) as [Hids _].
  assert (NoDup (map (λ t : UUID * string * list ParsedDiff, t.1.2) ts)) as Htexts.
  { subst ts. by rewrite imported_texts. }
  assert (∀ u k pds, In (u, k, pds) ts →
                     JSMap.get u (labelMap st') = Some k) as Hlabel.
  { intros u k pds Hin. subst st'. cbn [labelMap].
    apply JSMap_elem_get; [done|]. rewrite imported_labels. fold ts.
    apply list_elem_of_In, in_map_iff. by exists (u, k, pds). }
  assert (∀ u k pds fd h, In (u, k, pds) ts → In fd pds → In h (hunks fd) →
                          group_id st' h = u) as Hgroup.
  { intros u k pds fd h Hin Hfd Hh.
    destruct (Hassoc k pds fd h) as (id & Hid & Hget).
    - rewrite <- (imported_data (next_uuid st0) data). fold ts.
      apply in_map_iff. by exists (u, k, pds).
    - apply traversal_spec. by split.
    - unfold group_id. subst st'. cbn [hunkMap]. rewrite Hid. cbn.
      apply JSMap_get_Some_elem, list_elem_of_In in Hget.
      rewrite imported_labels in Hget. fold ts in Hget.
      apply in_map_iff in Hget as ([[u' k'] pds'] & [= -> ->] & Hin').
      by assert ((id, k, pds') = (u, k, pds)) as [= -> _]
        by (by apply (NoDup_map_eq (λ t : UUID * string * list ParsedDiff, t.1.2) ts)). }
  assert (exportAsJSON_map st' = export_of_imported ts) as Hmap.
  { rewrite exportAsJSON_map_fold. subst st'. cbn [diff].
    rewrite <- (imported_traversal (next_uuid st0) data). fold ts.
    rewrite export_fold_imported; [done| |done|done|].
    - subst ts. by rewrite imported_ids.
    - apply Forall_forall. intros [[u k] pds] Hin%list_elem_of_In. cbn [snd].
      rewrite Forall_forall in Hentries. apply (Hentries (k, pds)).
      apply list_elem_of_In. rewrite <- (imported_data (next_uuid st0) data).
      fold ts. apply in_map_iff. by exists (u, k, pds). }
  assert (assignments st' (export_of_imported ts) = data) as Hassign.
  { rewrite <- (imported_data (next_uuid st0) data). fold ts.
    unfold assignments, export_of_imported. rewrite map_map.
    apply map_ext_in. intros [[u k] pds] Hin. cbn [fst snd].
    rewrite values_of_pairs. f_equal.
    destruct (label_key_cases st' u) as (Hkey & _).
    apply Hkey; [by apply (Hlabel u k pds)|].
    intros ->. apply Hempty.
    rewrite <- (imported_data (next_uuid st0) data). fold ts. unfold JSMap.keys.
    apply list_elem_of_fmap. exists ("", pds). split; [done|].
    apply list_elem_of_In, in_map_iff. by exists (u, "", pds). }
  unfold exportAsJSON.
  rewrite exportAsJSON_object_assign_all, Hmap, Hassign.
  rewrite assign_all_ordered by done. apply JSON_of_object_alloc.
Qed.

(** ** Properties of exported documents *)

(** The shape of an exported document.  Whatever the state, the keys of
    the document [exportAsJSON] writes are pairwise different, stand in
    the order of the own properties of an object (array indices first,
    ascending), and each is the text of a label of the label map or
    [undefined]; none is the empty string or [__proto__].  Under every
    key there is at least one file diff, the file diffs under a key have
    pairwise different pairs of file names, and every file diff has at
    least one hunk. *)
Theorem exported_document_shape (st : State) :
  let doc := exportAsJSON st in
  NoDup (JSMap.keys doc)
  ∧ own_property_order (JSMap.keys doc)
  ∧ ("" ∉ JSMap.keys doc)
  ∧ ("__proto__" ∉ JSMap.keys doc)
  ∧ (∀ key, key ∈ JSMap.keys doc →
            key = "undefined"
            ∨ ∃ id, JSMap.get id (labelMap st) = Some key)
  ∧ (∀ key ds, In (key, ds) doc →
               ds ≠ []
               ∧ NoDup (map (λ d, (oldFileName d, newFileName d)) ds)
               ∧ ∀ d, In d ds → hunks d ≠ []).
Proof.
  cbv zeta. destruct (exportAsJSON_normal st) as [Hnd Horder Hproto Hempty Hentries].
  split_and!; try done.
  - intros key. unfold exportAsJSON. rewrite JSON_of_object_keys.
    intros ([k ds] & -> & Hin%list_elem_of_In)%list_elem_of_fmap. cbn [fst].
    apply export_object_entry in Hin as (_ & a & u & inner & b & _ & <- & _).
    unfold label_key. destruct (JSMap.get u (labelMap st)) as [label|] eqn:Hu;
      [|by left].
    case_decide; [by left|]. right. by exists u.
  - intros key ds Hin. rewrite Forall_forall in Hentries.
    destruct (Hentries (key, ds)) as (Hne & Hnames & Hhunks);
      [by apply list_elem_of_In|]. cbn [snd] in *.
    split_and!; [done| |].
    + apply (NoDup_fmap_1 (λ p : string * string, JSON_stringify_names p.1 p.2)).
      by rewrite <- list_fmap_compose.
    + intros d Hd%list_elem_of_In. rewrite Forall_forall in Hhunks.
      by apply Hhunks.
Qed.

(** Import, then export.  A document whose keys are pairwise different,
    in the order of the own properties of an object, none of them empty
    or [__proto__], and whose entries each hold at least one file diff,
    with pairwise different file names and at least one hunk each, comes
    back as it is when it is imported, from whatever state, and exported
    again: the same keys in the same order, the same file diffs and the
    same hunks under each. *)
Theorem import_then_export (doc : Document) (st0 : State) :
  normal_document doc →
  exportAsJSON (exec (importDocument doc) st0) = doc.
Proof. apply import_export_normal. Qed.

Lemma import_then_export_witness :
  let doc : Document :=
    [("7", [mkParsedDiff "a" "b" [mkHunkFields 9 1 9 1 ["+z"]]]);
     ("bug", [mkParsedDiff "a" "b" [mkHunkFields 1 1 1 1 ["+x"];
                                    mkHunkFields 5 1 5 1 ["-y"]];
              mkParsedDiff "c" "d" [mkHunkFields 2 1 2 1 ["+w"]]]);
     ("undefined", [mkParsedDiff "a" "b" [mkHunkFields 20 1 20 1 [" u"]]])] in
  normal_document doc
  ∧ exportAsJSON (exec (importDocument doc) initial) = doc.
Proof.
  intros doc.
  assert (normal_document doc) as Hnormal.
  { split.
    - eapply bool_decide_unpack. vm_compute. exact I.
    - cbn. repeat split; repeat (apply Forall_cons; split); try apply Forall_nil;
        vm_compute; exact I.
    - eapply bool_decide_unpack. vm_compute. exact I.
    - eapply bool_decide_unpack. vm_compute. exact I.
    - apply Forall_cons; split;
        [|apply Forall_cons; split; [|apply Forall_cons; split; [|done]]];
        cbn beta; cbn [snd]; unfold entry_normal;
        (split_and!;
         [done
         |eapply bool_decide_unpack; vm_compute; exact I
         |repeat (apply Forall_cons; split); try apply Forall_nil; by cbn]). }
  split; [done|]. by apply import_then_export.
Defined.

(** Export is stable under a round trip.  Whatever the state, importing
    the document [exportAsJSON] writes, from whatever state, and
    exporting again gives that document again, entry for entry and in the
    same order: what the first export left out (the groups overwritten
    under a shared key, the label [__proto__]) is lost, and nothing else
    changes after that. *)
Theorem export_import_export (st st0 : State) :
  exportAsJSON (exec (importDocument (exportAsJSON st)) st0) = exportAsJSON st.
Proof. apply import_export_normal, exportAsJSON_normal. Qed.
